(** * Curve sampler of [packages/colors/src/util/geometry.ts]

    A shallow embedding of the quadratic Bezier helpers (point sampling,
    cumulative arc-length tables with their per-object caches, the inverse
    arc-length mapping and [arcToConstellation]) and the properties the
    specification states about them.

    The TypeScript type [number] is kept abstract behind the class [Number];
    the instance [JSNumber] is IEEE-754 binary64 (Rocq's primitive floats),
    which is what the program runs on. *)

From Stdlib Require Import ZArith List Bool Lia.
From Stdlib Require Import Floats.
Import ListNotations.

Set Implicit Arguments.

(** ** Numbers *)

(** The operations [geometry.ts] performs on values of type [number]. *)
Class Number (num : Type) : Type := {
  (** an integer literal, a loop counter or an array length used as a number *)
  num_of_Z : Z -> num;
  (** the number [undefined] is coerced to by an arithmetic operator *)
  num_nan : num;
  num_add : num -> num -> num;
  num_sub : num -> num -> num;
  num_mul : num -> num -> num;
  num_div : num -> num -> num;
  (** [Math.sqrt] *)
  num_sqrt : num -> num;
  (** [a < b] *)
  num_ltb : num -> num -> bool;
  (** [a <= b] *)
  num_leb : num -> num -> bool;
  (** [a === b] *)
  num_eqb : num -> num -> bool
}.

Declare Scope num_scope.
Delimit Scope num_scope with num.
Infix "+" := num_add : num_scope.
Infix "-" := num_sub : num_scope.
Infix "*" := num_mul : num_scope.
Infix "/" := num_div : num_scope.
Infix "<?" := num_ltb : num_scope.
Infix "<=?" := num_leb : num_scope.
Infix "===" := num_eqb (at level 70, no associativity) : num_scope.
Notation "0" := (num_of_Z 0%Z) : num_scope.
Notation "1" := (num_of_Z 1%Z) : num_scope.
Notation "2" := (num_of_Z 2%Z) : num_scope.

Definition num_of_nat {num} `{Number num} (n : nat) : num :=
  num_of_Z (Z.of_nat n).

(** IEEE-754 binary64.  An integer of magnitude below [2^53] is converted
    exactly, which covers every counter and index of the program (an array
    holds fewer than [2^32] elements). *)
Definition float_of_Z (z : Z) : float :=
  match z with
  | Z0 => PrimFloat.zero
  | Zpos _ => PrimFloat.of_uint63 (Uint63.of_Z z)
  | Zneg _ => PrimFloat.opp (PrimFloat.of_uint63 (Uint63.of_Z (Z.opp z)))
  end.

#[export] Instance JSNumber : Number float := {
  num_of_Z := float_of_Z;
  num_nan := PrimFloat.nan;
  num_add := PrimFloat.add;
  num_sub := PrimFloat.sub;
  num_mul := PrimFloat.mul;
  num_div := PrimFloat.div;
  num_sqrt := PrimFloat.sqrt;
  num_ltb := PrimFloat.ltb;
  num_leb := PrimFloat.leb;
  num_eqb := PrimFloat.eqb
}.

(** ** Allocation of arrays

    The length functions create arrays ([const cache = []]) and store them
    in the curve or arc they are given.  The state threaded through them is
    the allocation counter; the updated curve or arc is returned next to
    the result. *)

Definition Alloc (A : Type) : Type := nat -> A * nat.

Definition ret {A} (a : A) : Alloc A := fun n => (a, n).

Definition bind {A B} (m : Alloc A) (k : A -> Alloc B) : Alloc B :=
  fun n => let (a, n') := m n in k a n'.

Definition fresh : Alloc nat := fun n => (n, S n).

Notation "x <- m ;; k" := (bind m (fun x => k))
  (at level 61, m at next level, right associativity).
Notation "' p <- m ;; k" := (bind m (fun x => match x with p => k end))
  (at level 61, p pattern, m at next level, right associativity).

(** ** Data model *)

Section Geometry.

Context {num : Type} `{Number num}.
Local Open Scope num_scope.

(** [Vec3 = [number, number, number]] *)
Definition Vec3 : Type := (num * num * num)%type.

Definition v0 (v : Vec3) : num := fst (fst v).
Definition v1 (v : Vec3) : num := snd (fst v).
Definition v2 (v : Vec3) : num := snd v.

(** A JavaScript array of numbers is an object: [ident] is its identity,
    given by the allocation counter when the array literal is evaluated. *)
Record NumArray : Type := mkArray {
  ident : nat;
  items : list num
}.

(** Modelled from the spec: the declarations of [./types] are not part of
    the sources.  A curve has three control points and an optional cache of
    cumulative arc lengths. *)
Record BezierCurve : Type := mkCurve {
  points : Vec3 * Vec3 * Vec3;
  cacheArcLengths : option NumArray
}.

(** Modelled from the spec: the declarations of [./types] are not part of
    the sources.  An arc is a sequence of curves with an optional cache of
    cumulative path lengths. *)
Record Arc : Type := mkArc {
  curves : list BezierCurve;
  cacheLengths : option NumArray
}.

(** A curve or an arc as the caller constructs it: control points only. *)
Definition newCurve (p0 p1 p2 : Vec3) : BezierCurve := mkCurve (p0, p1, p2) None.
Definition newArc (cs : list BezierCurve) : Arc := mkArc cs None.

(** [a[i]] for a number [i] holding an integer: [undefined] out of range. *)
Definition index (a : list num) (i : Z) : option num :=
  if (i <? 0)%Z then None else nth_error a (Z.to_nat i).

(** [ToNumber]: what an arithmetic operator makes of [a[i]]. *)
Definition to_number (v : option num) : num :=
  match v with
  | Some x => x
  | None => num_nan
  end.

(** [if (distance)]: [undefined], [0], [-0] and [NaN] are falsy. *)
Definition truthy (v : option num) : bool :=
  match v with
  | Some x => negb (x === 0) && (x === x)
  | None => false
  end.

(** ** Vectors *)

Definition distanceToSquared (a b : Vec3) : num :=
  let dx := v0 a - v0 b in
  let dy := v1 a - v1 b in
  let dz := v2 a - v2 b in
  dx * dx + dy * dy + dz * dz.

Definition distanceTo (a b : Vec3) : num := num_sqrt (distanceToSquared a b).

Definition equals (a b : Vec3) : bool :=
  (v0 a === v0 b) && (v1 a === v1 b) && (v2 a === v2 b).

(** ** The quadratic Bezier formula *)

Definition QuadraticBezierP0 (t p : num) : num :=
  let k := 1 - t in
  k * k * p.

Definition QuadraticBezierP1 (t p : num) : num := 2 * (1 - t) * t * p.

Definition QuadraticBezierP2 (t p : num) : num := t * t * p.

Definition QuadraticBezier (t p0 p1 p2 : num) : num :=
  QuadraticBezierP0 t p0 + QuadraticBezierP1 t p1 + QuadraticBezierP2 t p2.

Definition getPointOnCurve (curve : BezierCurve) (t : num) : Vec3 :=
  let '(a, b, c) := points curve in
  (QuadraticBezier t (v0 a) (v0 b) (v0 c),
   QuadraticBezier t (v1 a) (v1 b) (v1 c),
   QuadraticBezier t (v2 a) (v2 b) (v2 c)).

(** [for (let d = 0; d <= divisions; d++) points.push(...)] *)
Definition getPointsOnCurve (curve : BezierCurve) (divisions : nat) : list Vec3 :=
  map (fun d => getPointOnCurve curve (num_of_nat d / num_of_nat divisions))
      (seq 0 (S divisions)).

(** ** Cumulative arc lengths of a curve *)

Definition curveResolution : nat := 128.

(** The body of [for (let p = 1; p <= divisions; p++)] over the remaining
    values of [p], with the loop variables [last] and [sum]. *)
Fixpoint lengthsLoop (curve : BezierCurve) (divisions : nat) (ps : list nat)
    (last : Vec3) (sum : num) : list num :=
  match ps with
  | [] => []
  | p :: ps' =>
      let current := getPointOnCurve curve (num_of_nat p / num_of_nat divisions) in
      let sum' := sum + distanceTo current last in
      sum' :: lengthsLoop curve divisions ps' current sum'
  end.

(** The table [getCurveLengths] builds when it does not return the cache. *)
Definition computeCurveLengths (curve : BezierCurve) (divisions : nat) : list num :=
  0 :: lengthsLoop curve divisions (seq 1 divisions) (getPointOnCurve curve 0) 0.

Definition getCurveLengths (curve : BezierCurve) (divisions : nat)
  : Alloc (NumArray * BezierCurve) :=
  let recompute :=
    id <- fresh ;;
    let cache := mkArray id (computeCurveLengths curve divisions) in
    ret (cache, mkCurve (points curve) (Some cache)) in
  match cacheArcLengths curve with
  | Some cache =>
      if (length (items cache) =? divisions + 1)%nat then ret (cache, curve)
      else recompute
  | None => recompute
  end.

(** [lengths[lengths.length - 1]] *)
Definition lastItem (a : NumArray) : option num :=
  index (items a) (Z.of_nat (length (items a)) - 1).

Definition getCurveLength (curve : BezierCurve) : Alloc (option num * BezierCurve) :=
  '(lengths, curve') <- getCurveLengths curve curveResolution ;;
  ret (lastItem lengths, curve').

(** ** Cumulative lengths of an arc *)

(** The body of [for (let i = 0, l = curvePath.curves.length; i < l; i++)]
    over the remaining curves, with the loop variable [sums]; the curves
    come back with their caches filled. *)
Fixpoint pathLoop (cs : list BezierCurve) (sums : num)
  : Alloc (list num * list BezierCurve) :=
  match cs with
  | [] => ret ([], [])
  | curve :: cs' =>
      '(len, curve') <- getCurveLength curve ;;
      let sums' := sums + to_number len in
      '(lengths, cs'') <- pathLoop cs' sums' ;;
      ret (sums' :: lengths, curve' :: cs'')
  end.

Definition getCurvePathLengths (curvePath : Arc) : Alloc (NumArray * Arc) :=
  let recompute :=
    id <- fresh ;;
    '(lengths, cs) <- pathLoop (curves curvePath) 0 ;;
    let cache := mkArray id lengths in
    ret (cache, mkArc cs (Some cache)) in
  match cacheLengths curvePath with
  | Some cache =>
      if (length (items cache) =? length (curves curvePath))%nat
      then ret (cache, curvePath)
      else recompute
  | None => recompute
  end.

Definition getCurvePathLength (curvePath : Arc) : Alloc (option num * Arc) :=
  '(lengths, curvePath') <- getCurvePathLengths curvePath ;;
  ret (lastItem lengths, curvePath').

(** ** Inverse arc-length mapping *)

(** The [while (low <= high)] loop; the result is [high] at the exit.
    [Math.floor(low + (high - low) / 2)] on integers is the floored
    quotient of [Z].  Each turn narrows [low..high], so [fuel] turns are
    enough when [fuel] is the number of entries. *)
Fixpoint searchLoop (fuel : nat) (arcLengths : list num) (targetArcLength : num)
    (low high : Z) : Z :=
  match fuel with
  | O => high
  | S fuel' =>
      if (low <=? high)%Z then
        let i := (low + (high - low) / 2)%Z in
        let comparison := to_number (index arcLengths i) - targetArcLength in
        if comparison <? 0 then
          searchLoop fuel' arcLengths targetArcLength (i + 1)%Z high
        else if 0 <? comparison then
          searchLoop fuel' arcLengths targetArcLength low (i - 1)%Z
        else i
      else high
  end.

(** [targetArcLength] as the first [if] of [getCurveUtoTMapping] sets it. *)
Definition targetOf (arcLengths : list num) (u : num) (distance : option num) : num :=
  let il := Z.of_nat (length arcLengths) in
  if truthy distance then to_number distance
  else u * to_number (index arcLengths (il - 1)).

(** [getCurveUtoTMapping] from the table on: the search, the test for an
    exact hit and the interpolation. *)
Definition mapUtoT (arcLengths : list num) (targetArcLength : num) : num :=
  let il := Z.of_nat (length arcLengths) in
  let i := searchLoop (length arcLengths) arcLengths targetArcLength 0 (il - 1) in
  let exact :=
    match index arcLengths i with
    | Some x => x === targetArcLength
    | None => false
    end in
  if exact then num_of_Z i / num_of_Z (il - 1)
  else
    let lengthBefore := to_number (index arcLengths i) in
    let lengthAfter := to_number (index arcLengths (i + 1)) in
    let segmentLength := lengthAfter - lengthBefore in
    let segmentFraction := (targetArcLength - lengthBefore) / segmentLength in
    (num_of_Z i + segmentFraction) / num_of_Z (il - 1).

Definition getCurveUtoTMapping (curve : BezierCurve) (u : num) (distance : option num)
  : Alloc (num * BezierCurve) :=
  '(arcLengths, curve') <- getCurveLengths curve curveResolution ;;
  ret (mapUtoT (items arcLengths) (targetOf (items arcLengths) u distance), curve').

(** ** Constellations *)

(** The body of [for (const point of pts)], on the pair of the output
    [points] and the variable [last]. *)
Definition pushPoint (st : list Vec3 * option Vec3) (point : Vec3)
  : list Vec3 * option Vec3 :=
  let (points, last) := st in
  match last with
  | Some l => if equals l point then st else (points ++ [point], Some point)
  | None => (points ++ [point], Some point)
  end.

Definition arcToConstellation (curvePath : Arc) (divisions : nat) : list Vec3 :=
  fst (fold_left
         (fun st curve => fold_left pushPoint (getPointsOnCurve curve divisions) st)
         (curves curvePath) ([], None)).

(** ** Constellations never repeat a point consecutively *)

(** The loop invariant of [arcToConstellation]: [last] is the final
    element of [points], and no two neighbours of [points] are [equals]. *)
Definition lastPushed (points : list Vec3) : option Vec3 :=
  nth_error points (pred (length points)).

Definition neighboursDiffer (points : list Vec3) : Prop :=
  forall i p q,
    nth_error points i = Some p ->
    nth_error points (S i) = Some q ->
    equals p q = false.

Definition pushInvariant (st : list Vec3 * option Vec3) : Prop :=
  snd st = lastPushed (fst st) /\ neighboursDiffer (fst st).

Lemma lastPushed_snoc (points : list Vec3) (p : Vec3) :
  lastPushed (points ++ [p]) = Some p.
Proof.
  unfold lastPushed. rewrite length_app. simpl.
  replace (pred (length points + 1)) with (length points) by lia.
  rewrite nth_error_app2 by lia. now rewrite Nat.sub_diag.
Qed.

Lemma lastPushed_None (points : list Vec3) :
  lastPushed points = None -> points = [].
Proof.
  unfold lastPushed. destruct points as [|a l]; [reflexivity|].
  intros E. apply nth_error_None in E. simpl in E. lia.
Qed.

Lemma neighboursDiffer_snoc (points : list Vec3) (l p : Vec3) :
  neighboursDiffer points ->
  lastPushed points = Some l ->
  equals l p = false ->
  neighboursDiffer (points ++ [p]).
Proof.
  intros Hn Hl He i a b Ha Hb.
  assert (Hi : S i < length (points ++ [p])) by (apply nth_error_Some; congruence).
  rewrite length_app in Hi. simpl in Hi.
  destruct (Nat.eq_dec (S i) (length points)) as [E|E].
  - rewrite nth_error_app2 in Hb by lia.
    rewrite E, Nat.sub_diag in Hb. simpl in Hb.
    rewrite nth_error_app1 in Ha by lia.
    unfold lastPushed in Hl. rewrite <- E in Hl. simpl in Hl.
    congruence.
  - rewrite nth_error_app1 in Ha by lia.
    rewrite nth_error_app1 in Hb by lia.
    exact (Hn i a b Ha Hb).
Qed.

Lemma pushPoint_invariant (st : list Vec3 * option Vec3) (point : Vec3) :
  pushInvariant st -> pushInvariant (pushPoint st point).
Proof.
  destruct st as [pts last]. unfold pushInvariant, pushPoint. simpl.
  intros [Hl Hn]. destruct last as [l|].
  - destruct (equals l point) eqn:E; simpl.
    + now split.
    + split; [now rewrite lastPushed_snoc|].
      now apply neighboursDiffer_snoc with (l := l).
  - symmetry in Hl. apply lastPushed_None in Hl. subst pts. simpl. split.
    + reflexivity.
    + intros [|i] a b Ha Hb; simpl in Hb; [discriminate|].
      now destruct i.
Qed.

Lemma fold_pushPoint_invariant (pts : list Vec3) (st : list Vec3 * option Vec3) :
  pushInvariant st -> pushInvariant (fold_left pushPoint pts st).
Proof.
  revert st. induction pts as [|p pts IH]; intros st Hst; simpl.
  - exact Hst.
  - apply IH. now apply pushPoint_invariant.
Qed.

Lemma fold_curves_invariant (divisions : nat) (cs : list BezierCurve)
    (st : list Vec3 * option Vec3) :
  pushInvariant st ->
  pushInvariant
    (fold_left
       (fun st curve => fold_left pushPoint (getPointsOnCurve curve divisions) st)
       cs st).
Proof.
  revert st. induction cs as [|c cs IH]; intros st Hst; cbn [fold_left].
  - exact Hst.
  - apply IH. now apply fold_pushPoint_invariant.
Qed.


(** C10: a path without curves has the empty constellation, whatever the
    number of divisions and whatever its cache holds. *)
Theorem arcToConstellation_no_curves
    (cache : option NumArray) (divisions : nat) :
  arcToConstellation (mkArc [] cache) divisions = [].
Proof. reflexivity. Qed.

(** ** The cache of a curve holds one table *)

Lemma length_lengthsLoop (curve : BezierCurve) (divisions : nat) (ps : list nat)
    (last : Vec3) (sum : num) :
  length (lengthsLoop curve divisions ps last sum) = length ps.
Proof.
  revert last sum. induction ps as [|p ps IH]; intros last sum; simpl.
  - reflexivity.
  - now rewrite IH.
Qed.

Lemma length_computeCurveLengths (curve : BezierCurve) (divisions : nat) :
  length (computeCurveLengths curve divisions) = (divisions + 1)%nat.
Proof.
  unfold computeCurveLengths. simpl.
  rewrite length_lengthsLoop, length_seq. lia.
Qed.

(** A run of calls of [getCurveLengths] on one curve, one call per entry
    of [ds]; the arrays returned come back in order. *)
Fixpoint getCurveLengthsEach (ds : list nat) (curve : BezierCurve)
  : Alloc (list NumArray * BezierCurve) :=
  match ds with
  | [] => ret ([], curve)
  | d :: ds' =>
      '(a, curve') <- getCurveLengths curve d ;;
      '(rest, curve'') <- getCurveLengthsEach ds' curve' ;;
      ret (a :: rest, curve'')
  end.

(** After a call at [divisions] the cache answers a call at [divisions]. *)
Lemma getCurveLengths_cached (curve : BezierCurve) (divisions n : nat) :
  let '(a, curve', n') := getCurveLengths curve divisions n in
  getCurveLengths curve' divisions n' = (a, curve', n').
Proof.
  unfold getCurveLengths.
  destruct (cacheArcLengths curve) as [cache|] eqn:Ec.
  - destruct (length (items cache) =? divisions + 1)%nat eqn:El.
    + unfold ret. now rewrite Ec, El.
    + cbv [bind fresh ret]. cbn [cacheArcLengths items].
      now rewrite length_computeCurveLengths, Nat.eqb_refl.
  - cbv [bind fresh ret]. cbn [cacheArcLengths items].
    now rewrite length_computeCurveLengths, Nat.eqb_refl.
Qed.

Lemma getCurveLengthsEach_cached (curve : BezierCurve) (divisions k n : nat) :
  let '(a, curve', n') := getCurveLengths curve divisions n in
  getCurveLengthsEach (repeat divisions k) curve' n' = (repeat a k, curve', n').
Proof.
  pose proof (getCurveLengths_cached curve divisions n) as Hc.
  destruct (getCurveLengths curve divisions n) as [[a curve'] n'].
  induction k as [|k IH]; cbn [repeat getCurveLengthsEach].
  - reflexivity.
  - unfold bind at 1. rewrite Hc.
    unfold bind at 1. rewrite IH. reflexivity.
Qed.

(** C5, as the code has it: once [getCurveLengths] has run at [divisions],
    every further call at [divisions] that follows with no call at another
    count in between returns the very array of the first call, allocates
    nothing and leaves the curve as it is; at the default resolution the
    same holds of [getCurveLength] and [getCurveUtoTMapping], which work
    on the cached array. *)
Theorem getCurveLengths_cache_reused
    (curve : BezierCurve) (divisions k n : nat) (u : num) (distance : option num) :
  (let '(a, curve', n') := getCurveLengths curve divisions n in
   getCurveLengthsEach (repeat divisions k) curve' n' = (repeat a k, curve', n'))
  /\
  (let '(a, curve', n') := getCurveLengths curve curveResolution n in
   getCurveLength curve' n' = (lastItem a, curve', n') /\
   getCurveUtoTMapping curve' u distance n'
   = (mapUtoT (items a) (targetOf (items a) u distance), curve', n')).
Proof.
  split.
  - apply getCurveLengthsEach_cached.
  - pose proof (getCurveLengths_cached curve curveResolution n) as Hc.
    destruct (getCurveLengths curve curveResolution n) as [[a curve'] n'].
    unfold getCurveLength, getCurveUtoTMapping, bind.
    rewrite Hc. split; reflexivity.
Qed.

(** ** The search of [getCurveUtoTMapping]

    What the [while] loop guarantees about the index it leaves in [high],
    whatever the table holds: either it stopped on an entry that compared
    neither below nor above the target, or it ran until [low > high], and
    then the entry at [high] compared below and the entry at [high + 1]
    above, where these exist inside the searched range. *)

Definition below (target : num) (entry : option num) : bool :=
  to_number entry - target <? 0.

Definition above (target : num) (entry : option num) : bool :=
  0 <? to_number entry - target.

Inductive SearchExit (arcLengths : list num) (target : num) (low high i : Z) : Prop :=
  | StoppedOn :
      (low <= i <= high)%Z ->
      below target (index arcLengths i) = false ->
      above target (index arcLengths i) = false ->
      SearchExit arcLengths target low high i
  | RanOut :
      (low - 1 <= i <= high)%Z ->
      (i = high \/
       (below target (index arcLengths (i + 1)) = false /\
        above target (index arcLengths (i + 1)) = true)) ->
      (i = (low - 1)%Z \/ below target (index arcLengths i) = true) ->
      SearchExit arcLengths target low high i.

Lemma midpoint_bounds (low high : Z) :
  (low <= high)%Z -> (low <= low + (high - low) / 2 <= high)%Z.
Proof.
  intros Hle.
  assert (0 <= (high - low) / 2)%Z by (apply Z.div_pos; lia).
  assert ((high - low) / 2 <= high - low)%Z
    by (apply Z.div_le_upper_bound; lia).
  lia.
Qed.

Lemma searchLoop_exit (arcLengths : list num) (target : num) :
  forall (fuel : nat) (low high : Z),
    (low <= high + 1)%Z ->
    (high - low + 1 <= Z.of_nat fuel)%Z ->
    SearchExit arcLengths target low high
      (searchLoop fuel arcLengths target low high).
Proof.
  induction fuel as [|fuel IH]; intros low high Hinv Hfuel.
  - cbn [searchLoop]. apply RanOut; [lia | now left | left; lia].
  - cbn [searchLoop]. destruct (low <=? high)%Z eqn:Hcmp.
    + apply Z.leb_le in Hcmp.
      pose proof (midpoint_bounds Hcmp) as Hmid.
      set (i := (low + (high - low) / 2)%Z) in *.
      fold (below target (index arcLengths i)).
      fold (above target (index arcLengths i)).
      destruct (below target (index arcLengths i)) eqn:Hb.
      * destruct (IH (i + 1)%Z high) as [Hj1 Hj2 Hj3 | Hr Hup Hdown]; try lia.
        -- apply StoppedOn; [lia | assumption | assumption].
        -- apply RanOut; [lia | assumption |].
           right. destruct Hdown as [-> | Hd]; [|assumption].
           now replace (i + 1 - 1)%Z with i by lia.
      * destruct (above target (index arcLengths i)) eqn:Ha.
        -- destruct (IH low (i - 1)%Z) as [Hj1 Hj2 Hj3 | Hr Hup Hdown]; try lia.
           ++ apply StoppedOn; [lia | assumption | assumption].
           ++ apply RanOut; [lia | | assumption].
              right. destruct Hup as [-> | Hu]; [|assumption].
              now replace (i - 1 + 1)%Z with i by lia.
        -- apply StoppedOn; [lia | assumption | assumption].
    + apply Z.leb_gt in Hcmp.
      apply RanOut; [lia | now left | left; lia].
Qed.

(** The loop stops within [fuel] turns: more fuel changes nothing. *)
Lemma searchLoop_fuel (arcLengths : list num) (target : num) :
  forall (fuel extra : nat) (low high : Z),
    (high - low + 1 <= Z.of_nat fuel)%Z ->
    searchLoop (fuel + extra) arcLengths target low high
    = searchLoop fuel arcLengths target low high.
Proof.
  induction fuel as [|fuel IH]; intros extra low high Hfuel.
  - destruct extra as [|extra]; [reflexivity|].
    cbn [Nat.add searchLoop].
    destruct (low <=? high)%Z eqn:Hcmp; [|reflexivity].
    apply Z.leb_le in Hcmp. simpl in Hfuel. lia.
  - cbn [Nat.add searchLoop].
    destruct (low <=? high)%Z eqn:Hcmp; [|reflexivity].
    apply Z.leb_le in Hcmp.
    pose proof (midpoint_bounds Hcmp) as Hmid.
    destruct (_ <? 0); [apply IH; lia|].
    destruct (0 <? _); [apply IH; lia|reflexivity].
Qed.

(** A sequence of numbers is non-decreasing when each entry is [<=] the
    entry after it. *)
Definition nonDecreasing (l : list num) : Prop :=
  forall i x y,
    nth_error l i = Some x ->
    nth_error l (S i) = Some y ->
    (x <=? y) = true.

(** ** Indices in range *)

Lemma index_in_range (A : list num) (i : Z) :
  (0 <= i < Z.of_nat (length A))%Z -> exists v, index A i = Some v.
Proof.
  intros Hi. unfold index.
  destruct (i <? 0)%Z eqn:E; [apply Z.ltb_lt in E; lia|].
  destruct (nth_error A (Z.to_nat i)) as [v|] eqn:Ev; [now exists v|].
  apply nth_error_None in Ev. lia.
Qed.

Lemma index_Some_range (A : list num) (i : Z) (v : num) :
  index A i = Some v -> (0 <= i < Z.of_nat (length A))%Z.
Proof.
  unfold index. destruct (i <? 0)%Z eqn:E; [discriminate|].
  apply Z.ltb_ge in E. intros Hn.
  assert (Z.to_nat i < length A)%nat by (apply nth_error_Some; congruence).
  lia.
Qed.

(** ** Polylines

    The length of the polyline through a sequence of points, as the
    specification words it: the straight-line distances between
    consecutive points, added up from the first segment on. *)




Lemma last_cons {A} (l : list A) :
  forall x d : A, List.last (x :: l) d = List.last l x.
Proof.
  induction l as [|a l IH]; intros x d.
  - reflexivity.
  - change (List.last (x :: a :: l) d) with (List.last (a :: l) d).
    now rewrite !IH.
Qed.



Lemma lastItem_last (a : NumArray) :
  items a <> [] -> lastItem a = Some (List.last (items a) 0).
Proof.
  unfold lastItem, index. intros Hne.
  destruct (items a) as [|x l] eqn:E; [congruence|].
  assert (Hlen : (Z.of_nat (length (x :: l)) - 1 <? 0)%Z = false).
  { apply Z.ltb_ge. simpl length. lia. }
  rewrite Hlen.
  replace (Z.to_nat (Z.of_nat (length (x :: l)) - 1)) with (length l)
    by (simpl length; lia).
  clear. revert x. induction l as [|y l IH]; intros x.
  - reflexivity.
  - cbn [length nth_error]. rewrite IH. now rewrite !last_cons.
Qed.

Lemma lastItem_nth (a : NumArray) :
  items a <> [] -> lastItem a = nth_error (items a) (length (items a) - 1)%nat.
Proof.
  unfold lastItem, index. intros Hne.
  destruct (items a) as [|x l]; [congruence|].
  assert (Hlen : (Z.of_nat (length (x :: l)) - 1 <? 0)%Z = false)
    by (apply Z.ltb_ge; simpl length; lia).
  rewrite Hlen. f_equal. lia.
Qed.

(** The table depends on the control points only. *)
Lemma getPointOnCurve_points (c c' : BezierCurve) (t : num) :
  points c = points c' -> getPointOnCurve c t = getPointOnCurve c' t.
Proof. intros E. unfold getPointOnCurve. now rewrite E. Qed.

Lemma lengthsLoop_points (c c' : BezierCurve) (divisions : nat) :
  points c = points c' ->
  forall (ps : list nat) (lastp : Vec3) (sum : num),
    lengthsLoop c divisions ps lastp sum = lengthsLoop c' divisions ps lastp sum.
Proof.
  intros E. induction ps as [|p ps IH]; intros lastp sum; cbn [lengthsLoop].
  - reflexivity.
  - rewrite (getPointOnCurve_points c c' _ E). f_equal. apply IH.
Qed.

Lemma computeCurveLengths_points (c c' : BezierCurve) (divisions : nat) :
  points c = points c' ->
  computeCurveLengths c divisions = computeCurveLengths c' divisions.
Proof.
  intros E. unfold computeCurveLengths.
  now rewrite (getPointOnCurve_points c c' _ E), (lengthsLoop_points c c' _ E).
Qed.

(** A cache is valid when it holds a table that [getCurveLengths] built
    for the control points the curve has now: the curve is unmodified. *)
Definition cacheValid (curve : BezierCurve) : Prop :=
  forall a, cacheArcLengths curve = Some a ->
            exists d, items a = computeCurveLengths curve d.

Lemma newCurve_cacheValid (p0 p1 p2 : Vec3) : cacheValid (newCurve p0 p1 p2).
Proof. intros a E. discriminate. Qed.

(** With a valid cache [getCurveLengths] returns the table for the count
    asked for, cached or rebuilt, and leaves a valid cache. *)
Lemma getCurveLengths_items (curve : BezierCurve) (divisions n : nat) :
  cacheValid curve ->
  let '(a, curve', n') := getCurveLengths curve divisions n in
  items a = computeCurveLengths curve divisions /\
  points curve' = points curve /\ cacheValid curve'.
Proof.
  intros Hv. unfold getCurveLengths.
  assert (Hre : forall id,
             cacheValid (mkCurve (points curve)
                           (Some (mkArray id (computeCurveLengths curve divisions))))).
  { intros id a E. injection E as <-. exists divisions. cbn [items].
    now apply computeCurveLengths_points. }
  destruct (cacheArcLengths curve) as [cache|] eqn:Ec.
  - destruct (length (items cache) =? divisions + 1)%nat eqn:El.
    + cbv [ret]. destruct (Hv cache Ec) as [d Hd].
      apply Nat.eqb_eq in El.
      rewrite Hd, length_computeCurveLengths in El.
      assert (d = divisions) by lia. subst d. now repeat split.
    + cbv [bind fresh ret]. cbn [items points]. repeat split. apply Hre.
  - cbv [bind fresh ret]. cbn [items points]. repeat split. apply Hre.
Qed.

(** With a valid cache [getCurveUtoTMapping] works on the table for the
    default resolution. *)
Lemma getCurveUtoTMapping_table
    (curve : BezierCurve) (u : num) (distance : option num) (n : nat) :
  cacheValid curve ->
  fst (fst (getCurveUtoTMapping curve u distance n))
  = mapUtoT (computeCurveLengths curve curveResolution)
      (targetOf (computeCurveLengths curve curveResolution) u distance).
Proof.
  intros Hv. unfold getCurveUtoTMapping, bind.
  pose proof (getCurveLengths_items curveResolution n Hv) as Hit.
  destruct (getCurveLengths curve curveResolution n) as [[a curve'] n'].
  destruct Hit as (Hit & _ & _). cbv [ret]. cbn [fst].
  now rewrite Hit.
Qed.

End Geometry.

Unset Implicit Arguments.

(** * Facts about IEEE-754 doubles

    Derived from the specification of the primitive operations
    ([FloatAxioms]) over [SpecFloat]. *)

Module DoubleFacts.

Local Open Scope Z_scope.

Definition SFfinite (s : spec_float) : bool :=
  match s with
  | S754_zero _ | S754_finite _ _ _ => true
  | _ => false
  end.

Lemma is_finite_SF (x : float) :
  is_finite x = true -> SFfinite (Prim2SF x) = true.
Proof.
  unfold is_finite, is_nan, is_infinity.
  rewrite !eqb_spec, abs_spec.
  change (Prim2SF infinity) with (S754_infinity false).
  destruct (Prim2SF x) as [s|s| |s m e]; cbn; try reflexivity.
  - destruct s; discriminate.
  - discriminate.
Qed.

Lemma iter_pos_nat {A : Type} (f : A -> A) (p : positive) :
  forall x, SpecFloat.iter_pos f p x = Nat.iter (Pos.to_nat p) f x.
Proof.
  induction p as [p IH|p IH|]; intros x; cbn [SpecFloat.iter_pos].
  - rewrite !IH, Pos2Nat.inj_xI.
    replace (S (2 * Pos.to_nat p))%nat with (Pos.to_nat p + S (Pos.to_nat p))%nat by lia.
    rewrite Nat.iter_add, Nat.iter_succ. now rewrite Nat.iter_swap.
  - rewrite !IH, Pos2Nat.inj_xO.
    replace (2 * Pos.to_nat p)%nat with (Pos.to_nat p + Pos.to_nat p)%nat by lia.
    now rewrite Nat.iter_add.
  - reflexivity.
Qed.

Lemma digits2_pos_iter_xO (k : nat) (m : positive) :
  Zpos (digits2_pos (Nat.iter k xO m)) = Zpos (digits2_pos m) + Z.of_nat k.
Proof.
  induction k as [|k IH].
  - cbn. lia.
  - rewrite Nat.iter_succ. cbn [digits2_pos]. rewrite Pos2Z.inj_succ, IH. lia.
Qed.

Lemma pos_iter_nat (k : positive) (m : positive) :
  Pos.iter xO m k = Nat.iter (Pos.to_nat k) xO m.
Proof.
  revert m. induction k using Pos.peano_ind; intros m.
  - reflexivity.
  - rewrite Pos.iter_succ, Pos2Nat.inj_succ, Nat.iter_succ. now rewrite IHk.
Qed.

(** Shifting right what was shifted left gives the mantissa back, with
    nothing lost. *)
Lemma iter_shr_1_xO (k : nat) (m : positive) :
  Nat.iter k shr_1 (Build_shr_record (Zpos (Nat.iter k xO m)) false false)
  = Build_shr_record (Zpos m) false false.
Proof.
  induction k as [|k IH].
  - reflexivity.
  - rewrite Nat.iter_succ, <- Nat.iter_swap, Nat.iter_succ.
    cbn [shr_1 orb]. exact IH.
Qed.

Lemma canonical_fexp (m : positive) (e : Z) :
  canonical_mantissa prec emax m e = true ->
  fexp prec emax (Zpos (digits2_pos m) + e) = e.
Proof. unfold canonical_mantissa. apply Z.eqb_eq. Qed.

(** Rounding a canonical mantissa that was shifted left by [k] bits gives
    the canonical number back. *)
Lemma binary_round_aux_shifted (s : bool) (m : positive) (e : Z) (k : nat) :
  canonical_mantissa prec emax m e = true ->
  e <= emax - prec ->
  binary_round_aux prec emax s (Zpos (Nat.iter k xO m)) (e - Z.of_nat k) loc_Exact
  = S754_finite s m e.
Proof.
  intros Hc He. pose proof (canonical_fexp m e Hc) as Hf.
  unfold binary_round_aux, shr_fexp. cbn [Zdigits2 shr_record_of_loc].
  rewrite digits2_pos_iter_xO.
  replace (Zpos (digits2_pos m) + Z.of_nat k + (e - Z.of_nat k))
    with (Zpos (digits2_pos m) + e) by lia.
  rewrite Hf.
  replace (e - (e - Z.of_nat k)) with (Z.of_nat k) by lia.
  assert (Hshr : shr {| shr_m := Zpos (Nat.iter k xO m); shr_r := false; shr_s := false |}
                   (e - Z.of_nat k) (Z.of_nat k)
                 = ({| shr_m := Zpos m; shr_r := false; shr_s := false |}, e)).
  { destruct k as [|k].
    - cbn. f_equal. lia.
    - unfold shr. cbn [Z.of_nat]. rewrite iter_pos_nat, SuccNat2Pos.id_succ.
      rewrite iter_shr_1_xO. f_equal. lia. }
  rewrite Hshr. cbn [shr_m loc_of_shr_record round_nearest_even Zdigits2 shr_record_of_loc].
  rewrite Hf, Z.sub_diag. cbn [shr shr_m].
  destruct (e <=? emax - prec) eqn:E; [reflexivity|].
  apply Z.leb_gt in E. lia.
Qed.

Lemma valid_finite (x : float) (s : bool) (m : positive) (e : Z) :
  Prim2SF x = S754_finite s m e ->
  canonical_mantissa prec emax m e = true /\ e <= emax - prec.
Proof.
  intros E. pose proof (Prim2SF_valid x) as Hv. rewrite E in Hv.
  cbn [SpecFloat.valid_binary] in Hv. unfold SpecFloat.bounded in Hv.
  apply andb_true_iff in Hv. destruct Hv as [Hc He].
  split; [assumption | now apply Z.leb_le].
Qed.

Lemma SFeqb_refl (x : spec_float) : SFfinite x = true -> SFeqb x x = true.
Proof.
  destruct x as [s|s| |s m e]; try discriminate; intros _.
  - reflexivity.
  - unfold SFeqb, SFcompare.
    rewrite Z.compare_refl, Pos.compare_cont_refl. now destruct s.
Qed.

(** [1 * x] is [x] for a finite [x]. *)
Lemma mul_1_l (x : float) : is_finite x = true -> (1 * x)%float = x.
Proof.
  intros Hx. apply is_finite_SF in Hx. apply Prim2SF_inj.
  rewrite mul_spec. change (Prim2SF 1) with (S754_finite false 4503599627370496 (-52)).
  destruct (Prim2SF x) as [s|s| |s m e] eqn:E; try discriminate.
  - reflexivity.
  - destruct (valid_finite x s m e E) as [Hc He].
    unfold SF64mul, SFmul. cbn [xorb].
    change (4503599627370496 * m)%positive with (Nat.iter 52 xO m).
    replace (-52 + e) with (e - Z.of_nat 52) by lia.
    now apply binary_round_aux_shifted.
Qed.

Definition SFzero (x : spec_float) : bool :=
  match x with
  | S754_zero _ => true
  | _ => false
  end.

Lemma mul_0_l (x : float) :
  is_finite x = true -> SFzero (Prim2SF (0 * x)%float) = true.
Proof.
  intros Hx. apply is_finite_SF in Hx. rewrite mul_spec.
  change (Prim2SF 0) with (S754_zero false).
  now destruct (Prim2SF x).
Qed.

(** Adding zeros to a finite number leaves a number [===] to it. *)
Lemma add_zeros_r (a z1 z2 : float) :
  is_finite a = true ->
  SFzero (Prim2SF z1) = true -> SFzero (Prim2SF z2) = true ->
  (a + z1 + z2 =? a)%float = true.
Proof.
  intros Ha H1 H2. apply is_finite_SF in Ha.
  rewrite eqb_spec, !add_spec.
  destruct (Prim2SF z1) as [s1| | |]; try discriminate.
  destruct (Prim2SF z2) as [s2| | |]; try discriminate.
  destruct (Prim2SF a) as [s|s| |s m e]; try discriminate.
  - now destruct s, s1, s2.
  - cbn. now apply (SFeqb_refl (S754_finite s m e)).
Qed.

Lemma add_zeros_l (z1 z2 c : float) :
  SFzero (Prim2SF z1) = true -> SFzero (Prim2SF z2) = true ->
  is_finite c = true ->
  (z1 + z2 + c =? c)%float = true.
Proof.
  intros H1 H2 Hc. apply is_finite_SF in Hc.
  rewrite eqb_spec, !add_spec.
  destruct (Prim2SF z1) as [s1| | |]; try discriminate.
  destruct (Prim2SF z2) as [s2| | |]; try discriminate.
  destruct (Prim2SF c) as [s|s| |s m e]; try discriminate.
  - now destruct s, s1, s2.
  - assert (E : SF64add (SF64add (S754_zero s1) (S754_zero s2)) (S754_finite s m e)
                = S754_finite s m e) by now destruct s1, s2.
    rewrite E. now apply (SFeqb_refl (S754_finite s m e)).
Qed.

(** The Bezier formula at the ends of the parameter range. *)
Lemma QuadraticBezier_start (a b c : float) :
  is_finite a = true -> is_finite b = true -> is_finite c = true ->
  num_eqb (QuadraticBezier (num_of_Z 0) a b c) a = true.
Proof.
  intros Ha Hb Hc.
  change (QuadraticBezier (num_of_Z 0) a b c) with (1 * a + 0 * b + 0 * c)%float.
  cbn [num_eqb JSNumber]. rewrite mul_1_l by assumption.
  apply add_zeros_r; [assumption | now apply mul_0_l ..].
Qed.

Lemma QuadraticBezier_end (a b c : float) :
  is_finite a = true -> is_finite b = true -> is_finite c = true ->
  num_eqb (QuadraticBezier (num_of_Z 1) a b c) c = true.
Proof.
  intros Ha Hb Hc.
  change (QuadraticBezier (num_of_Z 1) a b c) with (0 * a + 0 * b + 1 * c)%float.
  cbn [num_eqb JSNumber]. rewrite mul_1_l by assumption.
  apply add_zeros_l; [now apply mul_0_l .. | assumption].
Qed.

(** ** Counters as doubles *)

Lemma digits2_pos_bound (p : positive) :
  Zpos p < 2 ^ Zpos (digits2_pos p).
Proof.
  induction p as [p IH|p IH|]; cbn [digits2_pos].
  - rewrite Pos2Z.inj_succ, Z.pow_succ_r by lia. lia.
  - rewrite Pos2Z.inj_succ, Z.pow_succ_r by lia. lia.
  - reflexivity.
Qed.

Lemma digits2_pos_le (p : positive) (n : Z) :
  0 <= n -> Zpos p < 2 ^ n -> Zpos (digits2_pos p) <= n.
Proof.
  revert n. induction p as [p IH|p IH|]; intros n Hn Hp; cbn [digits2_pos].
  - assert (0 < n) by (destruct (Z.eq_dec n 0) as [->|]; [cbn in Hp; lia | lia]).
    rewrite Pos2Z.inj_succ.
    replace n with (Z.succ (n - 1)) in Hp by lia.
    rewrite Z.pow_succ_r in Hp by lia.
    specialize (IH (n - 1) ltac:(lia) ltac:(lia)). lia.
  - assert (0 < n) by (destruct (Z.eq_dec n 0) as [->|]; [cbn in Hp; lia | lia]).
    rewrite Pos2Z.inj_succ.
    replace n with (Z.succ (n - 1)) in Hp by lia.
    rewrite Z.pow_succ_r in Hp by lia.
    specialize (IH (n - 1) ltac:(lia) ltac:(lia)). lia.
  - assert (0 < n) by (destruct (Z.eq_dec n 0) as [->|]; [cbn in Hp; lia | lia]).
    lia.
Qed.

(** A positive integer below [2^53] is a positive finite double. *)
Lemma binary_normalize_small (p : positive) :
  Zpos p < 2 ^ 53 ->
  exists m e, binary_normalize prec emax (Zpos p) 0 false = S754_finite false m e.
Proof.
  intros Hp. pose proof (digits2_pos_le p 53 ltac:(lia) Hp) as Hd.
  cbn [binary_normalize]. unfold binary_round, shl_align.
  assert (Hf : fexp prec emax (Zpos (digits2_pos p) + 0) = Zpos (digits2_pos p) - 53).
  { unfold fexp, emin, prec, emax. lia. }
  rewrite Hf, Z.sub_0_r.
  destruct (Zpos (digits2_pos p) - 53) as [|q|q] eqn:E; try lia.
  - exists p, 0. apply (binary_round_aux_shifted false p 0 0).
    + unfold canonical_mantissa. apply Z.eqb_eq. rewrite Hf. lia.
    + unfold prec, emax. lia.
  - exists (Pos.iter xO p q), (Z.neg q).
    apply (binary_round_aux_shifted false (Pos.iter xO p q) (Z.neg q) 0).
    + unfold canonical_mantissa. apply Z.eqb_eq.
      rewrite pos_iter_nat, digits2_pos_iter_xO.
      unfold fexp, emin, prec, emax. lia.
    + unfold prec, emax. lia.
Qed.

Lemma float_of_Z_small (z : Z) :
  0 < z < 2 ^ 53 ->
  exists m e, Prim2SF (float_of_Z z) = S754_finite false m e.
Proof.
  intros Hz. destruct z as [|p|p]; try lia.
  unfold float_of_Z. rewrite of_uint63_spec, Uint63.of_Z_spec.
  rewrite Z.mod_small.
  - apply binary_normalize_small. lia.
  - change Uint63.wB with (2 ^ 63). lia.
Qed.

(** [0 / d] is [0] and [d / d] is [1] for a counter [d >= 1]. *)
Lemma zero_div_counter (d : Z) :
  0 < d < 2 ^ 53 -> (0 / float_of_Z d)%float = 0%float.
Proof.
  intros Hd. destruct (float_of_Z_small d Hd) as (m & e & E).
  apply Prim2SF_inj. rewrite div_spec, E. reflexivity.
Qed.

Lemma counter_div_self (d : Z) :
  0 < d < 2 ^ 53 -> (float_of_Z d / float_of_Z d)%float = 1%float.
Proof.
  intros Hd. destruct (float_of_Z_small d Hd) as (m & e & E).
  apply Prim2SF_inj. rewrite div_spec, E.
  unfold SF64div, SFdiv, SFdiv_core_binary. cbn [xorb Zdigits2].
  replace (Zpos (digits2_pos m) + e - (Zpos (digits2_pos m) + e)) with 0 by lia.
  rewrite Z.sub_diag.
  change (Z.min (fexp prec emax 0) 0) with (-53).
  change (0 - -53) with 53.
  rewrite Z.shiftl_mul_pow2 by lia.
  replace (Z.div_eucl (Zpos m * 2 ^ 53) (Zpos m)) with (2 ^ 53, 0).
  - assert (Hl : new_location (Zpos m) 0 = loc_Exact).
    { unfold new_location, new_location_even, new_location_odd.
      now destruct (Z.even (Zpos m)). }
    rewrite Hl. reflexivity.
  - assert (Hq : Zpos m * 2 ^ 53 / Zpos m = 2 ^ 53)
      by (rewrite Z.mul_comm; apply Z.div_mul; lia).
    assert (Hr : (Zpos m * 2 ^ 53) mod Zpos m = 0)
      by (rewrite Z.mul_comm; apply Z.mod_mul; lia).
    unfold Z.div, Z.modulo in Hq, Hr.
    destruct (Z.div_eucl (Zpos m * 2 ^ 53) (Zpos m)) as [q r].
    cbn [fst snd] in Hq, Hr. now subst.
Qed.


(** ** Rounding a positive mantissa *)

Lemma shr_1_m (mrs : shr_record) :
  0 <= shr_m mrs -> shr_m (shr_1 mrs) = shr_m mrs / 2.
Proof.
  destruct mrs as [m r s]. cbn [shr_m]. intros Hm.
  destruct m as [|[p|p|]|p]; cbn [shr_1 shr_m]; try lia.
  - reflexivity.
  - rewrite Pos2Z.inj_xI. apply Z.div_unique with (r := 1); lia.
  - rewrite Pos2Z.inj_xO. apply Z.div_unique with (r := 0); lia.
  - reflexivity.
Qed.

Lemma iter_shr_1_m (n : nat) (mrs : shr_record) :
  0 <= shr_m mrs ->
  shr_m (Nat.iter n shr_1 mrs) = shr_m mrs / 2 ^ Z.of_nat n.
Proof.
  intros Hm. induction n as [|n IH].
  - cbn. now rewrite Z.div_1_r.
  - rewrite Nat.iter_succ, shr_1_m.
    + rewrite IH, Nat2Z.inj_succ, Z.pow_succ_r by lia.
      rewrite Z.div_div by lia. f_equal. lia.
    + rewrite IH. apply Z.div_pos; lia.
Qed.

Lemma shr_record_of_loc_m (m : Z) (l : location) :
  shr_m (shr_record_of_loc m l) = m.
Proof. now destruct l as [|[]]. Qed.

(** The exponent [shr_fexp] settles on and the mantissa it leaves. *)
Lemma shr_fexp_spec (m e : Z) (l : location) :
  0 <= m ->
  let e1 := Z.max e (fexp prec emax (Zdigits2 m + e)) in
  snd (shr_fexp prec emax m e l) = e1 /\
  shr_m (fst (shr_fexp prec emax m e l)) = m / 2 ^ (e1 - e).
Proof.
  intros Hm e1. unfold shr_fexp, shr.
  destruct (fexp prec emax (Zdigits2 m + e) - e) as [|n|n] eqn:E; cbn [fst snd].
  - subst e1. rewrite shr_record_of_loc_m. split; [lia|].
    replace (Z.max e (fexp prec emax (Zdigits2 m + e)) - e) with 0 by lia.
    now rewrite Z.div_1_r.
  - subst e1. split; [lia|].
    rewrite iter_pos_nat, iter_shr_1_m by (rewrite shr_record_of_loc_m; lia).
    rewrite shr_record_of_loc_m, positive_nat_Z. f_equal. f_equal. lia.
  - subst e1. rewrite shr_record_of_loc_m. split; [lia|].
    replace (Z.max e (fexp prec emax (Zdigits2 m + e)) - e) with 0 by lia.
    now rewrite Z.div_1_r.
Qed.

Lemma digits2_pos_lower (p : positive) :
  2 ^ (Zpos (digits2_pos p) - 1) <= Zpos p.
Proof.
  induction p as [p IH|p IH|]; cbn [digits2_pos].
  - rewrite Pos2Z.inj_succ.
    replace (Z.succ (Zpos (digits2_pos p)) - 1) with (Z.succ (Zpos (digits2_pos p) - 1)) by lia.
    rewrite Z.pow_succ_r by lia. lia.
  - rewrite Pos2Z.inj_succ.
    replace (Z.succ (Zpos (digits2_pos p)) - 1) with (Z.succ (Zpos (digits2_pos p) - 1)) by lia.
    rewrite Z.pow_succ_r by lia. lia.
  - cbn. lia.
Qed.

(** A positive mantissa stays positive under [shr_fexp] when the exponent
    is not below [emin]. *)
Lemma shr_fexp_pos (m : positive) (e : Z) :
  emin <= e ->
  let e1 := Z.max e (fexp prec emax (Zpos (digits2_pos m) + e)) in
  0 < Zpos m / 2 ^ (e1 - e).
Proof.
  intros He e1.
  pose proof (digits2_pos_lower m) as Hlow.
  assert (Hn : 0 <= e1 - e <= Zpos (digits2_pos m) - 1).
  { subst e1. unfold fexp, emin, prec, emax in *. lia. }
  apply Z.div_str_pos. split; [apply Z.pow_pos_nonneg; lia|].
  apply Z.le_trans with (2 ^ (Zpos (digits2_pos m) - 1)); [|assumption].
  apply Z.pow_le_mono_r; lia.
Qed.

Lemma round_nearest_even_bounds (m : Z) (l : location) :
  m <= round_nearest_even m l <= m + 1.
Proof.
  destruct l as [|[]]; cbn [round_nearest_even]; try lia.
  destruct (Z.even m); lia.
Qed.

(** What [binary_round_aux] returns for a positive mantissa: the mantissa
    is cut at the exponent of its magnitude, moved up by at most one, cut
    again if that added a digit, and is never cut to zero. *)
Lemma binary_round_aux_pos (s : bool) (m : positive) (e : Z) (l : location) :
  emin <= e ->
  let e1 := Z.max e (fexp prec emax (Zpos (digits2_pos m) + e)) in
  let m1 := Zpos m / 2 ^ (e1 - e) in
  exists m2 : positive,
    m1 <= Zpos m2 <= m1 + 1 /\
    let e2 := Z.max e1 (fexp prec emax (Zpos (digits2_pos m2) + e1)) in
    exists m3 : positive,
      Zpos m3 = Zpos m2 / 2 ^ (e2 - e1) /\
      binary_round_aux prec emax s (Zpos m) e l
      = if e2 <=? emax - prec then S754_finite s m3 e2 else S754_infinity s.
Proof.
  intros He e1 m1.
  pose proof (shr_fexp_spec (Zpos m) e l ltac:(lia)) as [Hs1 Hs2].
  pose proof (shr_fexp_pos m e He) as Hpos.
  cbn [Zdigits2] in Hs1, Hs2. fold e1 in Hs1, Hs2, Hpos. fold m1 in Hs2, Hpos.
  unfold binary_round_aux.
  destruct (shr_fexp prec emax (Zpos m) e l) as [mrs e'].
  cbn [fst snd] in Hs1, Hs2. subst e'.
  pose proof (round_nearest_even_bounds (shr_m mrs) (loc_of_shr_record mrs)) as Hr.
  cbv zeta in Hpos.
  destruct (round_nearest_even (shr_m mrs) (loc_of_shr_record mrs)) as [|m2|m2];
    rewrite Hs2 in Hr; try lia.
  exists m2. split; [lia|].
  set (e2 := Z.max e1 (fexp prec emax (Zpos (digits2_pos m2) + e1))).
  assert (He1 : emin <= e1) by (subst e1; lia).
  pose proof (shr_fexp_spec (Zpos m2) e1 loc_Exact ltac:(lia)) as [Ht1 Ht2].
  pose proof (shr_fexp_pos m2 e1 He1) as Hpos2. cbv zeta in Hpos2.
  cbn [Zdigits2] in Ht1, Ht2. fold e2 in Ht1, Ht2, Hpos2.
  destruct (shr_fexp prec emax (Zpos m2) e1 loc_Exact) as [mrs' e''].
  cbn [fst snd] in Ht1, Ht2. subst e''.
  destruct (shr_m mrs') as [|m3|m3]; try lia.
  exists m3. split; [exact Ht2 | reflexivity].
Qed.

Lemma iter_xO_value (k : nat) (m : positive) :
  Zpos (Nat.iter k xO m) = Zpos m * 2 ^ Z.of_nat k.
Proof.
  induction k as [|k IH].
  - cbn. lia.
  - rewrite Nat.iter_succ, Pos2Z.inj_xO, IH, Nat2Z.inj_succ, Z.pow_succ_r by lia.
    lia.
Qed.

(** [shl_align] lowers the exponent to the one asked for, if that is
    lower, and keeps the value. *)
Lemma shl_align_spec (m : positive) (e e' : Z) :
  snd (shl_align m e e') = Z.min e e' /\
  Zpos (fst (shl_align m e e')) = Zpos m * 2 ^ (e - Z.min e e').
Proof.
  unfold shl_align. destruct (e' - e) as [|d|d] eqn:E; cbn [fst snd].
  - split; [lia|]. replace (e - Z.min e e') with 0 by lia. lia.
  - split; [lia|]. replace (e - Z.min e e') with 0 by lia. lia.
  - split; [lia|].
    rewrite pos_iter_nat, iter_xO_value, positive_nat_Z.
    f_equal. f_equal. lia.
Qed.

Lemma canonical_emin (m : positive) (e : Z) :
  canonical_mantissa prec emax m e = true -> emin <= e.
Proof.
  intros Hc. apply canonical_fexp in Hc. unfold fexp in Hc. lia.
Qed.

Lemma fexp_le (a b : Z) : a <= b -> fexp prec emax a <= fexp prec emax b.
Proof. unfold fexp. lia. Qed.

(** The magnitude of a mantissa at least as large is at least as large. *)
Lemma digits_le_of_value (mx mz : positive) (k : Z) :
  0 <= k -> Zpos mx * 2 ^ k <= Zpos mz ->
  Zpos (digits2_pos mx) + k <= Zpos (digits2_pos mz).
Proof.
  intros Hk Hle.
  pose proof (digits2_pos_lower mx) as Hlow.
  pose proof (digits2_pos_bound mz) as Hup.
  assert (Hpow : 2 ^ (Zpos (digits2_pos mx) - 1 + k) < 2 ^ Zpos (digits2_pos mz)).
  { rewrite Z.pow_add_r by lia.
    apply Z.le_lt_trans with (Zpos mx * 2 ^ k); [|lia].
    apply Z.mul_le_mono_nonneg_r; [apply Z.pow_nonneg; lia | assumption]. }
  apply Z.pow_lt_mono_r_iff in Hpow; lia.
Qed.

(** Rounding never goes below a representable number that the exact
    value is not below. *)
Lemma binary_round_aux_ge (mx : positive) (ex : Z) (mz : positive) (ez : Z)
    (l : location) :
  canonical_mantissa prec emax mx ex = true ->
  emin <= ez <= ex ->
  Zpos mx * 2 ^ (ex - ez) <= Zpos mz ->
  SFleb (S754_finite false mx ex)
        (binary_round_aux prec emax false (Zpos mz) ez l) = true.
Proof.
  intros Hc He Hle.
  destruct (binary_round_aux_pos false mz ez l (proj1 He))
    as (m2 & Hm2 & m3 & Hm3 & ->).
  set (e1 := Z.max ez (fexp prec emax (Zpos (digits2_pos mz) + ez))) in *.
  set (e2 := Z.max e1 (fexp prec emax (Zpos (digits2_pos m2) + e1))) in *.
  destruct (e2 <=? emax - prec); [|reflexivity].
  assert (He1 : ex <= e1).
  { pose proof (digits_le_of_value mx mz (ex - ez) ltac:(lia) Hle) as Hd.
    pose proof (fexp_le (Zpos (digits2_pos mx) + ex) (Zpos (digits2_pos mz) + ez)
                  ltac:(lia)) as Hf.
    rewrite (canonical_fexp mx ex Hc) in Hf. subst e1. lia. }
  assert (He2 : e1 <= e2) by (subst e2; lia).
  unfold SFleb, SFcompare.
  destruct (Z.compare_spec ex e2) as [Heq | Hlt | Hgt]; try reflexivity; [|lia].
  assert (e1 = ex) by lia. assert (e2 = e1) by lia.
  assert (Hm1 : Zpos mx <= Zpos mz / 2 ^ (e1 - ez)).
  { apply Z.div_le_lower_bound; [apply Z.pow_pos_nonneg; lia|].
    replace (e1 - ez) with (ex - ez) by lia. lia. }
  replace (e2 - e1) with 0 in Hm3 by lia. rewrite Z.div_1_r in Hm3.
  assert (Hfin : (mx <= m3)%positive) by lia.
  change (Pos.compare_cont Eq mx m3) with (Pos.compare mx m3).
  unfold Pos.le in Hfin. now destruct (Pos.compare mx m3).
Qed.

(** The shapes a sum of two numbers that are not negative can take. *)
Definition SFnonneg (x : spec_float) : bool :=
  match x with
  | S754_zero _ | S754_finite false _ _ | S754_infinity false => true
  | _ => false
  end.

Lemma binary_round_aux_shape (s : bool) (m : positive) (e : Z) (l : location) :
  emin <= e ->
  exists m' e',
    binary_round_aux prec emax s (Zpos m) e l = S754_finite s m' e' \/
    binary_round_aux prec emax s (Zpos m) e l = S754_infinity s.
Proof.
  intros He.
  destruct (binary_round_aux_pos s m e l He) as (m2 & _ & m3 & _ & ->).
  match goal with |- context [if ?b then _ else _] => destruct b end.
  - eexists _, _. left. reflexivity.
  - exists m3, 0. now right.
Qed.

Lemma binary_round_pos (s : bool) (m : positive) (e : Z) :
  emin <= e ->
  exists mz ez,
    emin <= ez <= e /\ Zpos mz = Zpos m * 2 ^ (e - ez) /\
    binary_round prec emax s m e = binary_round_aux prec emax s (Zpos mz) ez loc_Exact.
Proof.
  intros He. unfold binary_round.
  pose proof (shl_align_spec m e (fexp prec emax (Zpos (digits2_pos m) + e)))
    as [Hs Hv].
  destruct (shl_align m e (fexp prec emax (Zpos (digits2_pos m) + e))) as [mz ez].
  cbn [fst snd] in Hs, Hv. exists mz, ez. repeat split.
  - subst ez. unfold fexp. unfold fexp in He. lia.
  - lia.
  - now rewrite Hv, Hs.
Qed.

(** Adding a number that is not negative never gives less. *)
Lemma SFadd_nonneg_le (x y : spec_float) :
  valid_binary x = true -> valid_binary y = true ->
  SFnonneg x = true -> SFnonneg y = true ->
  SFnonneg (SF64add x y) = true /\ SFleb x (SF64add x y) = true.
Proof.
  intros Hvx Hvy Hx Hy.
  destruct x as [sx|[|]| |[|] mx ex]; try discriminate;
    destruct y as [sy|[|]| |[|] my ey]; try discriminate;
    try (split; [try reflexivity; now destruct sx, sy | try reflexivity]).
  - now destruct sx, sy.
  - unfold SF64add, SFadd, SFleb, SFcompare.
    rewrite Z.compare_refl, Pos.compare_cont_refl. reflexivity.
  - cbn [SpecFloat.valid_binary] in Hvx, Hvy. unfold SpecFloat.bounded in Hvx, Hvy.
    apply andb_true_iff in Hvx, Hvy. destruct Hvx as [Hcx _], Hvy as [Hcy _].
    pose proof (canonical_emin mx ex Hcx) as Hex.
    pose proof (canonical_emin my ey Hcy) as Hey.
    unfold SF64add, SFadd. cbn [cond_Zopp].
    pose proof (shl_align_spec mx ex (Z.min ex ey)) as [_ Hvx].
    pose proof (shl_align_spec my ey (Z.min ex ey)) as [_ Hvy].
    set (ez := Z.min ex ey) in *.
    replace (Z.min ex ez) with ez in Hvx by lia.
    replace (Z.min ey ez) with ez in Hvy by lia.
    set (mx' := fst (shl_align mx ex ez)) in *.
    set (my' := fst (shl_align my ey ez)) in *.
    change (Zpos mx' + Zpos my') with (Zpos (mx' + my')).
    cbn [binary_normalize].
    destruct (binary_round_pos false (mx' + my') ez ltac:(lia))
      as (mz & ez' & Hez & Hmz & ->).
    split.
    + destruct (binary_round_aux_shape false mz ez' loc_Exact (proj1 Hez))
        as (m' & e' & [-> | ->]); reflexivity.
    + apply binary_round_aux_ge; [assumption | lia |].
      rewrite Hmz, Pos2Z.inj_add, Hvx.
      replace (ex - ez') with ((ex - ez) + (ez - ez')) by lia.
      rewrite Z.pow_add_r by lia.
      assert (0 <= Zpos my' * 2 ^ (ez - ez')) by (apply Z.mul_nonneg_nonneg; [lia|apply Z.pow_nonneg; lia]).
      lia.
Qed.

(** [binary_round_aux] keeps the sign it is given and never returns NaN
    for a mantissa that is not negative. *)
Definition SFsigned (s : bool) (x : spec_float) : bool :=
  match x with
  | S754_nan => false
  | S754_zero s' | S754_infinity s' | S754_finite s' _ _ => Bool.eqb s' s
  end.

Lemma shr_fexp_nonneg (m e : Z) (l : location) :
  0 <= m -> 0 <= shr_m (fst (shr_fexp prec emax m e l)).
Proof.
  intros Hm. pose proof (shr_fexp_spec m e l Hm) as [_ Hs]. rewrite Hs.
  apply Z.div_pos; [assumption|]. apply Z.pow_pos_nonneg; lia.
Qed.

Lemma binary_round_aux_signed (s : bool) (m e : Z) (l : location) :
  0 <= m -> SFsigned s (binary_round_aux prec emax s m e l) = true.
Proof.
  intros Hm. unfold binary_round_aux.
  pose proof (shr_fexp_nonneg m e l Hm) as H1.
  destruct (shr_fexp prec emax m e l) as [mrs e1]. cbn [fst] in H1.
  pose proof (round_nearest_even_bounds (shr_m mrs) (loc_of_shr_record mrs)) as Hr.
  pose proof (shr_fexp_nonneg (round_nearest_even (shr_m mrs) (loc_of_shr_record mrs))
                e1 loc_Exact ltac:(lia)) as H2.
  destruct (shr_fexp prec emax _ e1 loc_Exact) as [mrs' e2]. cbn [fst] in H2.
  destruct (shr_m mrs') as [|m'|m']; try lia; cbn [SFsigned].
  - apply Bool.eqb_reflx.
  - destruct (e2 <=? emax - prec); apply Bool.eqb_reflx.
Qed.

(** Not negative, or not a number: what [x < 0] being false means. *)
Definition SFnotneg (x : spec_float) : bool :=
  match x with
  | S754_nan => true
  | _ => SFnonneg x
  end.

Lemma SFsqrt_notneg (x : spec_float) : SFnotneg (SF64sqrt x) = true.
Proof.
  unfold SF64sqrt, SFsqrt. destruct x as [s|[|]| |[|] m e]; try reflexivity.
  unfold SFsqrt_core_binary.
  set (m' := match _ - _ with Zpos _ => _ | Z0 => _ | Zneg _ => _ end).
  pose proof (Z.sqrtrem_sqrt m') as Hq.
  pose proof (Z.sqrt_nonneg m') as Hn.
  destruct (Z.sqrtrem m') as [q r]. cbn [fst] in Hq. subst q.
  match goal with
  | |- SFnotneg (binary_round_aux _ _ false ?mz ?ez ?lz) = true =>
      pose proof (binary_round_aux_signed false mz ez lz Hn) as Hs;
      destruct (binary_round_aux prec emax false mz ez lz) as [s'|s'| |s' ? ?];
      try reflexivity; cbn in Hs; destruct s'; (discriminate || reflexivity)
  end.
Qed.

Lemma SFadd_notneg_le (x y : spec_float) :
  valid_binary x = true -> valid_binary y = true ->
  SFnotneg x = true -> SFnotneg y = true ->
  SFnotneg (SF64add x y) = true /\
  (SF64add x y <> S754_nan -> SFleb x (SF64add x y) = true).
Proof.
  intros Hvx Hvy Hx Hy.
  destruct x as [sx|sx| |sx mx ex] eqn:Ex; try (split; [reflexivity | now intros []]);
    (destruct y as [sy|sy| |sy my ey] eqn:Ey;
     [ | | split; [reflexivity | now intros []] | ]);
    rewrite <- Ex, <- Ey in *;
    (destruct (SFadd_nonneg_le x y Hvx Hvy) as [Hn Hl];
     [subst x; exact Hx | subst y; exact Hy |];
     split; [destruct (SF64add x y); (reflexivity || exact Hn) | intros _; exact Hl]).
Qed.

Lemma is_nan_SF (x : float) : is_nan x = false <-> Prim2SF x <> S754_nan.
Proof.
  unfold is_nan. rewrite eqb_spec. split.
  - intros H E. rewrite E in H. discriminate.
  - intros H. destruct (Prim2SF x) as [s|s| |s m e] eqn:E; try congruence.
    + reflexivity.
    + now destruct s.
    + rewrite (SFeqb_refl (S754_finite s m e)); reflexivity.
Qed.

(** On doubles: a sum of two numbers that are not negative is not
    negative, and not below the first unless it is NaN. *)
Definition notneg (x : float) : bool := SFnotneg (Prim2SF x).

Lemma add_notneg (s d : float) :
  notneg s = true -> notneg d = true ->
  notneg (s + d) = true /\ (is_nan (s + d) = false -> (s <=? s + d)%float = true).
Proof.
  unfold notneg. intros Hs Hd. rewrite leb_spec, is_nan_SF, add_spec.
  apply SFadd_notneg_le; try assumption; apply Prim2SF_valid.
Qed.

Lemma sqrt_notneg (x : float) : notneg (PrimFloat.sqrt x) = true.
Proof. unfold notneg. rewrite sqrt_spec. apply SFsqrt_notneg. Qed.

(** ** The sign of a difference *)

Definition SFneg (x : spec_float) : bool := SFltb x (S754_zero false).
Definition SFpos (x : spec_float) : bool := SFltb (S754_zero false) x.

Lemma SFeqb_eq (x y : spec_float) :
  SFeqb x y = true ->
  x = y \/ (exists s s', x = S754_zero s /\ y = S754_zero s').
Proof.
  unfold SFeqb, SFcompare.
  destruct x as [sx|sx| |sx mx ex], y as [sy|sy| |sy my ey]; try discriminate;
    try (destruct sx; discriminate); try (destruct sy; discriminate).
  - intros _. right. now exists sx, sy.
  - destruct sx, sy; try discriminate; intros _; now left.
  - destruct sx, sy; try discriminate;
      destruct (Z.compare_spec ex ey) as [He | | ]; try discriminate;
      change (Pos.compare_cont Eq mx my) with (Pos.compare mx my);
      destruct (Pos.compare_spec mx my) as [Hm | | ]; try discriminate;
      intros _; left; now subst.
Qed.

(** Two numbers that are [===] are on the same side of any target. *)
Lemma SFsub_sides (x y T : spec_float) :
  SFeqb x y = true ->
  SFneg (SF64sub x T) = true -> SFpos (SF64sub y T) = true -> False.
Proof.
  intros He Hn Hp. destruct (SFeqb_eq x y He) as [<- | (s & s' & -> & ->)].
  - unfold SFneg, SFpos, SFltb, SFcompare in *.
    destruct (SF64sub x T) as [sc|[|]| |[|] mc ec]; discriminate.
  - unfold SFneg, SFpos, SFltb, SFcompare, SF64sub, SFsub in *.
    destruct T as [sT|[|]| |[|] mT eT]; try discriminate;
      destruct s, s', sT; discriminate.
Qed.

Lemma canonical_unique (mx my : positive) (ex ey : Z) :
  canonical_mantissa prec emax mx ex = true ->
  canonical_mantissa prec emax my ey = true ->
  ex <= ey ->
  Zpos mx = Zpos my * 2 ^ (ey - ex) ->
  ex = ey /\ mx = my.
Proof.
  intros Hx Hy Hle Hv.
  pose proof (digits_le_of_value my mx (ey - ex) ltac:(lia) ltac:(lia)) as H1.
  assert (H2 : Zpos (digits2_pos mx) <= Zpos (digits2_pos my) + (ey - ex)).
  { apply digits2_pos_le; [lia|]. rewrite Hv, Z.pow_add_r by lia.
    apply Z.mul_lt_mono_pos_r; [apply Z.pow_pos_nonneg; lia|].
    apply digits2_pos_bound. }
  apply canonical_fexp in Hx, Hy.
  replace (Zpos (digits2_pos mx) + ex) with (Zpos (digits2_pos my) + ey) in Hx by lia.
  assert (ex = ey) by lia. subst ey. split; [reflexivity|].
  rewrite Z.sub_diag, Z.pow_0_r, Z.mul_1_r in Hv. now injection Hv.
Qed.

Lemma binary_normalize_nonzero (D e : Z) :
  D <> 0 -> emin <= e ->
  SFneg (binary_normalize prec emax D e false) = true \/
  SFpos (binary_normalize prec emax D e false) = true.
Proof.
  intros HD He. destruct D as [|p|p]; [congruence | right | left];
    cbn [binary_normalize].
  - destruct (binary_round_pos false p e He) as (mz & ez & Hez & _ & ->).
    destruct (binary_round_aux_shape false mz ez loc_Exact (proj1 Hez))
      as (m' & e' & [-> | ->]); reflexivity.
  - destruct (binary_round_pos true p e He) as (mz & ez & Hez & _ & ->).
    destruct (binary_round_aux_shape true mz ez loc_Exact (proj1 Hez))
      as (m' & e' & [-> | ->]); reflexivity.
Qed.

(** A difference that is neither negative nor positive, of two numbers
    that are not NaN, is the difference of two numbers that are [===]. *)
Lemma SFsub_neither (x T : spec_float) :
  valid_binary x = true -> valid_binary T = true ->
  x <> S754_nan -> T <> S754_nan ->
  SFneg (SF64sub x T) = false -> SFpos (SF64sub x T) = false ->
  SFeqb x T = true.
Proof.
  intros Hvx HvT Hx HT Hn Hp.
  destruct x as [sx|sx| |sx mx ex]; try congruence;
    destruct T as [sT|sT| |sT mT eT]; try congruence;
    try reflexivity;
    try (exfalso; destruct sx, sT; discriminate).
  - destruct sx, sT; (reflexivity || discriminate).
  - cbn [SpecFloat.valid_binary] in Hvx, HvT. unfold SpecFloat.bounded in Hvx, HvT.
    apply andb_true_iff in Hvx, HvT. destruct Hvx as [Hcx _], HvT as [HcT _].
    pose proof (canonical_emin mx ex Hcx) as Hex.
    pose proof (canonical_emin mT eT HcT) as HeT.
    unfold SF64sub, SFsub in Hn, Hp.
    pose proof (shl_align_spec mx ex (Z.min ex eT)) as [_ Hax].
    pose proof (shl_align_spec mT eT (Z.min ex eT)) as [_ HaT].
    set (ez := Z.min ex eT) in *.
    replace (Z.min ex ez) with ez in Hax by lia.
    replace (Z.min eT ez) with ez in HaT by lia.
    set (mx' := fst (shl_align mx ex ez)) in *.
    set (mT' := fst (shl_align mT eT ez)) in *.
    set (D := cond_Zopp sx (Zpos mx') - cond_Zopp sT (Zpos mT')) in *.
    destruct (Z.eq_dec D 0) as [HD | HD].
    + assert (Hs : sx = sT /\ Zpos mx' = Zpos mT')
        by (subst D; clearbody mx' mT'; clear - HD;
            destruct sx, sT; cbn [cond_Zopp] in HD;
            try (exfalso; lia); split; (reflexivity || lia)).
      destruct Hs as [<- Hm]. rewrite Hax, HaT in Hm.
      assert (Hu : ex = eT /\ mx = mT).
      { destruct (Z.le_ge_cases ex eT) as [Hle | Hge].
        - apply canonical_unique; try assumption.
          replace ez with ex in Hm by lia.
          rewrite Z.sub_diag, Z.pow_0_r, Z.mul_1_r in Hm. exact Hm.
        - assert (eT = ex /\ mT = mx) as [-> ->]; [|now split].
          apply canonical_unique; try assumption.
          replace ez with eT in Hm by lia.
          rewrite Z.sub_diag, Z.pow_0_r, Z.mul_1_r in Hm. now symmetry. }
      destruct Hu as [<- <-]. now apply (SFeqb_refl (S754_finite sx mx ex)).
    + exfalso.
      destruct (binary_normalize_nonzero D ez HD ltac:(lia)) as [H | H];
        congruence.
Qed.

(** ** The value of a double

    Every finite double is an integer multiple of [2 ^ emin]; [SFval] is
    that integer, and the infinities get the first power of two past the
    finite doubles. *)

Definition SFval (x : spec_float) : Z :=
  match x with
  | S754_finite s m e => cond_Zopp s (Zpos m * 2 ^ (e - emin))
  | S754_infinity s => cond_Zopp s (2 ^ (emax - emin))
  | _ => 0
  end.

Lemma canonical_lt (mx my : positive) (ex ey : Z) :
  canonical_mantissa prec emax mx ex = true ->
  canonical_mantissa prec emax my ey = true ->
  ex < ey ->
  Zpos mx * 2 ^ (ex - emin) < Zpos my * 2 ^ (ey - emin).
Proof.
  intros Hx Hy Hlt.
  pose proof (canonical_emin mx ex Hx) as Hex.
  pose proof (canonical_fexp mx ex Hx) as Hfx.
  pose proof (canonical_fexp my ey Hy) as Hfy.
  assert (Hd : Zpos (digits2_pos mx) + ex <= Zpos (digits2_pos my) + ey - 1).
  { destruct (Z.le_gt_cases (Zpos (digits2_pos my) + ey) (Zpos (digits2_pos mx) + ex))
      as [Hle | Hgt]; [|lia].
    apply fexp_le in Hle. lia. }
  pose proof (digits2_pos_bound mx) as Hbx.
  pose proof (digits2_pos_lower my) as Hly.
  apply Z.lt_le_trans with (2 ^ Zpos (digits2_pos mx) * 2 ^ (ex - emin)).
  - apply Z.mul_lt_mono_pos_r; [apply Z.pow_pos_nonneg; lia | assumption].
  - apply Z.le_trans with (2 ^ (Zpos (digits2_pos my) - 1) * 2 ^ (ey - emin)).
    + rewrite <- !Z.pow_add_r by lia. apply Z.pow_le_mono_r; lia.
    + apply Z.mul_le_mono_nonneg_r; [apply Z.pow_nonneg; lia | assumption].
Qed.

Lemma SFval_pos (m : positive) (e : Z) :
  emin <= e -> 0 < Zpos m * 2 ^ (e - emin).
Proof.
  intros He. apply Z.mul_pos_pos; [lia | apply Z.pow_pos_nonneg; lia].
Qed.

Lemma SFval_bound (m : positive) (e : Z) :
  SpecFloat.bounded prec emax m e = true ->
  0 < Zpos m * 2 ^ (e - emin) < 2 ^ (emax - emin).
Proof.
  intros Hb. unfold SpecFloat.bounded in Hb. apply andb_true_iff in Hb as [Hc He].
  apply Z.leb_le in He.
  pose proof (canonical_emin m e Hc) as Hemin.
  pose proof (canonical_fexp m e Hc) as Hf.
  pose proof (digits2_pos_bound m) as Hd.
  split; [now apply SFval_pos|].
  apply Z.lt_le_trans with (2 ^ Zpos (digits2_pos m) * 2 ^ (e - emin)).
  - apply Z.mul_lt_mono_pos_r; [apply Z.pow_pos_nonneg; lia | assumption].
  - rewrite <- Z.pow_add_r by lia. apply Z.pow_le_mono_r; [lia|].
    unfold fexp in Hf. lia.
Qed.

(** A number: a valid double that is not NaN. *)
Definition SFnum (x : spec_float) : Prop :=
  valid_binary x = true /\ x <> S754_nan.

(** Comparison of numbers is comparison of their values. *)
Lemma SFcompare_val (x y : spec_float) :
  SFnum x -> SFnum y ->
  SFcompare x y = Some (Z.compare (SFval x) (SFval y)).
Proof.
  intros [Hvx Hnx] [Hvy Hny].
  assert (Hpow : 0 < 2 ^ (emax - emin)) by (apply Z.pow_pos_nonneg; [lia | discriminate]).
  destruct x as [sx|sx| |sx mx ex], y as [sy|sy| |sy my ey]; try congruence;
    cbn [SpecFloat.valid_binary] in Hvx, Hvy;
    try pose proof (SFval_bound mx ex Hvx) as Hpx;
    try pose proof (SFval_bound my ey Hvy) as Hpy;
    cbn [SFcompare SFval].
  all: try (destruct sx; try destruct sy; cbn [cond_Zopp];
            change IntDef.Z.opp with Z.opp; f_equal; symmetry;
            first [apply Z.compare_eq_iff; lia | apply Z.compare_lt_iff; lia
                  | apply Z.compare_gt_iff; lia]).
  all: try (destruct sy; cbn [cond_Zopp];
            change IntDef.Z.opp with Z.opp; f_equal; symmetry;
            first [apply Z.compare_eq_iff; lia | apply Z.compare_lt_iff; lia
                  | apply Z.compare_gt_iff; lia]).
  - unfold SpecFloat.bounded in Hvx, Hvy.
    apply andb_true_iff in Hvx as [Hx _], Hvy as [Hy _].
    assert (Hsame : ex = ey ->
              match Pos.compare mx my with
              | Lt => Zpos mx * 2 ^ (ex - emin) < Zpos my * 2 ^ (ey - emin)
              | Eq => Zpos mx * 2 ^ (ex - emin) = Zpos my * 2 ^ (ey - emin)
              | Gt => Zpos my * 2 ^ (ey - emin) < Zpos mx * 2 ^ (ex - emin)
              end).
    { intros He. subst ey. pose proof (canonical_emin mx ex Hx).
      assert (0 < 2 ^ (ex - emin)) by (apply Z.pow_pos_nonneg; lia).
      destruct (Pos.compare_spec mx my) as [Hm | Hm | Hm].
      - now subst my.
      - apply Z.mul_lt_mono_pos_r; lia.
      - apply Z.mul_lt_mono_pos_r; lia. }
    change (Pos.compare_cont Eq mx my) with (Pos.compare mx my).
    destruct sx, sy; cbn [cond_Zopp]; change IntDef.Z.opp with Z.opp; f_equal; symmetry.
    + destruct (Z.compare_spec ex ey) as [He | He | He].
      * specialize (Hsame He). destruct (Pos.compare mx my); cbn [CompOpp];
          [apply Z.compare_eq_iff | apply Z.compare_gt_iff | apply Z.compare_lt_iff]; lia.
      * cbn [CompOpp]. apply Z.compare_gt_iff.
        pose proof (canonical_lt mx my ex ey Hx Hy He). lia.
      * cbn [CompOpp]. apply Z.compare_lt_iff.
        pose proof (canonical_lt my mx ey ex Hy Hx He). lia.
    + apply Z.compare_lt_iff. lia.
    + apply Z.compare_gt_iff. lia.
    + destruct (Z.compare_spec ex ey) as [He | He | He].
      * specialize (Hsame He). destruct (Pos.compare mx my);
          [apply Z.compare_eq_iff | apply Z.compare_lt_iff | apply Z.compare_gt_iff]; lia.
      * apply Z.compare_lt_iff. exact (canonical_lt mx my ex ey Hx Hy He).
      * apply Z.compare_gt_iff. exact (canonical_lt my mx ey ex Hy Hx He).
Qed.

Lemma SFleb_val (x y : spec_float) :
  SFnum x -> SFnum y -> SFleb x y = (SFval x <=? SFval y).
Proof.
  intros Hx Hy. unfold SFleb. rewrite (SFcompare_val x y Hx Hy).
  unfold Z.leb. now destruct (SFval x ?= SFval y).
Qed.

Lemma SFltb_val (x y : spec_float) :
  SFnum x -> SFnum y -> SFltb x y = (SFval x <? SFval y).
Proof.
  intros Hx Hy. unfold SFltb. rewrite (SFcompare_val x y Hx Hy).
  unfold Z.ltb. now destruct (SFval x ?= SFval y).
Qed.

Lemma SFeqb_val (x y : spec_float) :
  SFnum x -> SFnum y -> SFeqb x y = (SFval x =? SFval y).
Proof.
  intros Hx Hy. unfold SFeqb. rewrite (SFcompare_val x y Hx Hy).
  destruct (Z.compare_spec (SFval x) (SFval y)) as [H | H | H]; symmetry;
    [apply Z.eqb_eq | apply Z.eqb_neq | apply Z.eqb_neq]; lia.
Qed.

Lemma binary_normalize_sign (D e : Z) :
  emin <= e ->
  SFneg (binary_normalize prec emax D e false) = (D <? 0) /\
  SFpos (binary_normalize prec emax D e false) = (0 <? D).
Proof.
  intros He. destruct D as [|p|p]; cbn [binary_normalize].
  - now split.
  - destruct (binary_round_pos false p e He) as (mz & ez & Hez & _ & ->).
    destruct (binary_round_aux_shape false mz ez loc_Exact (proj1 Hez))
      as (m' & e' & [-> | ->]); now split.
  - destruct (binary_round_pos true p e He) as (mz & ez & Hez & _ & ->).
    destruct (binary_round_aux_shape true mz ez loc_Exact (proj1 Hez))
      as (m' & e' & [-> | ->]); now split.
Qed.

(** The value of the two aligned mantissas of a sum or a difference. *)
Lemma shl_align_val (s : bool) (m : positive) (e ez : Z) :
  emin <= ez <= e ->
  cond_Zopp s (Zpos (fst (shl_align m e ez))) * 2 ^ (ez - emin)
  = cond_Zopp s (Zpos m * 2 ^ (e - emin)).
Proof.
  intros He. pose proof (shl_align_spec m e ez) as [_ Hv].
  replace (Z.min e ez) with ez in Hv by lia. rewrite Hv.
  replace (e - emin) with ((e - ez) + (ez - emin)) by lia.
  rewrite Z.pow_add_r by lia.
  destruct s; cbn [cond_Zopp]; change IntDef.Z.opp with Z.opp; lia.
Qed.

(** The sign of a difference is the order of the values. *)
Lemma SFsub_sign (x T : spec_float) :
  SFnum x -> SFnum T ->
  SFneg (SF64sub x T) = (SFval x <? SFval T) /\
  SFpos (SF64sub x T) = (SFval T <? SFval x).
Proof.
  intros [Hvx Hnx] [HvT HnT].
  assert (Hpow : 0 < 2 ^ (emax - emin)) by (apply Z.pow_pos_nonneg; [lia | discriminate]).
  destruct x as [sx|sx| |sx mx ex], T as [sT|sT| |sT mT eT]; try congruence;
    cbn [SpecFloat.valid_binary] in Hvx, HvT;
    try pose proof (SFval_bound mx ex Hvx) as Hpx;
    try pose proof (SFval_bound mT eT HvT) as HpT;
    unfold SF64sub; cbn [SFsub SFval].
  all: try (destruct sx; try destruct sT; cbn [Bool.eqb negb cond_Zopp SFneg SFpos SFltb SFcompare];
            change IntDef.Z.opp with Z.opp;
            split; symmetry; first [apply Z.ltb_lt; lia | apply Z.ltb_ge; lia]).
  all: try (destruct sT; cbn [Bool.eqb negb cond_Zopp SFneg SFpos SFltb SFcompare];
            change IntDef.Z.opp with Z.opp;
            split; symmetry; first [apply Z.ltb_lt; lia | apply Z.ltb_ge; lia]).
  unfold SpecFloat.bounded in Hvx, HvT.
  apply andb_true_iff in Hvx as [Hcx _], HvT as [HcT _].
  pose proof (canonical_emin mx ex Hcx) as Hex.
  pose proof (canonical_emin mT eT HcT) as HeT.
  set (ez := Z.min ex eT).
  pose proof (shl_align_val sx mx ex ez ltac:(lia)) as Hax.
  pose proof (shl_align_val sT mT eT ez ltac:(lia)) as HaT.
  set (D := cond_Zopp sx (Zpos (fst (shl_align mx ex ez)))
            - cond_Zopp sT (Zpos (fst (shl_align mT eT ez)))).
  destruct (binary_normalize_sign D ez ltac:(lia)) as [-> ->].
  assert (HD : D * 2 ^ (ez - emin)
               = cond_Zopp sx (Zpos mx * 2 ^ (ex - emin))
                 - cond_Zopp sT (Zpos mT * 2 ^ (eT - emin)))
    by (subst D; rewrite Z.mul_sub_distr_r; lia).
  assert (Hp : 0 < 2 ^ (ez - emin)) by (apply Z.pow_pos_nonneg; lia).
  split.
  - destruct (Z.ltb_spec D 0); symmetry; [apply Z.ltb_lt | apply Z.ltb_ge]; nia.
  - destruct (Z.ltb_spec 0 D); symmetry; [apply Z.ltb_lt | apply Z.ltb_ge]; nia.
Qed.

(** ** Rounding is monotone

    A mantissa with its rounding bits stands for a place among the
    quarter steps of the integers: [4 * m] for [m] itself, and one, two or
    three more for a value below, at or above the half way to [m + 1]. *)

Definition code (mrs : shr_record) : Z :=
  4 * shr_m mrs + (if shr_r mrs then 2 else 0) + (if shr_s mrs then 1 else 0).

(** The place of the quotient [N / D]. *)
Definition classQ (r D : Z) : Z :=
  if r =? 0 then 0
  else match 2 * r ?= D with Lt => 1 | Eq => 2 | Gt => 3 end.

Definition codeQ (N D : Z) : Z := 4 * (N / D) + classQ (N mod D) D.

(** Rounding to nearest, ties to even, as a function of the place. *)
Definition roundCode (c : Z) : Z :=
  let m := c / 4 in
  let k := c mod 4 in
  if k <? 2 then m
  else if k =? 2 then (if Z.even m then m else m + 1)
  else m + 1.

Lemma classQ_range (r D : Z) : 0 <= classQ r D <= 3.
Proof.
  unfold classQ. destruct (r =? 0); [lia|]. destruct (2 * r ?= D); lia.
Qed.

Lemma codeQ_div (N D : Z) : codeQ N D / 4 = N / D.
Proof.
  unfold codeQ. pose proof (classQ_range (N mod D) D).
  symmetry. apply Z.div_unique with (r := classQ (N mod D) D); lia.
Qed.

Lemma codeQ_mod (N D : Z) : codeQ N D mod 4 = classQ (N mod D) D.
Proof.
  unfold codeQ. pose proof (classQ_range (N mod D) D).
  symmetry. apply Z.mod_unique with (q := N / D); lia.
Qed.

Lemma code_round (mrs : shr_record) :
  round_nearest_even (shr_m mrs) (loc_of_shr_record mrs) = roundCode (code mrs).
Proof.
  destruct mrs as [m r s]. unfold roundCode, code. cbn [shr_m shr_r shr_s].
  assert (Hd : forall k, 0 <= k < 4 -> (4 * m + k) / 4 = m)
    by (intros k Hk; symmetry; apply Z.div_unique with (r := k); lia).
  assert (Hm : forall k, 0 <= k < 4 -> (4 * m + k) mod 4 = k)
    by (intros k Hk; symmetry; apply Z.mod_unique with (q := m); lia).
  destruct r, s; cbn [loc_of_shr_record round_nearest_even].
  - replace (4 * m + 2 + 1) with (4 * m + 3) by lia.
    now rewrite Hd, Hm by lia.
  - replace (4 * m + 2 + 0) with (4 * m + 2) by lia.
    rewrite Hd, Hm by lia. reflexivity.
  - replace (4 * m + 0 + 1) with (4 * m + 1) by lia.
    now rewrite Hd, Hm by lia.
  - replace (4 * m + 0 + 0) with (4 * m + 0) by lia.
    now rewrite Hd, Hm by lia.
Qed.

Lemma roundCode_bounds (c : Z) : c / 4 <= roundCode c <= c / 4 + 1.
Proof.
  unfold roundCode. destruct (c mod 4 <? 2); [lia|].
  destruct (c mod 4 =? 2); [destruct (Z.even (c / 4))|]; lia.
Qed.

Lemma roundCode_mono (c1 c2 : Z) : c1 <= c2 -> roundCode c1 <= roundCode c2.
Proof.
  intros Hle.
  pose proof (Z.div_mod c1 4 ltac:(lia)) as E1.
  pose proof (Z.div_mod c2 4 ltac:(lia)) as E2.
  pose proof (Z.mod_pos_bound c1 4 ltac:(lia)) as B1.
  pose proof (Z.mod_pos_bound c2 4 ltac:(lia)) as B2.
  pose proof (roundCode_bounds c1) as R1.
  pose proof (roundCode_bounds c2) as R2.
  destruct (Z.eq_dec (c1 / 4) (c2 / 4)) as [Heq | Hne]; [|lia].
  unfold roundCode. rewrite <- Heq.
  destruct (Z.ltb_spec (c1 mod 4) 2), (Z.ltb_spec (c2 mod 4) 2); try lia.
  - destruct (c2 mod 4 =? 2); [destruct (Z.even (c1 / 4))|]; lia.
  - destruct (Z.eqb_spec (c1 mod 4) 2), (Z.eqb_spec (c2 mod 4) 2); try lia.
    destruct (Z.even (c1 / 4)); lia.
Qed.

Lemma code_shr_1 (mrs : shr_record) :
  0 <= shr_m mrs ->
  code (shr_1 mrs) = 2 * (code mrs / 4) + (if code mrs mod 4 =? 0 then 0 else 1).
Proof.
  destruct mrs as [m r s]. cbn [shr_m]. intros Hm.
  assert (Hd : forall k, 0 <= k < 4 -> (4 * m + k) / 4 = m)
    by (intros k Hk; symmetry; apply Z.div_unique with (r := k); lia).
  assert (Hk : forall k, 0 <= k < 4 -> (4 * m + k) mod 4 = k)
    by (intros k Hk; symmetry; apply Z.mod_unique with (q := m); lia).
  assert (Hc : code {| shr_m := m; shr_r := r; shr_s := s |}
               = 4 * m + ((if r then 2 else 0) + (if s then 1 else 0)))
    by (unfold code; cbn [shr_m shr_r shr_s]; lia).
  rewrite Hc, Hd, Hk by (destruct r, s; lia).
  assert (Hs : (if (if r then 2 else 0) + (if s then 1 else 0) =? 0 then 0 else 1)
               = if (r || s)%bool then 1 else 0) by (now destruct r, s).
  rewrite Hs.
  destruct m as [|[p|p|]|p]; try lia; unfold code; cbn [shr_1 shr_m shr_r shr_s];
    destruct (r || s)%bool; lia.
Qed.

Lemma classQ_zero (r D : Z) : 0 <= r < D -> (classQ r D =? 0) = (r =? 0).
Proof.
  intros Hr. unfold classQ. destruct (r =? 0); [reflexivity|].
  now destruct (2 * r ?= D).
Qed.

(** One more bit shifted out: the same quotient over twice the divisor. *)
Lemma codeQ_double (N D : Z) :
  0 <= N -> 0 < D ->
  2 * (codeQ N D / 4) + (if codeQ N D mod 4 =? 0 then 0 else 1) = codeQ N (2 * D).
Proof.
  intros HN HD. rewrite codeQ_div, codeQ_mod.
  pose proof (Z.div_mod N D ltac:(lia)) as E.
  pose proof (Z.mod_pos_bound N D ltac:(lia)) as B.
  rewrite classQ_zero by assumption.
  set (q := N / D) in *. set (r := N mod D) in *.
  pose proof (Z.div_mod q 2 ltac:(lia)) as Eq2.
  pose proof (Z.mod_pos_bound q 2 ltac:(lia)) as Bq.
  assert (Hq : N / (2 * D) = q / 2).
  { symmetry. apply Z.div_unique with (r := (q mod 2) * D + r); nia. }
  assert (Hr : N mod (2 * D) = (q mod 2) * D + r).
  { symmetry. apply Z.mod_unique with (q := q / 2); nia. }
  unfold codeQ. rewrite Hq, Hr. unfold classQ.
  assert (Hcase : q mod 2 = 0 \/ q mod 2 = 1) by lia.
  destruct Hcase as [H0 | H1].
  - rewrite H0, Z.mul_0_l, Z.add_0_l.
    destruct (Z.eqb_spec r 0).
    + lia.
    + assert (Hlt : (2 * r ?= 2 * D) = Lt) by (apply Z.compare_lt_iff; lia).
      rewrite Hlt. lia.
  - rewrite H1. rewrite Z.mul_1_l.
    destruct (Z.eqb_spec r 0) as [Hr0 | Hr0].
    + rewrite Hr0, !Z.add_0_r.
      destruct (Z.eqb_spec D 0); [lia|].
      rewrite Z.compare_refl. lia.
    + destruct (Z.eqb_spec (D + r) 0); [lia|].
      assert (Hgt : (2 * (D + r) ?= 2 * D) = Gt) by (apply Z.compare_gt_iff; lia).
      rewrite Hgt. lia.
Qed.

Lemma code_nonneg (mrs : shr_record) : 0 <= shr_m mrs -> shr_m mrs = code mrs / 4.
Proof.
  destruct mrs as [m r s]. cbn [shr_m]. intros _. unfold code. cbn [shr_m shr_r shr_s].
  apply Z.div_unique with (r := (if r then 2 else 0) + (if s then 1 else 0));
    destruct r, s; lia.
Qed.

Lemma code_iter (n : nat) (mrs : shr_record) (N D : Z) :
  0 <= shr_m mrs -> 0 <= N -> 0 < D ->
  code mrs = codeQ N D ->
  code (Nat.iter n shr_1 mrs) = codeQ N (D * 2 ^ Z.of_nat n).
Proof.
  intros Hm HN HD Hc. induction n as [|n IH].
  - cbn [Nat.iter Z.of_nat]. now rewrite Z.pow_0_r, Z.mul_1_r.
  - rewrite Nat.iter_succ, code_shr_1.
    + assert (0 < D * 2 ^ Z.of_nat n)
        by (apply Z.mul_pos_pos; [lia | apply Z.pow_pos_nonneg; lia]).
      rewrite IH, codeQ_double by lia.
      f_equal. rewrite Nat2Z.inj_succ, Z.pow_succ_r; lia.
    + rewrite iter_shr_1_m by assumption. apply Z.div_pos; lia.
Qed.

(** The place is monotone in the quotient. *)
Lemma codeQ_mono (N1 D1 N2 D2 : Z) :
  0 <= N1 -> 0 < D1 -> 0 < D2 ->
  N1 * D2 <= N2 * D1 ->
  codeQ N1 D1 <= codeQ N2 D2.
Proof.
  intros HN1 HD1 HD2 Hle.
  assert (HN2 : 0 <= N2) by nia.
  pose proof (Z.div_mod N1 D1 ltac:(lia)) as E1.
  pose proof (Z.div_mod N2 D2 ltac:(lia)) as E2.
  pose proof (Z.mod_pos_bound N1 D1 ltac:(lia)) as B1.
  pose proof (Z.mod_pos_bound N2 D2 ltac:(lia)) as B2.
  pose proof (classQ_range (N1 mod D1) D1) as C1.
  pose proof (classQ_range (N2 mod D2) D2) as C2.
  unfold codeQ.
  set (q1 := N1 / D1) in *. set (q2 := N2 / D2) in *.
  set (r1 := N1 mod D1) in *. set (r2 := N2 mod D2) in *.
  assert (Hq : q1 <= q2).
  { destruct (Z.le_gt_cases q1 q2) as [H | H]; [exact H|]. exfalso.
    assert (q2 + 1 <= q1) by lia.
    assert (N2 < (q2 + 1) * D2) by lia.
    assert (q1 * D1 <= N1) by lia.
    assert (N2 * D1 < (q2 + 1) * D2 * D1) by nia.
    assert ((q2 + 1) * D2 * D1 <= q1 * D1 * D2) by nia.
    assert (q1 * D1 * D2 <= N1 * D2) by nia.
    lia. }
  destruct (Z.eq_dec q1 q2) as [Heq | Hne]; [|lia].
  assert (Hr : r1 * D2 <= r2 * D1) by nia.
  enough (classQ r1 D1 <= classQ r2 D2) by lia.
  unfold classQ.
  destruct (Z.eqb_spec r1 0) as [H10 | H10].
  - destruct (r2 =? 0); [lia|]. destruct (2 * r2 ?= D2); lia.
  - assert (0 < r2) by nia.
    destruct (Z.eqb_spec r2 0) as [H20 | H20]; [lia|].
    destruct (Z.compare_spec (2 * r1) D1) as [Ha | Ha | Ha];
      destruct (Z.compare_spec (2 * r2) D2) as [Hb | Hb | Hb]; try lia; exfalso; nia.
Qed.

(** The number a rounded mantissa and its exponent make. *)
Definition SFmake (s : bool) (r e : Z) : spec_float :=
  match r with
  | 0 => S754_zero s
  | Zpos m => if e <=? emax - prec then S754_finite s m e else S754_infinity s
  | Zneg _ => S754_nan
  end.

Lemma fexp_emin (a : Z) : emin <= fexp prec emax a.
Proof. unfold fexp, emin. lia. Qed.

Lemma Zdigits2_bound (m : Z) : 0 <= m -> m < 2 ^ Zdigits2 m.
Proof.
  destruct m as [|p|p]; intros Hm; try lia.
  - reflexivity.
  - apply digits2_pos_bound.
Qed.

Lemma Zdigits2_lower (m : Z) : 0 < m -> 2 ^ (Zdigits2 m - 1) <= m.
Proof.
  destruct m as [|p|p]; intros Hm; try lia. apply digits2_pos_lower.
Qed.

Lemma Zdigits2_nonneg (m : Z) : 0 <= Zdigits2 m.
Proof. destruct m; cbn [Zdigits2]; lia. Qed.

(** [binary_round_aux] on a mantissa fine enough for its magnitude: the
    place of the value at the exponent of its magnitude is rounded, and a
    mantissa that rounding carried to [2 ^ prec] moves one exponent up. *)
Lemma binary_round_aux_form (s : bool) (m e : Z) (l : location) (N D : Z) :
  0 <= m -> 0 <= N -> 0 < D ->
  code (shr_record_of_loc m l) = codeQ N D ->
  let F := fexp prec emax (Zdigits2 m + e) in
  e <= F ->
  let r := roundCode (codeQ N (D * 2 ^ (F - e))) in
  0 <= r <= 2 ^ prec /\
  (emin < F -> 2 ^ (prec - 1) <= r) /\
  binary_round_aux prec emax s m e l
  = if r <? 2 ^ prec then SFmake s r F else SFmake s (2 ^ (prec - 1)) (F + 1).
Proof.
  intros Hm0 HN HD Hc F HF r.
  pose proof (fexp_emin (Zdigits2 m + e)) as HFmin. fold F in HFmin.
  assert (Hm : m = N / D).
  { rewrite <- codeQ_div, <- Hc, <- code_nonneg;
      rewrite shr_record_of_loc_m; lia. }
  (* the first shift *)
  assert (Hshr : exists mrs,
             shr_fexp prec emax m e l = (mrs, F) /\
             code mrs = codeQ N (D * 2 ^ (F - e))).
  { unfold shr_fexp, shr. fold F.
    destruct (F - e) as [|n|n] eqn:En; try lia.
    - exists (shr_record_of_loc m l). split; [f_equal; lia|].
      now rewrite Z.pow_0_r, Z.mul_1_r.
    - eexists. split; [f_equal; lia|].
      rewrite iter_pos_nat, (code_iter _ _ N D); try assumption.
      + now rewrite positive_nat_Z.
      + rewrite shr_record_of_loc_m. lia. }
  destruct Hshr as (mrs & Hshr & Hcode).
  assert (Hpow : 0 < 2 ^ (F - e)) by (apply Z.pow_pos_nonneg; lia).
  assert (HM : codeQ N (D * 2 ^ (F - e)) / 4 = m / 2 ^ (F - e)).
  { rewrite codeQ_div, Hm, Z.div_div by lia. reflexivity. }
  pose proof (roundCode_bounds (codeQ N (D * 2 ^ (F - e)))) as Hr. fold r in Hr.
  rewrite HM in Hr.
  pose proof (Zdigits2_bound m Hm0) as Hup.
  pose proof (Zdigits2_nonneg m) as Hdn.
  assert (HMup : m / 2 ^ (F - e) < 2 ^ prec).
  { apply Z.div_lt_upper_bound; [assumption|].
    rewrite <- Z.pow_add_r by (unfold prec; lia).
    apply Z.lt_le_trans with (2 ^ Zdigits2 m); [assumption|].
    apply Z.pow_le_mono_r; [lia|]. subst F. unfold fexp. lia. }
  assert (HMlow : emin < F -> 2 ^ (prec - 1) <= m / 2 ^ (F - e)).
  { intros Hn.
    assert (Hmpos : 0 < m).
    { destruct (Z.eq_dec m 0) as [E0 | E0]; [|lia]. exfalso.
      subst F. rewrite E0 in *. cbn [Zdigits2] in *.
      clear - Hn HF. unfold fexp, emin, prec, emax in *. lia. }
    pose proof (Zdigits2_lower m Hmpos) as Hlow.
    apply Z.div_le_lower_bound; [assumption|].
    rewrite <- Z.pow_add_r by (unfold prec; lia).
    apply Z.le_trans with (2 ^ (Zdigits2 m - 1)); [|assumption].
    apply Z.pow_le_mono_r; [lia|]. subst F. unfold fexp in *. lia. }
  assert (HM0 : 0 <= m / 2 ^ (F - e)) by (apply Z.div_pos; lia).
  split; [lia|]. split; [intros Hn; specialize (HMlow Hn); lia|].
  unfold binary_round_aux. rewrite Hshr, code_round, Hcode. fold r.
  destruct (Z.ltb_spec r (2 ^ prec)) as [Hlt | Hge].
  - assert (Hsh2 : shr_fexp prec emax r F loc_Exact
                   = ({| shr_m := r; shr_r := false; shr_s := false |}, F)).
    { unfold shr_fexp, shr. cbn [shr_record_of_loc].
      assert (Hd : fexp prec emax (Zdigits2 r + F) - F <= 0).
      { clearbody r. destruct r as [|p|p]; cbn [Zdigits2]; try lia.
        - clear - HFmin. unfold fexp, emin, prec, emax in *. lia.
        - pose proof (digits2_pos_le p prec ltac:(unfold prec; lia) Hlt).
          clear - H HFmin. unfold fexp, emin, prec, emax in *. lia. }
      destruct (fexp prec emax (Zdigits2 r + F) - F); try lia; reflexivity. }
    rewrite Hsh2. reflexivity.
  - assert (Er : r = 2 ^ prec) by lia. rewrite Er.
    unfold shr_fexp, shr. cbn [shr_record_of_loc].
    change (Zdigits2 (2 ^ prec)) with 54.
    assert (Hd : fexp prec emax (54 + F) - F = 1)
      by (clear - HFmin; clearbody F; unfold fexp, emin, prec, emax in *; lia).
    rewrite Hd. reflexivity.
Qed.

Lemma SFmake_leb (R1 G1 R2 G2 : Z) :
  0 <= R1 -> 0 <= R2 ->
  (G1 = G2 /\ R1 <= R2) \/ (G1 < G2 /\ 0 < R2) ->
  SFleb (SFmake false R1 G1) (SFmake false R2 G2) = true.
Proof.
  intros H1 H2 H.
  destruct R1 as [|p1|p1], R2 as [|p2|p2]; try lia; cbn [SFmake].
  - reflexivity.
  - now destruct (G2 <=? emax - prec).
  - destruct (Z.leb_spec G1 (emax - prec)), (Z.leb_spec G2 (emax - prec));
      try reflexivity; [|lia].
    unfold SFleb, SFcompare.
    destruct (Z.compare_spec G1 G2) as [E | E | E]; try reflexivity; [|lia].
    change (Pos.compare_cont Eq p1 p2) with (Pos.compare p1 p2).
    destruct (Pos.compare_spec p1 p2); try reflexivity. lia.
Qed.

Lemma pow2_pos (a : Z) : 0 <= a -> 0 < 2 ^ a.
Proof. intros Ha. apply Z.pow_pos_nonneg; lia. Qed.

(** Rounding is monotone: of two values that are not negative, each given
    by a mantissa fine enough for its magnitude, rounding bits that place
    the quotient [N / D], and an exponent, the smaller rounds to the
    smaller number.  The powers [2 ^ p1] and [2 ^ p2] bring the two
    exponents together. *)
Lemma binary_round_aux_mono (m1 m2 e1 e2 : Z) (l1 l2 : location)
    (N1 D1 N2 D2 p1 p2 : Z) :
  0 <= m1 -> 0 <= m2 ->
  0 <= N1 -> 0 < D1 -> 0 <= N2 -> 0 < D2 ->
  code (shr_record_of_loc m1 l1) = codeQ N1 D1 ->
  code (shr_record_of_loc m2 l2) = codeQ N2 D2 ->
  e1 <= fexp prec emax (Zdigits2 m1 + e1) ->
  e2 <= fexp prec emax (Zdigits2 m2 + e2) ->
  0 <= p1 -> 0 <= p2 -> p1 - p2 = e1 - e2 ->
  N1 * D2 * 2 ^ p1 <= N2 * D1 * 2 ^ p2 ->
  SFleb (binary_round_aux prec emax false m1 e1 l1)
        (binary_round_aux prec emax false m2 e2 l2) = true.
Proof.
  intros Hm1 Hm2 HN1 HD1 HN2 HD2 Hc1 Hc2 He1 He2 Hp1 Hp2 Hp Hle'.
  set (e0 := Z.min e1 e2).
  assert (Hle : N1 * D2 * 2 ^ (e1 - e0) <= N2 * D1 * 2 ^ (e2 - e0)).
  { set (t := p1 - (e1 - e0)).
    destruct (Z.le_gt_cases 0 t) as [Ht | Ht].
    - pose proof (pow2_pos t Ht) as HPt.
      apply (Z.mul_le_mono_pos_r _ _ (2 ^ t)); [assumption|].
      rewrite <- !Z.mul_assoc, <- !Z.pow_add_r by lia.
      replace (e1 - e0 + t) with p1 by lia.
      replace (e2 - e0 + t) with p2 by lia. lia.
    - pose proof (pow2_pos (- t) ltac:(lia)) as HPt.
      replace (e1 - e0) with (p1 + - t) by lia.
      replace (e2 - e0) with (p2 + - t) by lia.
      rewrite !Z.pow_add_r, !Z.mul_assoc by lia.
      apply Z.mul_le_mono_nonneg_r; lia. }
  clear Hle' Hp Hp1 Hp2 p1 p2.
  destruct (binary_round_aux_form false m1 e1 l1 N1 D1 Hm1 HN1 HD1 Hc1 He1)
    as (Hr1 & _ & ->).
  destruct (binary_round_aux_form false m2 e2 l2 N2 D2 Hm2 HN2 HD2 Hc2 He2)
    as (Hr2 & Hn2 & ->).
  set (F1 := fexp prec emax (Zdigits2 m1 + e1)) in *.
  set (F2 := fexp prec emax (Zdigits2 m2 + e2)) in *.
  set (r1 := roundCode (codeQ N1 (D1 * 2 ^ (F1 - e1)))) in *.
  set (r2 := roundCode (codeQ N2 (D2 * 2 ^ (F2 - e2)))) in *.
  assert (Hq1 : m1 = N1 / D1).
  { rewrite <- codeQ_div, <- Hc1, <- code_nonneg; rewrite shr_record_of_loc_m; lia. }
  assert (Hq2 : m2 = N2 / D2).
  { rewrite <- codeQ_div, <- Hc2, <- code_nonneg; rewrite shr_record_of_loc_m; lia. }
  pose proof (pow2_pos (e1 - e0) ltac:(lia)) as HP1.
  pose proof (pow2_pos (e2 - e0) ltac:(lia)) as HP2.
  pose proof (fexp_emin (Zdigits2 m1 + e1)) as HF1min. fold F1 in HF1min.
  pose proof (fexp_emin (Zdigits2 m2 + e2)) as HF2min. fold F2 in HF2min.
  assert (HF : F1 <= F2).
  { destruct (Z.eq_dec m1 0) as [E0 | E0].
    - enough (F1 = emin) by lia. subst F1. rewrite E0 in *. cbn [Zdigits2] in *.
      clear - He1. unfold fexp, emin, prec, emax in *. lia.
    - apply fexp_le.
      pose proof (Z.div_mod N1 D1 ltac:(lia)) as E1.
      pose proof (Z.div_mod N2 D2 ltac:(lia)) as E2.
      pose proof (Z.mod_pos_bound N1 D1 ltac:(lia)) as B1.
      pose proof (Z.mod_pos_bound N2 D2 ltac:(lia)) as B2.
      rewrite <- Hq1 in E1. rewrite <- Hq2 in E2.
      assert (Hlt : m1 * 2 ^ (e1 - e0) < (m2 + 1) * 2 ^ (e2 - e0)).
      { apply (Z.mul_lt_mono_pos_r (D1 * D2)); [lia|].
        apply Z.le_lt_trans with (N1 * D2 * 2 ^ (e1 - e0)).
        - replace (m1 * 2 ^ (e1 - e0) * (D1 * D2))
            with (D1 * m1 * (D2 * 2 ^ (e1 - e0))) by ring.
          replace (N1 * D2 * 2 ^ (e1 - e0)) with (N1 * (D2 * 2 ^ (e1 - e0))) by ring.
          apply Z.mul_le_mono_nonneg_r; lia.
        - apply Z.le_lt_trans with (N2 * D1 * 2 ^ (e2 - e0)); [assumption|].
          replace ((m2 + 1) * 2 ^ (e2 - e0) * (D1 * D2))
            with ((D2 * m2 + D2) * (D1 * 2 ^ (e2 - e0))) by ring.
          replace (N2 * D1 * 2 ^ (e2 - e0)) with (N2 * (D1 * 2 ^ (e2 - e0))) by ring.
          apply Z.mul_lt_mono_pos_r; lia. }
      pose proof (Zdigits2_lower m1 ltac:(lia)) as Hl1.
      pose proof (Zdigits2_bound m2 Hm2) as Hu2.
      pose proof (Zdigits2_nonneg m2) as Hd2.
      assert (Hd1 : 0 < Zdigits2 m1) by (destruct m1; cbn [Zdigits2]; lia).
      assert (Hpow : 2 ^ (Zdigits2 m1 - 1 + (e1 - e0))
                     < 2 ^ (Zdigits2 m2 + (e2 - e0))).
      { rewrite !Z.pow_add_r by lia.
        apply Z.le_lt_trans with (m1 * 2 ^ (e1 - e0)).
        - apply Z.mul_le_mono_nonneg_r; lia.
        - apply Z.lt_le_trans with ((m2 + 1) * 2 ^ (e2 - e0)); [assumption|].
          apply Z.mul_le_mono_nonneg_r; lia. }
      apply Z.pow_lt_mono_r_iff in Hpow; lia. }
  assert (Hp52 : 0 < 2 ^ (prec - 1)) by reflexivity.
  assert (Hp53 : 2 ^ (prec - 1) < 2 ^ prec) by reflexivity.
  destruct (Z.eq_dec F1 F2) as [HFeq | HFne].
  - assert (Hr : r1 <= r2).
    { assert (0 < D1 * 2 ^ (F1 - e1))
        by (apply Z.mul_pos_pos; [lia | apply pow2_pos; lia]).
      assert (0 < D2 * 2 ^ (F2 - e2))
        by (apply Z.mul_pos_pos; [lia | apply pow2_pos; lia]).
      apply roundCode_mono, codeQ_mono; try assumption.
      set (t := F1 - Z.max e1 e2).
      pose proof (pow2_pos t ltac:(lia)) as Ht.
      replace (F2 - e2) with ((e1 - e0) + t) by lia.
      replace (F1 - e1) with ((e2 - e0) + t) by lia.
      rewrite !Z.pow_add_r by lia.
      replace (N1 * (D2 * (2 ^ (e1 - e0) * 2 ^ t)))
        with (N1 * D2 * 2 ^ (e1 - e0) * 2 ^ t) by ring.
      replace (N2 * (D1 * (2 ^ (e2 - e0) * 2 ^ t)))
        with (N2 * D1 * 2 ^ (e2 - e0) * 2 ^ t) by ring.
      apply Z.mul_le_mono_nonneg_r; lia. }
    destruct (Z.ltb_spec r1 (2 ^ prec)), (Z.ltb_spec r2 (2 ^ prec));
      apply SFmake_leb; lia.
  - specialize (Hn2 ltac:(lia)).
    destruct (Z.ltb_spec r1 (2 ^ prec)), (Z.ltb_spec r2 (2 ^ prec));
      apply SFmake_leb; lia.
Qed.

(** ** What the operations round

    [Rounds x N D]: the number [x] is what the operations make of the
    exact value [N / D], counted in units of [2 ^ emin], when that value
    is not negative: a zero for the value zero, or [binary_round_aux] on a
    mantissa, an exponent and rounding bits that stand for the value. *)

Inductive Rounds (x : spec_float) (N D : Z) : Prop :=
  | RoundsZero (s : bool) :
      N = 0 -> x = S754_zero s -> Rounds x N D
  | RoundsAux (m e : Z) (l : location) (N' D' p q : Z) :
      0 <= m -> 0 <= N' -> 0 < D' ->
      code (shr_record_of_loc m l) = codeQ N' D' ->
      e <= fexp prec emax (Zdigits2 m + e) ->
      0 <= p -> 0 <= q -> p - q = e - emin ->
      N' * D * 2 ^ p = N * D' * 2 ^ q ->
      x = binary_round_aux prec emax false m e l ->
      Rounds x N D.

Lemma SFleb_zero_make (s : bool) (R G : Z) :
  0 <= R -> SFleb (S754_zero s) (SFmake false R G) = true.
Proof.
  intros HR. destruct R as [|p|p]; try lia; cbn [SFmake]; [reflexivity|].
  now destruct (G <=? emax - prec).
Qed.

Lemma codeQ_zero (D : Z) : 0 < D -> codeQ 0 D = 0.
Proof.
  intros HD. unfold codeQ, classQ. rewrite Z.div_0_l, Z.mod_0_l by lia. reflexivity.
Qed.

Lemma codeQ_one (N : Z) : codeQ N 1 = 4 * N.
Proof. unfold codeQ, classQ. rewrite Z.div_1_r, Z.mod_1_r. cbn. lia. Qed.

Lemma code_exact (m : Z) : code (shr_record_of_loc m loc_Exact) = codeQ m 1.
Proof. rewrite codeQ_one. unfold code. cbn. lia. Qed.

(** The smaller value rounds to the smaller number. *)
Lemma Rounds_leb (x1 x2 : spec_float) (N1 D1 N2 D2 : Z) :
  Rounds x1 N1 D1 -> Rounds x2 N2 D2 ->
  0 <= N1 -> 0 < D1 -> 0 < D2 ->
  N1 * D2 <= N2 * D1 ->
  SFleb x1 x2 = true.
Proof.
  intros [s1 Hz1 -> | m1 e1 l1 N1' D1' p1 q1 Hm1 HN1' HD1' Hc1 Hf1 Hp1 Hq1 Hpq1 Hv1 ->]
         [s2 Hz2 -> | m2 e2 l2 N2' D2' p2 q2 Hm2 HN2' HD2' Hc2 Hf2 Hp2 Hq2 Hpq2 Hv2 ->]
         HN1 HD1 HD2 Hle.
  - reflexivity.
  - destruct (binary_round_aux_form false m2 e2 l2 N2' D2' Hm2 HN2' HD2' Hc2 Hf2)
      as (Hr & _ & ->).
    destruct (_ <? _); apply SFleb_zero_make; [lia | discriminate].
  - assert (N1 = 0) by nia. subst N1 N2.
    assert (HN0 : N1' = 0).
    { pose proof (pow2_pos p1 Hp1). rewrite Z.mul_0_l in Hv1. nia. }
    subst N1'.
    destruct (binary_round_aux_form false m1 e1 l1 0 D1' Hm1 ltac:(lia) HD1' Hc1 Hf1)
      as (_ & _ & ->).
    rewrite codeQ_zero
      by (apply Z.mul_pos_pos; [lia | apply pow2_pos; lia]).
    reflexivity.
  - assert (HN2 : 0 <= N2) by nia.
    apply (binary_round_aux_mono m1 m2 e1 e2 l1 l2 N1' D1' N2' D2' (p1 + q2) (p2 + q1));
      try assumption; try lia.
    pose proof (pow2_pos p1 Hp1). pose proof (pow2_pos q1 Hq1).
    pose proof (pow2_pos p2 Hp2). pose proof (pow2_pos q2 Hq2).
    apply (Z.mul_le_mono_pos_r _ _ (D1 * D2)); [lia|].
    rewrite !Z.pow_add_r by lia.
    transitivity (N1 * D2 * (D1' * D2' * 2 ^ q1 * 2 ^ q2)).
    + apply Z.eq_le_incl.
      transitivity ((N1' * D1 * 2 ^ p1) * (D2' * D2 * 2 ^ q2)); [ring|].
      rewrite Hv1. ring.
    + transitivity (N2 * D1 * (D1' * D2' * 2 ^ q1 * 2 ^ q2)).
      * apply Z.mul_le_mono_nonneg_r; [|assumption].
        repeat apply Z.mul_nonneg_nonneg; lia.
      * apply Z.eq_le_incl.
        transitivity ((N2 * D2' * 2 ^ q2) * (D1' * D1 * 2 ^ q1)); [ring|].
        rewrite <- Hv2. ring.
Qed.

Lemma Rounds_num (x : spec_float) (N D : Z) :
  Rounds x N D -> 0 <= N -> 0 < D -> x <> S754_nan.
Proof.
  intros HR HN HD E.
  pose proof (Rounds_leb x x N D N D HR HR HN HD HD ltac:(lia)) as H.
  rewrite E in H. discriminate.
Qed.

(** Numbers that are not negative and not infinite. *)
Definition SFnn (x : spec_float) : Prop :=
  match x with
  | S754_zero _ => True
  | S754_finite false m e => SpecFloat.bounded prec emax m e = true
  | _ => False
  end.

Lemma SFnn_val (x : spec_float) : SFnn x -> 0 <= SFval x < 2 ^ (emax - emin).
Proof.
  destruct x as [s|s| |[|] m e]; cbn [SFnn SFval]; try contradiction.
  - intros _. split; [lia | reflexivity].
  - intros Hb. pose proof (SFval_bound m e Hb). cbn [cond_Zopp]. lia.
Qed.

Lemma SFnn_num (x : spec_float) : SFnn x -> SFnum x.
Proof.
  destruct x as [s|s| |[|] m e]; cbn [SFnn]; try contradiction;
    intros H; split; (reflexivity || discriminate || exact H).
Qed.

(** A number rounds to itself. *)
Lemma Rounds_self (x : spec_float) : SFnn x -> Rounds x (SFval x) 1.
Proof.
  destruct x as [s|s| |[|] m e]; cbn [SFnn SFval]; try contradiction.
  - intros _. now apply (RoundsZero _ _ _ s).
  - intros Hb. unfold SpecFloat.bounded in Hb. apply andb_true_iff in Hb as [Hc He].
    apply Z.leb_le in He.
    pose proof (canonical_emin m e Hc) as Hemin.
    apply (RoundsAux _ _ _ (Zpos m) e loc_Exact (Zpos m) 1 (e - emin) 0); try lia.
    + apply code_exact.
    + cbn [Zdigits2]. rewrite (canonical_fexp m e Hc). lia.
    + cbn [cond_Zopp]. rewrite Z.pow_0_r. ring.
    + pose proof (binary_round_aux_shifted false m e 0 Hc He) as H.
      cbn [Nat.iter Z.of_nat] in H. rewrite Z.sub_0_r in H. now symmetry.
Qed.

Lemma digits2_pos_shift (p mz : positive) (k : Z) :
  0 <= k -> Zpos mz = Zpos p * 2 ^ k ->
  Zpos (digits2_pos mz) = Zpos (digits2_pos p) + k.
Proof.
  intros Hk Hv.
  pose proof (digits_le_of_value p mz k Hk ltac:(lia)) as H1.
  assert (H2 : Zpos (digits2_pos mz) <= Zpos (digits2_pos p) + k).
  { apply digits2_pos_le; [lia|]. rewrite Hv, Z.pow_add_r by lia.
    apply Z.mul_lt_mono_pos_r; [apply pow2_pos; lia|].
    apply digits2_pos_bound. }
  lia.
Qed.

(** [binary_round] hands [binary_round_aux] a mantissa fine enough for
    its magnitude. *)
Lemma binary_round_fine (s : bool) (p : positive) (e : Z) :
  emin <= e ->
  exists mz ez,
    emin <= ez <= e /\ Zpos mz = Zpos p * 2 ^ (e - ez) /\
    ez <= fexp prec emax (Zpos (digits2_pos mz) + ez) /\
    binary_round prec emax s p e = binary_round_aux prec emax s (Zpos mz) ez loc_Exact.
Proof.
  intros He. unfold binary_round.
  pose proof (shl_align_spec p e (fexp prec emax (Zpos (digits2_pos p) + e)))
    as [Hs Hv].
  pose proof (fexp_emin (Zpos (digits2_pos p) + e)) as Hmin.
  destruct (shl_align p e (fexp prec emax (Zpos (digits2_pos p) + e))) as [mz ez].
  cbn [fst snd] in Hs, Hv. exists mz, ez.
  assert (Hez : emin <= ez <= e) by lia.
  assert (Hval : Zpos mz = Zpos p * 2 ^ (e - ez)) by (rewrite Hv; f_equal; f_equal; lia).
  repeat split; try lia; try assumption.
  rewrite (digits2_pos_shift p mz (e - ez)) by (lia || assumption).
  replace (Zpos (digits2_pos p) + (e - ez) + ez) with (Zpos (digits2_pos p) + e) by lia.
  lia.
Qed.

Lemma binary_normalize_rounds (D e : Z) :
  0 <= D -> emin <= e ->
  Rounds (binary_normalize prec emax D e false) (D * 2 ^ (e - emin)) 1.
Proof.
  intros HD He. destruct D as [|p|p]; try lia; cbn [binary_normalize].
  - now apply (RoundsZero _ _ _ false).
  - destruct (binary_round_fine false p e He) as (mz & ez & Hez & Hv & Hf & ->).
    apply (RoundsAux _ _ _ (Zpos mz) ez loc_Exact (Zpos mz) 1 (ez - emin) 0); try lia.
    + apply code_exact.
    + exact Hf.
    + rewrite Hv, Z.pow_0_r.
      replace (e - emin) with ((e - ez) + (ez - emin)) by lia.
      rewrite Z.pow_add_r by lia. ring.
    + reflexivity.
Qed.

Lemma SFnn_finite (m : positive) (e : Z) :
  SFnn (S754_finite false m e) ->
  canonical_mantissa prec emax m e = true /\ emin <= e /\
  SFval (S754_finite false m e) = Zpos m * 2 ^ (e - emin).
Proof.
  cbn [SFnn]. intros Hb. unfold SpecFloat.bounded in Hb.
  apply andb_true_iff in Hb as [Hc _].
  split; [assumption|]. split; [exact (canonical_emin m e Hc) | reflexivity].
Qed.

Lemma shl_align_scaled (m : positive) (e ez : Z) :
  emin <= ez <= e ->
  Zpos (fst (shl_align m e ez)) * 2 ^ (ez - emin) = Zpos m * 2 ^ (e - emin).
Proof.
  intros He. exact (@shl_align_val false m e ez He).
Qed.

(** A difference that is not negative. *)
Lemma SFsub_rounds (x y : spec_float) :
  SFnn x -> SFnn y -> SFval y <= SFval x ->
  Rounds (SF64sub x y) (SFval x - SFval y) 1.
Proof.
  intros Hx Hy Hle. unfold SF64sub.
  destruct x as [sx|sx| |[|] mx ex]; try contradiction;
    destruct y as [sy|sy| |[|] my ey]; try contradiction.
  - apply (RoundsZero _ _ _ (if Bool.eqb sx (negb sy) then sx else false));
      [reflexivity|]. now destruct sx, sy.
  - exfalso. pose proof (SFnn_val _ Hy). destruct (SFnn_finite my ey Hy) as (_ & He & Hv).
    pose proof (SFval_pos my ey He). cbn [SFval] in *. cbn [cond_Zopp] in *. lia.
  - cbn [SFsub]. replace (SFval (S754_finite false mx ex) - SFval (S754_zero sy))
      with (SFval (S754_finite false mx ex)) by (cbn [SFval]; lia).
    now apply Rounds_self.
  - destruct (SFnn_finite mx ex Hx) as (_ & Hex & Hvx).
    destruct (SFnn_finite my ey Hy) as (_ & Hey & Hvy).
    cbn [SFsub]. set (ez := Z.min ex ey).
    pose proof (shl_align_scaled mx ex ez ltac:(lia)) as Hax.
    pose proof (shl_align_scaled my ey ez ltac:(lia)) as Hay.
    cbn [cond_Zopp].
    set (D := Zpos (fst (shl_align mx ex ez)) - Zpos (fst (shl_align my ey ez))).
    assert (HD : D * 2 ^ (ez - emin)
                 = SFval (S754_finite false mx ex) - SFval (S754_finite false my ey)).
    { subst D. rewrite Z.mul_sub_distr_r, Hax, Hay, Hvx, Hvy. reflexivity. }
    rewrite <- HD. apply binary_normalize_rounds; [|lia].
    pose proof (pow2_pos (ez - emin) ltac:(lia)). nia.
Qed.

(** A sum of two numbers that are not negative. *)
Lemma SFadd_rounds (x y : spec_float) :
  SFnn x -> SFnn y ->
  Rounds (SF64add x y) (SFval x + SFval y) 1.
Proof.
  intros Hx Hy. unfold SF64add.
  destruct x as [sx|sx| |[|] mx ex]; try contradiction;
    destruct y as [sy|sy| |[|] my ey]; try contradiction.
  - apply (RoundsZero _ _ _ (sx && sy)); [reflexivity|].
    cbn [SFadd]. now destruct sx, sy.
  - cbn [SFadd]. replace (SFval (S754_zero sx) + SFval (S754_finite false my ey))
      with (SFval (S754_finite false my ey)) by (cbn [SFval]; lia).
    now apply Rounds_self.
  - cbn [SFadd]. replace (SFval (S754_finite false mx ex) + SFval (S754_zero sy))
      with (SFval (S754_finite false mx ex)) by (cbn [SFval]; lia).
    now apply Rounds_self.
  - destruct (SFnn_finite mx ex Hx) as (_ & Hex & Hvx).
    destruct (SFnn_finite my ey Hy) as (_ & Hey & Hvy).
    cbn [SFadd]. set (ez := Z.min ex ey).
    pose proof (shl_align_scaled mx ex ez ltac:(lia)) as Hax.
    pose proof (shl_align_scaled my ey ez ltac:(lia)) as Hay.
    cbn [cond_Zopp].
    set (D := Zpos (fst (shl_align mx ex ez)) + Zpos (fst (shl_align my ey ez))).
    assert (HD : D * 2 ^ (ez - emin)
                 = SFval (S754_finite false mx ex) + SFval (S754_finite false my ey)).
    { subst D. rewrite Z.mul_add_distr_r, Hax, Hay, Hvx, Hvy. reflexivity. }
    rewrite <- HD. apply binary_normalize_rounds; lia.
Qed.

(** The product of two canonical mantissas is fine enough for its
    magnitude. *)
Lemma mul_fine (mx my : positive) (ex ey : Z) :
  canonical_mantissa prec emax mx ex = true ->
  canonical_mantissa prec emax my ey = true ->
  ex + ey <= fexp prec emax (Zpos (digits2_pos (mx * my)) + (ex + ey)).
Proof.
  intros Hx Hy.
  apply canonical_fexp in Hx, Hy.
  pose proof (digits2_pos_lower mx) as Lx.
  pose proof (digits2_pos_lower my) as Ly.
  pose proof (digits2_pos_bound (mx * my)) as Up.
  assert (Hd : Zpos (digits2_pos mx) + Zpos (digits2_pos my) - 1
               <= Zpos (digits2_pos (mx * my))).
  { assert (Hpow : 2 ^ (Zpos (digits2_pos mx) - 1 + (Zpos (digits2_pos my) - 1))
                   < 2 ^ Zpos (digits2_pos (mx * my))).
    { rewrite Z.pow_add_r by lia.
      apply Z.le_lt_trans with (Zpos (mx * my)); [|assumption].
      rewrite Pos2Z.inj_mul.
      apply Z.mul_le_mono_nonneg; try assumption; apply Z.pow_nonneg; lia. }
    apply Z.pow_lt_mono_r_iff in Hpow; lia. }
  clear Lx Ly Up. unfold fexp, emin, prec, emax in *. lia.
Qed.

(** A product of two numbers that are not negative. *)
Lemma SFmul_rounds (x y : spec_float) :
  SFnn x -> SFnn y ->
  Rounds (SF64mul x y) (SFval x * SFval y) (2 ^ (- emin)).
Proof.
  intros Hx Hy. unfold SF64mul.
  destruct x as [sx|sx| |[|] mx ex]; try contradiction;
    destruct y as [sy|sy| |[|] my ey]; try contradiction; cbn [SFmul xorb].
  - now apply (RoundsZero _ _ _ (xorb sx sy)).
  - apply (RoundsZero _ _ _ (xorb sx false)); reflexivity.
  - apply (RoundsZero _ _ _ sy); [cbn [SFval]; lia | reflexivity].
  - destruct (SFnn_finite mx ex Hx) as (Hcx & Hex & Hvx).
    destruct (SFnn_finite my ey Hy) as (Hcy & Hey & Hvy).
    apply (RoundsAux _ _ _ (Zpos (mx * my)) (ex + ey) loc_Exact (Zpos (mx * my)) 1
             (ex + ey - 2 * emin) (- emin)); try lia.
    + apply code_exact.
    + cbn [Zdigits2]. now apply mul_fine.
    + unfold emin, prec, emax. lia.
    + rewrite Hvx, Hvy, Pos2Z.inj_mul.
      replace (ex + ey - 2 * emin) with ((ex - emin) + (ey - emin)) by lia.
      rewrite Z.pow_add_r by lia. ring.
    + reflexivity.
Qed.

Lemma new_location_code (q mb r : Z) :
  0 <= r < mb ->
  code (shr_record_of_loc q (new_location mb r)) = 4 * q + classQ r mb.
Proof.
  intros Hr. unfold new_location, new_location_even, new_location_odd, classQ.
  change IntDef.Z.even with Z.even.
  destruct (Z.even mb) eqn:Ev; destruct (Z.eqb_spec r 0) as [E0 | E0];
    try (unfold code; cbn; lia).
  - destruct (Z.compare_spec (2 * r) mb); unfold code; cbn; lia.
  - assert (Hne : 2 * r <> mb).
    { intros E. rewrite <- E, Z.even_mul in Ev. discriminate. }
    destruct (Z.compare_spec (2 * r + 1) mb); destruct (Z.compare_spec (2 * r) mb);
      try lia; unfold code; cbn; lia.
Qed.

(** What [SFdiv_core_binary] hands to [binary_round_aux]: the quotient of
    the first mantissa, shifted left far enough, by the second, with the
    rounding bits that place the exact quotient. *)
Lemma SFdiv_core_spec (ma mb : positive) (ea eb : Z) :
  exists q e' l,
    SFdiv_core_binary prec emax (Zpos ma) ea (Zpos mb) eb = (q, e', l) /\
    0 <= ea - eb - e' /\ 0 <= q /\
    code (shr_record_of_loc q l) = codeQ (Zpos ma * 2 ^ (ea - eb - e')) (Zpos mb) /\
    e' <= fexp prec emax (Zdigits2 q + e').
Proof.
  unfold SFdiv_core_binary. cbn [Zdigits2]. change IntDef.Z.min with Z.min.
  set (k := Zpos (digits2_pos ma) + ea - (Zpos (digits2_pos mb) + eb)).
  set (e' := Z.min (fexp prec emax k) (ea - eb)).
  set (s := ea - eb - e').
  assert (Hs : 0 <= s) by (subst s e'; lia).
  assert (Hm' : match s with
                | 0 => Zpos ma
                | Zpos _ => IntDef.Z.shiftl (Zpos ma) s
                | Zneg _ => 0
                end = Zpos ma * 2 ^ s).
  { destruct s as [|n|n] eqn:Es; try lia.
    change IntDef.Z.shiftl with Z.shiftl. now rewrite Z.shiftl_mul_pow2 by lia. }
  rewrite Hm'. set (m' := Zpos ma * 2 ^ s).
  pose proof (pow2_pos s Hs) as HPs.
  assert (Hm'pos : 0 < m') by (subst m'; lia).
  pose proof (Z.div_mod m' (Zpos mb) ltac:(lia)) as Ediv.
  pose proof (Z.mod_pos_bound m' (Zpos mb) ltac:(lia)) as Bmod.
  change IntDef.Z.div_eucl with Z.div_eucl.
  assert (Heucl : Z.div_eucl m' (Zpos mb) = (m' / Zpos mb, m' mod Zpos mb)).
  { unfold Z.div, Z.modulo. now destruct (Z.div_eucl m' (Zpos mb)). }
  rewrite Heucl.
  exists (m' / Zpos mb), e', (new_location (Zpos mb) (m' mod Zpos mb)).
  assert (Hq0 : 0 <= m' / Zpos mb) by (apply Z.div_pos; lia).
  split; [reflexivity|]. split; [exact Hs|]. split; [exact Hq0|]. split.
  - rewrite new_location_code by assumption. reflexivity.
  - pose proof (fexp_emin (Zdigits2 (m' / Zpos mb) + e')) as Hmin.
    destruct (Z.le_gt_cases e' emin) as [Hle | Hgt]; [lia|].
    assert (Hk : e' <= k - prec).
    { subst e'. unfold fexp in *. lia. }
    pose proof (digits2_pos_lower ma) as La.
    pose proof (digits2_pos_bound mb) as Ub.
    assert (Hq : 2 ^ (prec - 1) <= m' / Zpos mb).
    { apply Z.div_le_lower_bound; [lia|].
      apply Z.le_trans with (2 ^ Zpos (digits2_pos mb) * 2 ^ (prec - 1)).
      - apply Z.mul_le_mono_nonneg_r; [apply Z.pow_nonneg|]; lia.
      - rewrite <- Z.pow_add_r by (unfold prec; lia).
        apply Z.le_trans with (2 ^ (Zpos (digits2_pos ma) - 1) * 2 ^ s).
        + rewrite <- Z.pow_add_r by lia. apply Z.pow_le_mono_r; [lia|].
          subst s k. lia.
        + subst m'. apply Z.mul_le_mono_nonneg_r; lia. }
    pose proof (Zdigits2_bound (m' / Zpos mb) Hq0) as Uq.
    assert (Hdq : prec - 1 < Zdigits2 (m' / Zpos mb)).
    { apply (Z.pow_lt_mono_r_iff 2); [lia | apply Zdigits2_nonneg | lia]. }
    unfold fexp. lia.
Qed.

(** A quotient of a number that is not negative by a positive one. *)
Lemma SFdiv_rounds (a b : spec_float) :
  SFnn a -> SFnn b -> 0 < SFval b ->
  Rounds (SF64div a b) (SFval a * 2 ^ (- emin)) (SFval b).
Proof.
  intros Ha Hb Hpos. unfold SF64div.
  destruct b as [sb|sb| |[|] mb eb]; try contradiction;
    [cbn [SFval] in Hpos; lia|].
  destruct a as [sa|sa| |[|] ma ea]; try contradiction; cbn [SFdiv xorb].
  - apply (RoundsZero _ _ _ (xorb sa false)); reflexivity.
  - destruct (SFnn_finite ma ea Ha) as (_ & Hea & Hva).
    destruct (SFnn_finite mb eb Hb) as (_ & Heb & Hvb).
    destruct (SFdiv_core_spec ma mb ea eb) as (q & e' & l & -> & Hs & Hq & Hc & Hf).
    assert (Hemin : emin = -1074) by reflexivity.
    set (p := Z.max 0 (e' - emin)).
    apply (RoundsAux _ _ _ q e' l (Zpos ma * 2 ^ (ea - eb - e')) (Zpos mb)
             p (p - (e' - emin))); try lia.
    + rewrite Hva, Hvb.
      transitivity (Zpos ma * Zpos mb
                    * (2 ^ (ea - eb - e') * 2 ^ (eb - emin) * 2 ^ p)); [ring|].
      transitivity (Zpos ma * Zpos mb
                    * (2 ^ (ea - emin) * 2 ^ (- emin) * 2 ^ (p - (e' - emin)))); [|ring].
      f_equal. rewrite <- !Z.pow_add_r by lia. f_equal. lia.
    + reflexivity.
Qed.

End DoubleFacts.

(** * The program on IEEE-754 doubles *)

Module Doubles.

Import DoubleFacts.
Local Open Scope float_scope.

(** The curve of the specification's concrete scenario. *)
Definition scenario : BezierCurve := newCurve (0, 0, 0) (1, 1, 0) (2, 0, 0).

(** The same curve traversed backwards. *)
Definition scenarioBack : BezierCurve := newCurve (2, 0, 0) (1, 1, 0) (0, 0, 0).

(** Two curves that share the end point [(2, 0, 0)]: the seam is kept
    once, and the points the way back passes again stay in the output. *)
Example arcToConstellation_there_and_back :
  arcToConstellation (newArc [scenario; scenarioBack]) 2
  = [(0, 0, 0); (1, 0.5, 0); (2, 0, 0); (1, 0.5, 0); (0, 0, 0)].
Proof. vm_compute. reflexivity. Qed.


(** C9: the curve with control points (0,0,0), (1,1,0), (2,0,0) sampled
    with two divisions gives (0,0,0), (1,0.5,0), (2,0,0), which are the
    values of the Bezier formula at 0, 0.5 and 1. *)
Theorem getPointsOnCurve_scenario :
  getPointsOnCurve scenario 2 = [(0, 0, 0); (1, 0.5, 0); (2, 0, 0)] /\
  map (getPointOnCurve scenario) [0; 0.5; 1] = [(0, 0, 0); (1, 0.5, 0); (2, 0, 0)].
Proof. split; vm_compute; reflexivity. Qed.

(** C5 as stated fails: a call at three divisions between two calls at
    two divisions replaces the cached table, so the third call builds a
    new array (equal entries, another identity, one more allocation). *)
Lemma getCurveLengths_other_count_evicts :
  let '(a1, c1, n1) := getCurveLengths scenario 2 0%nat in
  let '(a2, c2, n2) := getCurveLengths c1 3 n1 in
  let '(a3, c3, n3) := getCurveLengths c2 2 n2 in
  getCurveLengths c2 2 n2 <> (a1, c2, n2) /\
  ident a3 <> ident a1 /\ n3 = S n2 /\ items a3 = items a1.
Proof.
  vm_compute. repeat split; try discriminate.
Qed.

(** C3 as stated fails: [if (distance)] takes a supplied distance of 0
    for an absent one, so the target is [u * total] and not 0.  On the
    scenario curve with [u = 0.5] the result is just below 0.5, where the
    target arc length 0 maps to 0. *)
Lemma getCurveUtoTMapping_zero_distance_ignored :
  let table := items (fst (fst (getCurveLengths scenario curveResolution 0%nat))) in
  (targetOf table 0.5 (Some 0) =? 0) = false /\
  fst (fst (getCurveUtoTMapping scenario 0.5 (Some 0) 0%nat)) = 0x1.ffffffffffffep-2 /\
  mapUtoT table 0 = 0.
Proof.
  vm_compute. repeat split.
Qed.

(** C2 as stated fails: with a distance beyond the total arc length the
    search ends on the last index, the entry after it is read past the end
    of the table ([undefined]) and the result is [NaN]. *)
Lemma getCurveUtoTMapping_beyond_total_is_NaN :
  let table := items (fst (fst (getCurveLengths scenario curveResolution 0%nat))) in
  length table = 129%nat /\
  (to_number (lastItem (fst (fst (getCurveLengths scenario curveResolution 0%nat)))) <? 100) = true /\
  searchLoop (length table) table 100 0 128 = 128%Z /\
  index table (128 + 1) = None /\
  fst (fst (getCurveUtoTMapping scenario 0.5 (Some 100) 0%nat)) = nan.
Proof.
  vm_compute. repeat split.
Qed.

(** A point whose coordinates are finite doubles. *)
Definition finiteVec (v : Vec3) : bool :=
  is_finite (v0 v) && is_finite (v1 v) && is_finite (v2 v).

Lemma getPointOnCurve_start (p0 p1 p2 : Vec3) (cache : option NumArray) :
  finiteVec p0 = true -> finiteVec p1 = true -> finiteVec p2 = true ->
  equals (getPointOnCurve (mkCurve (p0, p1, p2) cache) 0) p0 = true.
Proof.
  unfold finiteVec. intros H0 H1 H2.
  apply andb_true_iff in H0, H1, H2.
  destruct H0 as [H0 H0z], H1 as [H1 H1z], H2 as [H2 H2z].
  apply andb_true_iff in H0, H1, H2.
  destruct H0 as [H0x H0y], H1 as [H1x H1y], H2 as [H2x H2y].
  unfold equals, getPointOnCurve. cbn [points v0 v1 v2 fst snd].
  rewrite !(QuadraticBezier_start) by assumption. reflexivity.
Qed.

Lemma getPointOnCurve_end (p0 p1 p2 : Vec3) (cache : option NumArray) :
  finiteVec p0 = true -> finiteVec p1 = true -> finiteVec p2 = true ->
  equals (getPointOnCurve (mkCurve (p0, p1, p2) cache) 1) p2 = true.
Proof.
  unfold finiteVec. intros H0 H1 H2.
  apply andb_true_iff in H0, H1, H2.
  destruct H0 as [H0 H0z], H1 as [H1 H1z], H2 as [H2 H2z].
  apply andb_true_iff in H0, H1, H2.
  destruct H0 as [H0x H0y], H1 as [H1x H1y], H2 as [H2x H2y].
  unfold equals, getPointOnCurve. cbn [points v0 v1 v2 fst snd].
  rewrite !(QuadraticBezier_end) by assumption. reflexivity.
Qed.

(** C7: for a curve with finite control points and at least one division
    (a count a double holds exactly), [getPointsOnCurve] returns
    [divisions + 1] points, the first [===] to the start control point in
    every coordinate and the last to the end control point. *)
Theorem getPointsOnCurve_endpoints
    (p0 p1 p2 : Vec3) (cache : option NumArray) (d : nat) :
  finiteVec p0 = true -> finiteVec p1 = true -> finiteVec p2 = true ->
  (1 <= d)%nat -> (Z.of_nat d < 2 ^ 53)%Z ->
  let pts := getPointsOnCurve (mkCurve (p0, p1, p2) cache) d in
  length pts = S d /\
  exists first last,
    nth_error pts 0 = Some first /\ nth_error pts d = Some last /\
    equals first p0 = true /\ equals last p2 = true.
Proof.
  intros H0 H1 H2 Hd Hd53 pts. subst pts. unfold getPointsOnCurve.
  split; [now rewrite length_map, length_seq|].
  exists (getPointOnCurve (mkCurve (p0, p1, p2) cache) 0),
         (getPointOnCurve (mkCurve (p0, p1, p2) cache) 1).
  assert (Hz : (0 < Z.of_nat d < 2 ^ 53)%Z) by lia.
  split; [|split; [|split]].
  - cbn [seq map nth_error]. do 2 f_equal.
    unfold num_of_nat. cbn [num_div num_of_Z JSNumber Z.of_nat].
    now apply zero_div_counter.
  - rewrite nth_error_map, nth_error_seq.
    destruct (Nat.ltb_spec d (S d)) as [_|]; [|lia].
    cbn [option_map Nat.add]. do 2 f_equal.
    unfold num_of_nat. cbn [num_div num_of_Z JSNumber].
    now apply counter_div_self.
  - now apply getPointOnCurve_start.
  - now apply getPointOnCurve_end.
Qed.

Lemma getPointsOnCurve_endpoints_witness :
  let pts := getPointsOnCurve scenario 2 in
  length pts = 3%nat /\
  exists first last,
    nth_error pts 0 = Some first /\ nth_error pts 2 = Some last /\
    equals first (0, 0, 0) = true /\ equals last (2, 0, 0) = true.
Proof.
  apply (getPointsOnCurve_endpoints (0, 0, 0) (1, 1, 0) (2, 0, 0) None 2);
    [reflexivity | reflexivity | reflexivity | lia | reflexivity].
Defined.

(** ** Cumulative lengths on doubles *)

(** No entry is [NaN]. *)
Definition noNaN (l : list float) : bool := forallb (fun x => negb (is_nan x)) l.

Lemma distanceTo_notneg (p q : Vec3) : notneg (distanceTo p q) = true.
Proof. unfold distanceTo. apply sqrt_notneg. Qed.

(** Each entry is the entry before it (or [s], for the first) plus a
    term that is not negative. *)
Fixpoint sumsFrom (s : float) (l : list float) : Prop :=
  match l with
  | [] => True
  | x :: l' => (exists d, notneg d = true /\ x = s + d) /\ sumsFrom x l'
  end.

Lemma sumsFrom_notneg (l : list float) :
  forall s, notneg s = true -> sumsFrom s l ->
            forall i x, nth_error l i = Some x -> notneg x = true.
Proof.
  induction l as [|y l IH]; intros s Hs Hl i x Hx.
  - destruct i; discriminate.
  - destruct Hl as [(d & Hd & ->) Hl].
    pose proof (proj1 (add_notneg s d Hs Hd)) as Hy.
    destruct i as [|i]; cbn in Hx.
    + now injection Hx as <-.
    + exact (IH _ Hy Hl i x Hx).
Qed.

Lemma sumsFrom_nonDecreasing (l : list float) :
  forall s, notneg s = true -> sumsFrom s l -> noNaN l = true ->
            nonDecreasing (s :: l).
Proof.
  induction l as [|y l IH]; intros s Hs Hl Hn i a b Ha Hb.
  - destruct i; discriminate.
  - destruct Hl as [(d & Hd & ->) Hl].
    cbn [noNaN forallb] in Hn. apply andb_true_iff in Hn. destruct Hn as [Hy Hn].
    apply negb_true_iff in Hy.
    destruct (add_notneg s d Hs Hd) as [Hy' Hle].
    destruct i as [|i].
    + cbn in Ha, Hb. injection Ha as <-. injection Hb as <-.
      exact (Hle Hy).
    + exact (IH _ Hy' Hl Hn i a b Ha Hb).
Qed.

Lemma lengthsLoop_sumsFrom (curve : BezierCurve) (d : nat) (ps : list nat) :
  forall (lastp : Vec3) (sum : float),
    sumsFrom sum (lengthsLoop curve d ps lastp sum).
Proof.
  induction ps as [|p ps IH]; intros lastp sum; cbn [lengthsLoop sumsFrom].
  - exact I.
  - split; [|apply IH]. eexists. split; [|reflexivity]. apply distanceTo_notneg.
Qed.

Lemma computeCurveLengths_nonDecreasing (curve : BezierCurve) (d : nat) :
  noNaN (computeCurveLengths curve d) = true ->
  nonDecreasing (computeCurveLengths curve d).
Proof.
  unfold computeCurveLengths. intros Hn.
  cbn [noNaN forallb] in Hn. apply andb_true_iff in Hn.
  apply sumsFrom_nonDecreasing; [reflexivity | apply lengthsLoop_sumsFrom | apply Hn].
Qed.

(** The length of a curve is not negative (or is [NaN]). *)
Lemma getCurveLength_notneg (curve : BezierCurve) (n : nat) :
  cacheValid curve ->
  let '(len, curve', n') := getCurveLength curve n in
  notneg (to_number len) = true /\ cacheValid curve'.
Proof.
  intros Hv. unfold getCurveLength, bind.
  pose proof (@getCurveLengths_items _ _ curve curveResolution n Hv) as Hi.
  destruct (getCurveLengths curve curveResolution n) as [[a curve'] n'].
  destruct Hi as (Hi & _ & Hv'). cbv [ret]. split; [|assumption].
  assert (Hne : items a <> [])
    by (rewrite Hi; unfold computeCurveLengths; discriminate).
  rewrite lastItem_nth by exact Hne. rewrite Hi.
  destruct (nth_error _ _) as [x|] eqn:Ex; [|reflexivity].
  cbn [to_number]. unfold computeCurveLengths in Ex.
  destruct (length _ - 1)%nat as [|i]; cbn [nth_error] in Ex.
  - now injection Ex as <-.
  - apply (sumsFrom_notneg _ 0 eq_refl (lengthsLoop_sumsFrom _ _ _ _ _) i x Ex).
Qed.

Lemma pathLoop_sumsFrom (cs : list BezierCurve) :
  forall (sums : float) (n : nat),
    Forall cacheValid cs ->
    let '(lengths, cs', n') := pathLoop cs sums n in
    sumsFrom sums lengths /\ length lengths = length cs.
Proof.
  induction cs as [|curve cs IH]; intros sums n Hv.
  - cbn. now split.
  - inversion Hv as [|? ? Hv1 Hv2]. subst.
    cbn [pathLoop]. unfold bind at 1.
    pose proof (getCurveLength_notneg curve n Hv1) as Hlen.
    destruct (getCurveLength curve n) as [[len curve'] n'].
    destruct Hlen as [Hlen _]. unfold bind at 1.
    pose proof (IH (sums + to_number len) n' Hv2) as Hrest.
    cbn [num_add JSNumber].
    destruct (pathLoop cs (sums + to_number len) n') as [[lengths cs''] n''].
    destruct Hrest as [Ha Hl]. cbv [ret]. cbn [sumsFrom length].
    split; [split; [|assumption] | now rewrite Hl].
    exists (to_number len). now split.
Qed.


(** ** Zero-length segments on doubles *)

Lemma below_SF (T x : float) :
  below T (Some x) = SFneg (SF64sub (Prim2SF x) (Prim2SF T)).
Proof.
  unfold below, SFneg. cbn [to_number num_ltb num_sub num_of_Z JSNumber float_of_Z].
  now rewrite ltb_spec, sub_spec.
Qed.

Lemma above_SF (T x : float) :
  above T (Some x) = SFpos (SF64sub (Prim2SF x) (Prim2SF T)).
Proof.
  unfold above, SFpos. cbn [to_number num_ltb num_sub num_of_Z JSNumber float_of_Z].
  now rewrite ltb_spec, sub_spec.
Qed.

Lemma eqb_not_nan (x y : float) : (x =? y) = true -> Prim2SF x <> S754_nan.
Proof. rewrite eqb_spec. intros H E. rewrite E in H. discriminate. Qed.

(** When the entry the search ends on [===] the entry after it, the
    search stopped on an entry [===] to the target, and [mapUtoT] returns
    the normalized index. *)
Lemma mapUtoT_zero_segment (A : list float) (T x y : float) :
  let i := searchLoop (length A) A T 0 (Z.of_nat (length A) - 1) in
  is_nan T = false ->
  index A i = Some x -> index A (i + 1) = Some y -> (x =? y) = true ->
  mapUtoT A T = num_div (num_of_Z i) (num_of_Z (Z.of_nat (length A) - 1)).
Proof.
  intros i HT Hx Hy Hxy.
  pose proof (@index_Some_range _ A i x Hx) as Hi.
  pose proof (@index_Some_range _ A (i + 1) y Hy) as Hi1.
  assert (Hhit : (x =? T) = true).
  { pose proof (@searchLoop_exit _ _ A T (length A) 0 (Z.of_nat (length A) - 1)
                  ltac:(lia) ltac:(lia)) as Hexit.
    change (SearchExit A T 0 (Z.of_nat (length A) - 1) i) in Hexit.
    destruct Hexit as [_ Hb Ha | _ Hup Hdown].
    - rewrite Hx in Hb, Ha. rewrite below_SF in Hb. rewrite above_SF in Ha.
      rewrite eqb_spec.
      apply SFsub_neither; try apply Prim2SF_valid; try assumption.
      + exact (eqb_not_nan x y Hxy).
      + now apply is_nan_SF.
    - exfalso.
      destruct Hup as [E | [_ Ha]]; [lia|].
      destruct Hdown as [E | Hb]; [lia|].
      rewrite Hx, below_SF in Hb. rewrite Hy, above_SF in Ha.
      rewrite eqb_spec in Hxy.
      exact (SFsub_sides _ _ _ Hxy Hb Ha). }
  unfold mapUtoT. change (searchLoop (length A) A T 0 (Z.of_nat (length A) - 1)) with i.
  rewrite Hx. cbn [num_eqb JSNumber]. now rewrite Hhit.
Qed.

(** C4, amended: when the target arc length is not [NaN] and the entry
    the search ends on [===] the entry after it (a segment of length
    zero), [getCurveUtoTMapping] returns the index divided by the table
    length minus one, without dividing by the segment length.  Nothing
    guards the division: the exact-hit test comes first, and with a [NaN]
    target it fails. *)
Theorem getCurveUtoTMapping_zero_segment
    (curve : BezierCurve) (u : float) (distance : option float) (n : nat)
    (x y : float) :
  cacheValid curve ->
  let table := computeCurveLengths curve curveResolution in
  let target := targetOf table u distance in
  let i := searchLoop (length table) table target 0 (Z.of_nat (length table) - 1) in
  is_nan target = false ->
  index table i = Some x -> index table (i + 1) = Some y -> (x =? y) = true ->
  fst (fst (getCurveUtoTMapping curve u distance n))
  = num_div (num_of_Z i) (num_of_Z (Z.of_nat (length table) - 1)).
Proof.
  intros Hv. rewrite getCurveUtoTMapping_table by assumption.
  generalize (computeCurveLengths curve curveResolution). intros table.
  cbv zeta. intros HT Hx Hy Hxy.
  exact (mapUtoT_zero_segment table _ x y HT Hx Hy Hxy).
Qed.

(** A curve whose three control points coincide: every segment of its
    table has length zero. *)
Definition still : BezierCurve := newCurve (1, 2, 3) (1, 2, 3) (1, 2, 3).

Lemma getCurveUtoTMapping_zero_segment_witness :
  let table := computeCurveLengths still curveResolution in
  let target := targetOf table 0.5 None in
  let i := searchLoop (length table) table target 0 (Z.of_nat (length table) - 1) in
  is_nan target = false /\
  index table i = Some 0 /\ index table (i + 1) = Some 0 /\
  fst (fst (getCurveUtoTMapping still 0.5 None 0%nat))
  = num_div (num_of_Z i) (num_of_Z (Z.of_nat (length table) - 1)).
Proof.
  split; [vm_compute; reflexivity|].
  split; [vm_compute; reflexivity|].
  split; [vm_compute; reflexivity|].
  apply (getCurveUtoTMapping_zero_segment still 0.5 None 0%nat 0 0).
  - intros a E. discriminate.
  - vm_compute. reflexivity.
  - vm_compute. reflexivity.
  - vm_compute. reflexivity.
  - reflexivity.
Defined.

(** A curve with finite control points next to the largest double: its
    first samples coincide, so the first entries of its table are all 0,
    and its last segments overflow, so its length is [Infinity]. *)
Definition nearMax : BezierCurve :=
  newCurve (0x1.ffffffffffffep+1023, 0, 0) (0x1.ffffffffffffep+1023, 0, 0)
           (0x1.fffffffffffffp+1023, 0, 0).

(** C4 as stated fails: with [u = 0] on this curve the target is
    [0 * Infinity = NaN], the search stops on index 64, the entries at 64
    and 65 are both 0, the exact-hit test fails and the division by the
    zero segment length is performed: the result is [NaN], not
    [64 / 128]. *)
Lemma getCurveUtoTMapping_zero_segment_divided :
  let table := computeCurveLengths nearMax curveResolution in
  let target := targetOf table 0 None in
  let i := searchLoop (length table) table target 0 (Z.of_nat (length table) - 1) in
  i = 64%Z /\
  index table i = Some 0 /\ index table (i + 1) = Some 0 /\
  num_div (num_of_Z i) (num_of_Z (Z.of_nat (length table) - 1)) = 0.5 /\
  fst (fst (getCurveUtoTMapping nearMax 0 None 0%nat)) = nan.
Proof. repeat split; vm_compute; reflexivity. Qed.

(** ** Targets beyond the table and supplied distances *)

Lemma ltb_SFnum (x y : float) :
  (x <? y) = true -> SFnum (Prim2SF x) /\ SFnum (Prim2SF y).
Proof.
  rewrite ltb_spec. unfold SFltb, SFcompare. intros H.
  split; (split; [apply Prim2SF_valid|]); intros E; rewrite E in H;
    [|destruct (Prim2SF x)]; discriminate.
Qed.

Lemma ltb_below (x T : float) :
  (x <? T) = true ->
  below T (Some x) = true /\ above T (Some x) = false /\ (x =? T) = false.
Proof.
  intros H. destruct (ltb_SFnum x T H) as [Hx HT].
  rewrite ltb_spec, (SFltb_val _ _ Hx HT) in H. apply Z.ltb_lt in H.
  rewrite below_SF, above_SF, eqb_spec, (SFeqb_val _ _ Hx HT).
  destruct (SFsub_sign _ _ Hx HT) as [-> ->].
  repeat split; [apply Z.ltb_lt | apply Z.ltb_ge | apply Z.eqb_neq]; lia.
Qed.

Lemma SF_nan (a : float) : Prim2SF a = S754_nan -> a = nan.
Proof. intros H. apply Prim2SF_inj. rewrite H. reflexivity. Qed.

(** Interpolating with [undefined] for the entry after the bracket gives
    [NaN]. *)
Lemma interpolate_undefined (i T x N : float) :
  (i + (T - x) / (nan - x)) / N = nan.
Proof.
  apply SF_nan.
  rewrite div_spec, add_spec, div_spec, (sub_spec nan x).
  change (Prim2SF nan) with S754_nan. cbn [SF64sub SFsub].
  assert (H1 : forall a, SF64div a S754_nan = S754_nan) by (now intros [ | | | ]).
  assert (H2 : forall a, SF64add a S754_nan = S754_nan) by (now intros [ | | | ]).
  rewrite H1, H2. reflexivity.
Qed.

Lemma mapUtoT_beyond (A : list float) (T : float) :
  A <> [] ->
  forallb (fun x => x <? T) A = true ->
  searchLoop (length A) A T 0 (Z.of_nat (length A) - 1) = (Z.of_nat (length A) - 1)%Z /\
  index A (Z.of_nat (length A)) = None /\
  mapUtoT A T = nan.
Proof.
  intros Hne Hall.
  assert (Hin : forall i x, index A i = Some x -> (x <? T) = true).
  { intros i x Hx. rewrite forallb_forall in Hall. apply Hall.
    unfold index in Hx. destruct (i <? 0)%Z; [discriminate|].
    now apply nth_error_In in Hx. }
  assert (Hlen : (0 < length A)%nat) by (destruct A; [congruence | cbn; lia]).
  assert (Hi : searchLoop (length A) A T 0 (Z.of_nat (length A) - 1)
               = (Z.of_nat (length A) - 1)%Z).
  { pose proof (@searchLoop_exit _ _ A T (length A) 0 (Z.of_nat (length A) - 1)
                  ltac:(lia) ltac:(lia)) as Hexit.
    set (i := searchLoop (length A) A T 0 (Z.of_nat (length A) - 1)) in *.
    destruct Hexit as [Hr Hb _ | Hr Hup _].
    - destruct (@index_in_range _ A i ltac:(lia)) as [x Hx].
      rewrite Hx in Hb. destruct (ltb_below x T (Hin _ _ Hx)) as (Hb' & _ & _).
      congruence.
    - destruct Hup as [E | [_ Ha]]; [exact E|].
      destruct (Z.eq_dec i (Z.of_nat (length A) - 1)) as [E | E]; [exact E|].
      destruct (@index_in_range _ A (i + 1) ltac:(lia)) as [y Hy].
      rewrite Hy in Ha. destruct (ltb_below y T (Hin _ _ Hy)) as (_ & Ha' & _).
      congruence. }
  split; [exact Hi | split].
  - unfold index. destruct (_ <? 0)%Z; [reflexivity|].
    apply nth_error_None. lia.
  - unfold mapUtoT. rewrite Hi.
    destruct (@index_in_range _ A (Z.of_nat (length A) - 1) ltac:(lia)) as [x Hx].
    rewrite Hx. destruct (ltb_below x T (Hin _ _ Hx)) as (_ & _ & He).
    cbn [num_eqb JSNumber]. rewrite He.
    replace (Z.of_nat (length A) - 1 + 1)%Z with (Z.of_nat (length A)) by lia.
    assert (Hout : index A (Z.of_nat (length A)) = None).
    { unfold index. destruct (_ <? 0)%Z; [reflexivity|]. apply nth_error_None. lia. }
    rewrite Hout. cbn [to_number num_nan num_add num_sub num_div JSNumber].
    apply interpolate_undefined.
Qed.

(** C2, amended: nothing clamps the bracket.  When the target arc length
    exceeds every entry of the table, the search ends on the last index,
    the entry after it is read past the end of the table and
    [getCurveUtoTMapping] returns [NaN]. *)
Theorem getCurveUtoTMapping_beyond_table
    (curve : BezierCurve) (u : float) (distance : option float) (n : nat) :
  cacheValid curve ->
  let table := computeCurveLengths curve curveResolution in
  let target := targetOf table u distance in
  forallb (fun x => x <? target) table = true ->
  searchLoop (length table) table target 0 (Z.of_nat (length table) - 1)
  = (Z.of_nat (length table) - 1)%Z /\
  index table (Z.of_nat (length table)) = None /\
  fst (fst (getCurveUtoTMapping curve u distance n)) = nan.
Proof.
  intros Hv. rewrite getCurveUtoTMapping_table by assumption.
  assert (Hne : computeCurveLengths curve curveResolution <> [])
    by (unfold computeCurveLengths; discriminate).
  generalize dependent (computeCurveLengths curve curveResolution). intros table Hne.
  cbv zeta. intros Hall. now apply mapUtoT_beyond.
Qed.

Lemma getCurveUtoTMapping_beyond_table_witness :
  let table := computeCurveLengths scenario curveResolution in
  searchLoop (length table) table 100 0 (Z.of_nat (length table) - 1) = 128%Z /\
  index table 129 = None /\
  fst (fst (getCurveUtoTMapping scenario 0.5 (Some 100) 0%nat)) = nan.
Proof.
  apply (getCurveUtoTMapping_beyond_table scenario 0.5 (Some 100) 0%nat).
  - intros a E. discriminate.
  - vm_compute. reflexivity.
Defined.

(** C3, amended: a supplied distance overrides [u * total] when it is
    neither zero nor [NaN]; a supplied distance of 0 is taken for an absent
    one and the target is [u * total]. *)
Theorem getCurveUtoTMapping_distance_override
    (curve : BezierCurve) (u d : float) (n : nat) :
  let lengths := fst (fst (getCurveLengths curve curveResolution n)) in
  let target := targetOf (items lengths) u (Some d) in
  target = (if is_zero d || is_nan d then u * to_number (lastItem lengths) else d) /\
  targetOf (items lengths) u (Some 0) = targetOf (items lengths) u None /\
  fst (fst (getCurveUtoTMapping curve u (Some d) n)) = mapUtoT (items lengths) target.
Proof.
  cbv zeta. split; [|split].
  - unfold targetOf, truthy, lastItem, is_zero, is_nan.
    cbn [num_eqb num_mul num_of_Z JSNumber to_number].
    change (float_of_Z 0) with zero.
    destruct (d =? zero), (d =? d); reflexivity.
  - reflexivity.
  - unfold getCurveUtoTMapping, bind.
    destruct (getCurveLengths curve curveResolution n) as [[a c] n'].
    reflexivity.
Qed.

(** ** Monotonicity of the mapping on doubles *)

(** The value of a double, in units of [2 ^ emin], and the doubles that
    are finite and not negative. *)
Definition fval (x : float) : Z := SFval (Prim2SF x).
Definition nn (x : float) : Prop := SFnn (Prim2SF x).

(** The value of [1]. *)
Definition oneVal : Z := (2 ^ (- emin))%Z.

Lemma oneVal_pos : (0 < oneVal)%Z.
Proof. reflexivity. Qed.

Lemma fval_one : fval 1 = oneVal.
Proof. reflexivity. Qed.

Lemma nn_one : nn 1.
Proof. reflexivity. Qed.

Lemma num_float (x : float) : Prim2SF x <> S754_nan -> SFnum (Prim2SF x).
Proof. intros H. split; [apply Prim2SF_valid | exact H]. Qed.

Lemma nn_num (x : float) : nn x -> SFnum (Prim2SF x).
Proof. apply SFnn_num. Qed.

Lemma nn_val (x : float) : nn x -> (0 <= fval x < 2 ^ (emax - emin))%Z.
Proof. apply SFnn_val. Qed.

Lemma nn_intro (x : float) :
  Prim2SF x <> S754_nan -> (0 <= fval x < 2 ^ (emax - emin))%Z -> nn x.
Proof.
  unfold nn, fval. intros Hn Hv. pose proof (Prim2SF_valid x) as Hb.
  destruct (Prim2SF x) as [s|s| |s m e]; try congruence; cbn [SFnn].
  - exact I.
  - cbn [SFval] in Hv. destruct s; cbn [cond_Zopp] in Hv;
      change IntDef.Z.opp with Z.opp in Hv; lia.
  - cbn [SpecFloat.valid_binary] in Hb.
    pose proof (SFval_bound m e Hb) as Hp. cbn [SFval] in Hv.
    destruct s; [|exact Hb].
    cbn [cond_Zopp] in Hv. change IntDef.Z.opp with Z.opp in Hv. lia.
Qed.

Lemma leb_num (x y : float) :
  (x <=? y) = true -> SFnum (Prim2SF x) /\ SFnum (Prim2SF y) /\ (fval x <= fval y)%Z.
Proof.
  rewrite leb_spec. intros H.
  assert (Hx : Prim2SF x <> S754_nan)
    by (intros E; rewrite E in H; cbv in H; discriminate).
  assert (Hy : Prim2SF y <> S754_nan)
    by (intros E; rewrite E in H; destruct (Prim2SF x); cbv in H; discriminate).
  pose proof (num_float x Hx) as Nx. pose proof (num_float y Hy) as Ny.
  rewrite (SFleb_val _ _ Nx Ny) in H. apply Z.leb_le in H.
  split; [exact Nx | split; [exact Ny | exact H]].
Qed.

Lemma leb_of_val (x y : float) :
  SFnum (Prim2SF x) -> SFnum (Prim2SF y) -> (fval x <= fval y)%Z -> (x <=? y) = true.
Proof.
  intros Nx Ny H. rewrite leb_spec, (SFleb_val _ _ Nx Ny). now apply Z.leb_le.
Qed.

(** Of two rounded values, the smaller gives the smaller double. *)
Lemma rounded_le (r1 r2 : float) (N1 D1 N2 D2 : Z) :
  Rounds (Prim2SF r1) N1 D1 -> Rounds (Prim2SF r2) N2 D2 ->
  (0 <= N1)%Z -> (0 < D1)%Z -> (0 < D2)%Z ->
  (N1 * D2 <= N2 * D1)%Z ->
  SFnum (Prim2SF r1) /\ SFnum (Prim2SF r2) /\ (fval r1 <= fval r2)%Z.
Proof.
  intros H1 H2 HN HD1 HD2 Hle. apply leb_num. rewrite leb_spec.
  exact (Rounds_leb _ _ _ _ _ _ H1 H2 HN HD1 HD2 Hle).
Qed.

(** A rounded value that is not negative and not above a finite double
    gives a finite double that is not negative. *)
Lemma rounded_nn (r b : float) (N D : Z) :
  Rounds (Prim2SF r) N D -> (0 <= N)%Z -> (0 < D)%Z ->
  nn b -> (N <= fval b * D)%Z ->
  nn r /\ (fval r <= fval b)%Z.
Proof.
  intros HR HN HD Hb Hle.
  destruct (rounded_le r b N D (fval b) 1 HR (Rounds_self _ Hb) HN HD ltac:(lia)
              ltac:(lia)) as (Nr & _ & Hrb).
  assert (H0 : Rounds (Prim2SF 0) 0 1) by (now apply (RoundsZero _ _ _ false)).
  destruct (rounded_le 0 r 0 1 N D H0 HR ltac:(lia) ltac:(lia) HD ltac:(lia))
    as (_ & _ & H0r).
  change (fval 0) with 0%Z in H0r.
  pose proof (nn_val b Hb). split; [|assumption].
  apply nn_intro; [apply Nr | lia].
Qed.

Lemma self_rounds (x : float) : nn x -> Rounds (Prim2SF x) (fval x) 1.
Proof. apply Rounds_self. Qed.

Lemma mul_rounds (a c : float) :
  nn a -> nn c -> Rounds (Prim2SF (a * c)) (fval a * fval c) oneVal.
Proof. intros Ha Hc. rewrite mul_spec. now apply SFmul_rounds. Qed.

Lemma sub_rounds (a c : float) :
  nn a -> nn c -> (fval c <= fval a)%Z ->
  Rounds (Prim2SF (a - c)) (fval a - fval c) 1.
Proof. intros Ha Hc Hle. rewrite sub_spec. now apply SFsub_rounds. Qed.

Lemma add_rounds (a c : float) :
  nn a -> nn c -> Rounds (Prim2SF (a + c)) (fval a + fval c) 1.
Proof. intros Ha Hc. rewrite add_spec. now apply SFadd_rounds. Qed.

Lemma div_rounds (a c : float) :
  nn a -> nn c -> (0 < fval c)%Z ->
  Rounds (Prim2SF (a / c)) (fval a * oneVal) (fval c).
Proof. intros Ha Hc Hpos. rewrite div_spec. now apply SFdiv_rounds. Qed.

(** The target [u * total] for [u] in [[0, 1]] lies between zero and
    the total, and grows with [u]. *)
Lemma unit_interval (u : float) :
  (0 <=? u) = true -> (u <=? 1) = true -> nn u /\ (fval u <= oneVal)%Z.
Proof.
  intros H0 H1.
  destruct (leb_num _ _ H0) as (_ & Nu & Hlo).
  destruct (leb_num _ _ H1) as (_ & _ & Hhi).
  change (fval 0) with 0%Z in Hlo. rewrite fval_one in Hhi.
  split; [|assumption]. apply nn_intro; [apply Nu|].
  split; [assumption|]. apply Z.le_lt_trans with oneVal; [assumption | reflexivity].
Qed.

Lemma target_bounds (u L : float) :
  nn L -> (0 <=? u) = true -> (u <=? 1) = true ->
  nn (u * L) /\ (fval (u * L) <= fval L)%Z.
Proof.
  intros HL H0 H1. destruct (unit_interval u H0 H1) as [Hu Hle].
  pose proof (proj1 (nn_val L HL)). pose proof (proj1 (nn_val u Hu)).
  pose proof oneVal_pos.
  apply (rounded_nn _ L _ _ (mul_rounds u L Hu HL)); try assumption.
  - now apply Z.mul_nonneg_nonneg.
  - rewrite (Z.mul_comm (fval u)). now apply Z.mul_le_mono_nonneg_l.
Qed.

Lemma target_mono (u1 u2 L : float) :
  nn L -> nn u1 -> nn u2 -> (fval u1 <= fval u2)%Z ->
  (fval (u1 * L) <= fval (u2 * L))%Z.
Proof.
  intros HL H1 H2 Hle.
  pose proof (proj1 (nn_val L HL)). pose proof (proj1 (nn_val u1 H1)).
  pose proof oneVal_pos.
  apply (rounded_le _ _ _ _ _ _ (mul_rounds u1 L H1 HL) (mul_rounds u2 L H2 HL));
    try assumption.
  - now apply Z.mul_nonneg_nonneg.
  - apply Z.mul_le_mono_nonneg_r; [lia|]. now apply Z.mul_le_mono_nonneg_r.
Qed.

(** *** The steps of the interpolation *)

Lemma diff_facts (x T : float) :
  nn x -> nn T -> (fval x <= fval T)%Z ->
  nn (T - x) /\ (fval (T - x) <= fval T)%Z.
Proof.
  intros Hx HT Hle. pose proof (proj1 (nn_val x Hx)).
  apply (rounded_nn _ T _ _ (sub_rounds T x HT Hx Hle)); try assumption; lia.
Qed.

Lemma diff_pos (x y : float) :
  nn x -> nn y -> (fval x < fval y)%Z -> (0 < fval (y - x))%Z.
Proof.
  intros Hx Hy Hlt.
  destruct (diff_facts x y Hx Hy ltac:(lia)) as [Hd _].
  destruct (SFsub_sign _ _ (nn_num y Hy) (nn_num x Hx)) as [_ Hp].
  unfold SFpos in Hp. rewrite <- sub_spec in Hp.
  assert (H0 : SFnum (S754_zero false)) by (split; [reflexivity | discriminate]).
  rewrite (SFltb_val _ _ H0 (nn_num _ Hd)) in Hp.
  change (SFval (S754_zero false)) with 0%Z in Hp.
  apply Z.ltb_lt. rewrite <- Z.ltb_lt in Hlt. unfold fval in *. congruence.
Qed.

Lemma diff_mono (x T1 T2 : float) :
  nn x -> nn T1 -> nn T2 ->
  (fval x <= fval T1)%Z -> (fval T1 <= fval T2)%Z ->
  (fval (T1 - x) <= fval (T2 - x))%Z.
Proof.
  intros Hx H1 H2 Hle1 Hle2.
  apply (rounded_le _ _ _ _ _ _ (sub_rounds T1 x H1 Hx Hle1)
           (sub_rounds T2 x H2 Hx ltac:(lia))); lia.
Qed.

Lemma quot_mono (a1 a2 b : float) :
  nn a1 -> nn a2 -> nn b -> (0 < fval b)%Z -> (fval a1 <= fval a2)%Z ->
  SFnum (Prim2SF (a1 / b)) /\ SFnum (Prim2SF (a2 / b)) /\
  (fval (a1 / b) <= fval (a2 / b))%Z.
Proof.
  intros H1 H2 Hb Hpos Hle.
  pose proof (proj1 (nn_val a1 H1)). pose proof oneVal_pos.
  apply (rounded_le _ _ _ _ _ _ (div_rounds a1 b H1 Hb Hpos)
           (div_rounds a2 b H2 Hb Hpos)); try assumption.
  - now apply Z.mul_nonneg_nonneg.
  - apply Z.mul_le_mono_nonneg_r; [lia|]. apply Z.mul_le_mono_nonneg_r; lia.
Qed.

Lemma frac_facts (a b : float) :
  nn a -> nn b -> (0 < fval b)%Z -> (fval a <= fval b)%Z ->
  nn (a / b) /\ (fval (a / b) <= oneVal)%Z.
Proof.
  intros Ha Hb Hpos Hle.
  pose proof (proj1 (nn_val a Ha)). pose proof oneVal_pos.
  rewrite <- fval_one.
  apply (rounded_nn _ 1 _ _ (div_rounds a b Ha Hb Hpos)); try assumption.
  - now apply Z.mul_nonneg_nonneg.
  - exact nn_one.
  - rewrite fval_one, (Z.mul_comm oneVal). apply Z.mul_le_mono_nonneg_r; lia.
Qed.

Lemma sum_facts (I I' f : float) :
  nn I -> nn I' -> nn f -> (fval f <= oneVal)%Z -> fval I' = (fval I + oneVal)%Z ->
  nn (I + f) /\ (fval I <= fval (I + f) <= fval I')%Z.
Proof.
  intros HI HI' Hf Hle E.
  pose proof (proj1 (nn_val I HI)). pose proof (proj1 (nn_val f Hf)).
  destruct (rounded_nn _ I' _ _ (add_rounds I f HI Hf)) as [Hs Hup]; try lia;
    try assumption.
  split; [assumption|]. split; [|assumption].
  apply (rounded_le _ _ _ _ _ _ (self_rounds I HI) (add_rounds I f HI Hf)); lia.
Qed.

Lemma sum_mono (I f1 f2 : float) :
  nn I -> nn f1 -> nn f2 -> (fval f1 <= fval f2)%Z ->
  (fval (I + f1) <= fval (I + f2))%Z.
Proof.
  intros HI H1 H2 Hle.
  pose proof (proj1 (nn_val I HI)). pose proof (proj1 (nn_val f1 H1)).
  apply (rounded_le _ _ _ _ _ _ (add_rounds I f1 HI H1) (add_rounds I f2 HI H2)); lia.
Qed.

(** *** Counters *)

Definition SFnnb (x : spec_float) : bool :=
  match x with
  | S754_zero _ => true
  | S754_finite false m e => SpecFloat.bounded prec emax m e
  | _ => false
  end.

Lemma SFnnb_nn (x : float) : SFnnb (Prim2SF x) = true -> nn x.
Proof.
  unfold nn. destruct (Prim2SF x) as [s|s| |[|] m e]; cbn [SFnnb SFnn];
    (discriminate || trivial).
Qed.

Lemma counter_val (i : Z) :
  (0 <= i <= 129)%Z ->
  nn (float_of_Z i) /\ fval (float_of_Z i) = (i * oneVal)%Z.
Proof.
  intros Hi.
  assert (Hall : forallb (fun k => SFnnb (Prim2SF (float_of_Z (Z.of_nat k)))
                                   && (fval (float_of_Z (Z.of_nat k))
                                       =? Z.of_nat k * oneVal)%Z)
                   (seq 0 130) = true) by (vm_compute; reflexivity).
  rewrite forallb_forall in Hall.
  specialize (Hall (Z.to_nat i)). rewrite Z2Nat.id in Hall by lia.
  assert (Hin : In (Z.to_nat i) (seq 0 130)) by (apply in_seq; lia).
  specialize (Hall Hin). apply andb_true_iff in Hall as [H1 H2].
  split; [now apply SFnnb_nn | now apply Z.eqb_eq].
Qed.

(** *** The table and the search *)

(** A table of 129 finite entries that start at zero and never
    decrease. *)
Record tableOk (A : list float) : Prop := mkTableOk {
  table_length : length A = 129%nat;
  table_nn : forall i x, index A i = Some x -> nn x;
  table_sorted : forall i j x y,
      (i <= j)%Z -> index A i = Some x -> index A j = Some y -> (fval x <= fval y)%Z;
  table_first : exists x, index A 0 = Some x /\ fval x = 0%Z
}.

Lemma below_val (T x : float) :
  SFnum (Prim2SF x) -> SFnum (Prim2SF T) ->
  below T (Some x) = (fval x <? fval T)%Z /\ above T (Some x) = (fval T <? fval x)%Z.
Proof.
  intros Hx HT. rewrite below_SF, above_SF.
  destruct (SFsub_sign _ _ Hx HT) as [-> ->]. now split.
Qed.

(** The number [mapUtoT] divides by the table length minus one: the index
    on a hit, the index plus the fraction of the segment otherwise. *)
Inductive Mapped (A : list float) (T : float) (i : Z) (s : float) : Prop :=
  | Hit (x : float) :
      index A i = Some x -> fval x = fval T ->
      s = float_of_Z i ->
      Mapped A T i s
  | Between (x y : float) :
      index A i = Some x -> index A (i + 1) = Some y ->
      (fval x < fval T)%Z -> (fval T < fval y)%Z ->
      s = float_of_Z i + (T - x) / (y - x) ->
      Mapped A T i s.

Lemma mapUtoT_mapped (A : list float) (T L : float) :
  tableOk A -> nn T ->
  index A 128 = Some L -> (fval T <= fval L)%Z ->
  exists s, mapUtoT A T = s / float_of_Z 128 /\
            Mapped A T (searchLoop 129 A T 0 128) s.
Proof.
  intros HA HT HL HTL.
  pose proof (table_length A HA) as Hlen.
  pose proof (@searchLoop_exit _ _ A T 129 0 128 ltac:(lia) ltac:(lia)) as Hexit.
  unfold mapUtoT. rewrite Hlen. change (Z.of_nat 129 - 1)%Z with 128%Z.
  set (i := searchLoop 129 A T 0 128) in *.
  pose proof (proj1 (nn_val T HT)) as HT0.
  assert (Hcmp : forall j x, index A j = Some x ->
             below T (Some x) = (fval x <? fval T)%Z /\
             above T (Some x) = (fval T <? fval x)%Z).
  { intros j x Hx. apply below_val; apply nn_num; [|assumption].
    exact (table_nn A HA j x Hx). }
  assert (Heq : forall j x, index A j = Some x -> (x =? T) = (fval x =? fval T)%Z).
  { intros j x Hx. rewrite eqb_spec. apply SFeqb_val; apply nn_num; [|assumption].
    exact (table_nn A HA j x Hx). }
  destruct Hexit as [Hr Hb Ha | Hr Hup Hdown].
  - destruct (@index_in_range _ A i ltac:(lia)) as [x Hx].
    rewrite Hx in Hb, Ha. destruct (Hcmp i x Hx) as [Eb Ea].
    rewrite Eb in Hb. rewrite Ea in Ha.
    apply Z.ltb_ge in Hb, Ha.
    exists (float_of_Z i). split.
    + rewrite Hx. cbn [num_eqb num_div num_of_Z JSNumber].
      rewrite (Heq i x Hx). replace (fval x =? fval T)%Z with true; [reflexivity|].
      symmetry. apply Z.eqb_eq. lia.
    + apply (Hit A T i _ x); [assumption | lia | reflexivity].
  - destruct (table_first A HA) as (x0 & Hx0 & Hv0).
    destruct (Z.eq_dec i (-1)) as [Em | Em].
    { exfalso. destruct Hup as [E | [_ Ha]]; [lia|].
      rewrite Em in Ha. change (-1 + 1)%Z with 0%Z in Ha. rewrite Hx0 in Ha.
      rewrite (proj2 (Hcmp 0%Z x0 Hx0)) in Ha. apply Z.ltb_lt in Ha. lia. }
    destruct Hdown as [E | Hb]; [lia|].
    destruct (@index_in_range _ A i ltac:(lia)) as [x Hx].
    rewrite Hx in Hb. rewrite (proj1 (Hcmp i x Hx)) in Hb. apply Z.ltb_lt in Hb.
    destruct (Z.eq_dec i 128) as [El | El].
    { exfalso. rewrite El in Hx. assert (x = L) by congruence. subst x. lia. }
    destruct Hup as [E | [_ Ha]]; [lia|].
    destruct (@index_in_range _ A (i + 1) ltac:(lia)) as [y Hy].
    rewrite Hy in Ha. rewrite (proj2 (Hcmp _ y Hy)) in Ha. apply Z.ltb_lt in Ha.
    exists (float_of_Z i + (T - x) / (y - x)). split.
    + rewrite Hx, Hy. cbn [num_eqb num_div num_add num_sub num_of_Z JSNumber to_number].
      rewrite (Heq i x Hx). replace (fval x =? fval T)%Z with false; [reflexivity|].
      symmetry. apply Z.eqb_neq. lia.
    + apply (Between A T i _ x y); (assumption || reflexivity).
Qed.

(** The search sees the target only through its value. *)
Lemma searchLoop_value (A : list float) (T1 T2 : float) :
  (forall i x, index A i = Some x -> nn x) ->
  nn T1 -> nn T2 -> fval T1 = fval T2 ->
  forall fuel low high,
    searchLoop fuel A T1 low high = searchLoop fuel A T2 low high.
Proof.
  intros HA H1 H2 E.
  assert (Hcmp : forall j,
             below T1 (index A j) = below T2 (index A j) /\
             above T1 (index A j) = above T2 (index A j)).
  { intros j. destruct (index A j) as [x|] eqn:Hx.
    - destruct (below_val T1 x (nn_num x (HA j x Hx)) (nn_num T1 H1)) as [-> ->].
      destruct (below_val T2 x (nn_num x (HA j x Hx)) (nn_num T2 H2)) as [-> ->].
      now rewrite E.
    - unfold below, above. cbn [to_number num_nan num_sub num_ltb num_of_Z JSNumber].
      rewrite !ltb_spec, !sub_spec. split; reflexivity. }
  induction fuel as [|fuel IH]; intros low high; cbn [searchLoop]; [reflexivity|].
  destruct (low <=? high)%Z; [|reflexivity].
  set (j := (low + (high - low) / 2)%Z).
  destruct (Hcmp j) as [Eb Ea]. unfold below, above in Eb, Ea.
  rewrite Eb, Ea. now rewrite !IH.
Qed.

Lemma index_range_129 (A : list float) (i : Z) (x : float) :
  length A = 129%nat -> index A i = Some x -> (0 <= i <= 128)%Z.
Proof.
  intros Hlen Hx. pose proof (@index_Some_range _ A i x Hx) as H.
  rewrite Hlen in H. lia.
Qed.

(** The number divided lies between the index and the index plus one. *)
Lemma numerator_bounds (A : list float) (T : float) (i : Z) (s : float) :
  tableOk A -> nn T -> Mapped A T i s ->
  (0 <= i <= 128)%Z /\ nn s /\ (i * oneVal <= fval s <= (i + 1) * oneVal)%Z.
Proof.
  intros HA HT [x Hx Hv -> | x y Hx Hy Hlt Hgt ->].
  - pose proof (index_range_129 A i x (table_length A HA) Hx) as Hi.
    destruct (counter_val i ltac:(lia)) as [Hn Hc]. pose proof oneVal_pos.
    split; [assumption|]. split; [assumption|]. rewrite Hc. lia.
  - pose proof (index_range_129 A i x (table_length A HA) Hx) as Hi.
    pose proof (index_range_129 A _ y (table_length A HA) Hy) as Hi1.
    pose proof (table_nn A HA _ _ Hx) as Nx.
    pose proof (table_nn A HA _ _ Hy) as Ny.
    destruct (diff_facts x T Nx HT ltac:(lia)) as [Na _].
    destruct (diff_facts x y Nx Ny ltac:(lia)) as [Nb _].
    pose proof (diff_pos x y Nx Ny ltac:(lia)) as Hb.
    pose proof (diff_mono x T y Nx HT Ny ltac:(lia) ltac:(lia)) as Hab.
    destruct (frac_facts _ _ Na Nb Hb Hab) as [Nf Hf].
    destruct (counter_val i ltac:(lia)) as [NI HI].
    destruct (counter_val (i + 1) ltac:(lia)) as [NI' HI'].
    destruct (sum_facts (float_of_Z i) (float_of_Z (i + 1)) _ NI NI' Nf Hf
                ltac:(rewrite HI, HI'; ring)) as [Ns Hs].
    split; [lia|]. split; [assumption|]. rewrite <- HI, <- HI'. exact Hs.
Qed.

(** On one segment the number divided grows with the target. *)
Lemma numerator_mono (A : list float) (T1 T2 : float) (i : Z) (s1 s2 : float) :
  tableOk A -> nn T1 -> nn T2 -> (fval T1 <= fval T2)%Z ->
  Mapped A T1 i s1 -> Mapped A T2 i s2 ->
  (fval s1 <= fval s2)%Z.
Proof.
  intros HA H1 H2 Hle M1 M2.
  pose proof (numerator_bounds A T2 i s2 HA H2 M2) as (Hi & _ & Hs2).
  destruct M1 as [x1 Hx1 Hv1 -> | x1 y1 Hx1 Hy1 Hlt1 Hgt1 ->].
  - destruct (counter_val i ltac:(lia)) as [_ Hc]. rewrite Hc. lia.
  - destruct M2 as [x2 Hx2 Hv2 -> | x2 y2 Hx2 Hy2 Hlt2 Hgt2 ->].
    + exfalso. assert (x2 = x1) by congruence. subst x2. lia.
    + assert (x2 = x1) by congruence. assert (y2 = y1) by congruence. subst x2 y2.
      pose proof (table_nn A HA _ _ Hx1) as Nx.
      pose proof (table_nn A HA _ _ Hy1) as Ny.
      destruct (diff_facts x1 T1 Nx H1 ltac:(lia)) as [Na1 _].
      destruct (diff_facts x1 T2 Nx H2 ltac:(lia)) as [Na2 _].
      destruct (diff_facts x1 y1 Nx Ny ltac:(lia)) as [Nb _].
      pose proof (diff_pos x1 y1 Nx Ny ltac:(lia)) as Hb.
      pose proof (diff_mono x1 T1 T2 Nx H1 H2 ltac:(lia) Hle) as Ha.
      pose proof (diff_mono x1 T1 y1 Nx H1 Ny ltac:(lia) ltac:(lia)) as Hab1.
      pose proof (diff_mono x1 T2 y1 Nx H2 Ny ltac:(lia) ltac:(lia)) as Hab2.
      destruct (frac_facts _ _ Na1 Nb Hb Hab1) as [Nf1 _].
      destruct (frac_facts _ _ Na2 Nb Hb Hab2) as [Nf2 _].
      destruct (quot_mono _ _ _ Na1 Na2 Nb Hb Ha) as (_ & _ & Hf).
      destruct (counter_val i ltac:(lia)) as [NI _].
      now apply sum_mono.
Qed.

Lemma mapped_monotone (A : list float) (T1 T2 : float) (i1 i2 : Z) (s1 s2 : float) :
  tableOk A -> nn T1 -> nn T2 ->
  (fval T1 <= fval T2)%Z -> (fval T1 < fval T2)%Z \/ i1 = i2 ->
  Mapped A T1 i1 s1 -> Mapped A T2 i2 s2 ->
  (fval s1 <= fval s2)%Z.
Proof.
  intros HA H1 H2 Hle Hstrict M1 M2.
  pose proof (numerator_bounds A T1 i1 s1 HA H1 M1) as (Hi1 & _ & Hs1).
  pose proof (numerator_bounds A T2 i2 s2 HA H2 M2) as (Hi2 & _ & Hs2).
  pose proof oneVal_pos as Hu.
  destruct (Z.lt_trichotomy i1 i2) as [Hlt | [Heq | Hgt]].
  - assert ((i1 + 1) * oneVal <= i2 * oneVal)%Z
      by (apply Z.mul_le_mono_nonneg_r; lia).
    lia.
  - subst i2. exact (numerator_mono A T1 T2 i1 s1 s2 HA H1 H2 Hle M1 M2).
  - exfalso. destruct Hstrict as [Hs | Hs]; [|lia].
    assert (Hx1 : exists x1, index A i1 = Some x1 /\ (fval x1 <= fval T1)%Z).
    { destruct M1 as [x1 Hx1 Hv1 _ | x1 y1 Hx1 _ Hlt1 _ _];
        exists x1; split; (assumption || lia). }
    destruct Hx1 as (x1 & Hx1 & Hv1).
    destruct M2 as [x2 Hx2 Hv2 _ | x2 y2 _ Hy2 _ Hgt2 _].
    + pose proof (table_sorted A HA i2 i1 x2 x1 ltac:(lia) Hx2 Hx1). lia.
    + pose proof (table_sorted A HA (i2 + 1) i1 y2 x1 ltac:(lia) Hy2 Hx1). lia.
Qed.

(** [mapUtoT] on a table of finite entries that start at zero and never
    decrease is monotone in [u]. *)
Lemma mapUtoT_monotone (A : list float) (u1 u2 L : float) :
  tableOk A -> index A 128 = Some L ->
  (0 <=? u1) = true -> (u1 <=? u2) = true -> (u2 <=? 1) = true ->
  (mapUtoT A (u1 * L) <=? mapUtoT A (u2 * L)) = true.
Proof.
  intros HA HL H0 H12 H1.
  pose proof (table_nn A HA _ _ HL) as NL.
  destruct (leb_num _ _ H12) as (_ & _ & Hu12).
  assert (H0' : (0 <=? u2) = true).
  { destruct (leb_num _ _ H0) as (N0 & _ & Hu0).
    destruct (leb_num _ _ H1) as (N2 & _ & _).
    apply leb_of_val; [assumption | assumption | lia]. }
  assert (H1' : (u1 <=? 1) = true).
  { destruct (leb_num _ _ H0) as (_ & N1 & _).
    destruct (leb_num _ _ H1) as (_ & N3 & Hu1).
    apply leb_of_val; [assumption | assumption | lia]. }
  destruct (unit_interval u1 H0 H1') as [Nu1 _].
  destruct (unit_interval u2 H0' H1) as [Nu2 _].
  destruct (target_bounds u1 L NL H0 H1') as [NT1 HT1].
  destruct (target_bounds u2 L NL H0' H1) as [NT2 HT2].
  pose proof (target_mono u1 u2 L NL Nu1 Nu2 Hu12) as HT12.
  destruct (mapUtoT_mapped A _ L HA NT1 HL HT1) as (s1 & -> & M1).
  destruct (mapUtoT_mapped A _ L HA NT2 HL HT2) as (s2 & -> & M2).
  pose proof (numerator_bounds A _ _ s1 HA NT1 M1) as (_ & Ns1 & _).
  pose proof (numerator_bounds A _ _ s2 HA NT2 M2) as (_ & Ns2 & _).
  assert (Hs : (fval s1 <= fval s2)%Z).
  { apply (mapped_monotone A (u1 * L) (u2 * L)
             (searchLoop 129 A (u1 * L) 0 128) (searchLoop 129 A (u2 * L) 0 128)
             s1 s2 HA NT1 NT2 HT12); try assumption.
    destruct (Z.eq_dec (fval (u1 * L)) (fval (u2 * L))) as [E | E]; [right | left; lia].
    apply searchLoop_value; try assumption. exact (table_nn A HA). }
  destruct (counter_val 128 ltac:(lia)) as [NN HN].
  destruct (quot_mono s1 s2 (float_of_Z 128) Ns1 Ns2 NN
              ltac:(rewrite HN; reflexivity) Hs) as (Q1 & Q2 & Hq).
  now apply leb_of_val.
Qed.

(** *** The table of a curve *)

Lemma finite_not_nan (x : float) : is_finite x = true -> is_nan x = false.
Proof.
  unfold is_finite. intros H. apply negb_true_iff in H.
  now apply orb_false_iff in H.
Qed.

Lemma notneg_finite_nn (x : float) :
  notneg x = true -> is_finite x = true -> nn x.
Proof.
  intros Hn Hf. apply is_finite_SF in Hf. unfold notneg in Hn. unfold nn.
  pose proof (Prim2SF_valid x) as Hv.
  destruct (Prim2SF x) as [s|s| |[|] m e]; try discriminate; cbn [SFnn]; trivial.
Qed.

Lemma index_nth (A : list float) (i : Z) (x : float) :
  index A i = Some x -> (0 <= i)%Z /\ nth_error A (Z.to_nat i) = Some x.
Proof.
  unfold index. destruct (Z.ltb_spec i 0); [discriminate|]. now split.
Qed.

Lemma nonDecreasing_chain (l : list float) :
  nonDecreasing l ->
  (forall k x, nth_error l k = Some x -> nn x) ->
  forall (j i : nat) (x y : float),
    (i <= j)%nat -> nth_error l i = Some x -> nth_error l j = Some y ->
    (fval x <= fval y)%Z.
Proof.
  intros Hnd Hnn. induction j as [|j IH]; intros i x y Hij Hx Hy.
  - assert (i = 0%nat) by lia. subst i. assert (x = y) by congruence. subst. lia.
  - destruct (Nat.eq_dec i (S j)) as [E | E].
    + subst i. assert (x = y) by congruence. subst. lia.
    + destruct (nth_error l j) as [z|] eqn:Hz.
      * pose proof (IH i x z ltac:(lia) Hx eq_refl) as H1.
        pose proof (Hnd j z y Hz Hy) as H2.
        cbn [num_leb JSNumber] in H2.
        destruct (leb_num _ _ H2) as (_ & _ & H3). lia.
      * exfalso. apply nth_error_None in Hz.
        assert (S j < length l)%nat by (apply nth_error_Some; congruence). lia.
Qed.

Lemma computeCurveLengths_tableOk (curve : BezierCurve) :
  forallb is_finite (computeCurveLengths curve curveResolution) = true ->
  tableOk (computeCurveLengths curve curveResolution).
Proof.
  intros Hfin.
  pose proof (@length_computeCurveLengths _ _ curve curveResolution) as Hlen.
  assert (Hnd : nonDecreasing (computeCurveLengths curve curveResolution)).
  { apply computeCurveLengths_nonDecreasing. unfold noNaN.
    rewrite forallb_forall in *. intros x Hx.
    now rewrite (finite_not_nan x (Hfin x Hx)). }
  assert (Hnn : forall k x,
             nth_error (computeCurveLengths curve curveResolution) k = Some x -> nn x).
  { intros k x Hx. apply notneg_finite_nn.
    - unfold computeCurveLengths in Hx. destruct k as [|k]; cbn [nth_error] in Hx.
      + now injection Hx as <-.
      + assert (Hz : notneg 0 = true) by reflexivity.
        exact (sumsFrom_notneg _ 0 Hz (lengthsLoop_sumsFrom curve _ _ _ _) k x Hx).
    - rewrite forallb_forall in Hfin. apply Hfin. now apply nth_error_In in Hx. }
  assert (H0 : index (computeCurveLengths curve curveResolution) 0 = Some 0)
    by reflexivity.
  generalize dependent (computeCurveLengths curve curveResolution).
  intros A _ Hlen Hnd Hnn H0. constructor.
  - rewrite Hlen. reflexivity.
  - intros i x Hx. destruct (index_nth A i x Hx) as [_ Hn]. exact (Hnn _ _ Hn).
  - intros i j x y Hij Hx Hy.
    destruct (index_nth A i x Hx) as [Hi Hnx].
    destruct (index_nth A j y Hy) as [Hj Hny].
    apply (nonDecreasing_chain A Hnd Hnn (Z.to_nat j) (Z.to_nat i)); (assumption || lia).
  - exists 0. split; [exact H0 | reflexivity].
Qed.

Lemma SFfinite_is_finite (x : float) :
  SFfinite (Prim2SF x) = true -> is_finite x = true.
Proof.
  unfold is_finite, is_nan, is_infinity.
  rewrite !eqb_spec, abs_spec.
  change (Prim2SF infinity) with (S754_infinity false).
  destruct (Prim2SF x) as [s|s| |s m e] eqn:E; cbn [SFfinite]; try discriminate;
    intros _.
  - reflexivity.
  - rewrite (SFeqb_refl (S754_finite s m e)) by reflexivity. reflexivity.
Qed.

(** A finite sum has a finite first term. *)
Lemma add_finite_l (s d : float) : is_finite (s + d) = true -> is_finite s = true.
Proof.
  intros H. apply is_finite_SF in H. rewrite add_spec in H.
  apply SFfinite_is_finite.
  destruct (Prim2SF s) as [ss|ss| |ss ms es]; try reflexivity;
    destruct (Prim2SF d) as [sd|sd| |sd md ed]; try discriminate;
    destruct ss, sd; discriminate.
Qed.

(** When the last of the running sums is finite, all of them are. *)
Lemma sumsFrom_finite (l : list float) :
  forall s, sumsFrom s l -> is_finite (List.last l s) = true ->
            is_finite s = true /\ forallb is_finite l = true.
Proof.
  induction l as [|x l IH]; intros s Hl Hfin.
  - now split.
  - rewrite last_cons in Hfin. destruct Hl as [(d & _ & ->) Hl].
    destruct (IH _ Hl Hfin) as [Hx Hall]. split.
    + exact (add_finite_l s d Hx).
    + cbn [forallb]. now rewrite Hx, Hall.
Qed.

Lemma computeCurveLengths_finite (curve : BezierCurve) (d : nat) :
  is_finite (List.last (computeCurveLengths curve d) 0) = true ->
  forallb is_finite (computeCurveLengths curve d) = true.
Proof.
  unfold computeCurveLengths. rewrite last_cons. intros H.
  destruct (sumsFrom_finite _ _ (lengthsLoop_sumsFrom curve d _ _ _) H) as [_ Hall].
  cbn [forallb]. rewrite Hall. reflexivity.
Qed.

(** With a valid cache [getCurveLength] reports the last entry of the
    table for the default resolution. *)
Lemma getCurveLength_last (curve : BezierCurve) (n : nat) :
  cacheValid curve ->
  fst (fst (getCurveLength curve n))
  = Some (List.last (computeCurveLengths curve curveResolution) 0).
Proof.
  intros Hv. unfold getCurveLength, bind.
  pose proof (@getCurveLengths_items _ _ curve curveResolution n Hv) as Hi.
  destruct (getCurveLengths curve curveResolution n) as [[a curve'] n'].
  destruct Hi as (Hi & _ & _). cbv [ret]. cbn [fst].
  rewrite lastItem_last, Hi; [reflexivity|].
  rewrite Hi. unfold computeCurveLengths. discriminate.
Qed.

(** C6, amended: for an unmodified curve whose length is finite,
    [getCurveUtoTMapping] without a distance never returns the smaller
    number for the larger [u] in [[0, 1]], rounding included.  Finite
    control points are not enough: the length may overflow. *)
Theorem getCurveUtoTMapping_monotone
    (curve : BezierCurve) (u1 u2 : float) (n0 n1 n2 : nat) :
  cacheValid curve ->
  is_finite (to_number (fst (fst (getCurveLength curve n0)))) = true ->
  (0 <=? u1) = true -> (u1 <=? u2) = true -> (u2 <=? 1) = true ->
  (fst (fst (getCurveUtoTMapping curve u1 None n1))
   <=? fst (fst (getCurveUtoTMapping curve u2 None n2))) = true.
Proof.
  intros Hv Hfin H0 H12 H1.
  rewrite getCurveLength_last in Hfin by assumption. cbn [to_number] in Hfin.
  apply computeCurveLengths_finite in Hfin.
  rewrite !getCurveUtoTMapping_table by assumption.
  pose proof (computeCurveLengths_tableOk curve Hfin) as HA.
  generalize dependent (computeCurveLengths curve curveResolution).
  intros A _ HA.
  destruct (@index_in_range _ A 128 ltac:(rewrite (table_length A HA); lia)) as [L HL].
  unfold targetOf. cbn [truthy]. rewrite (table_length A HA).
  change (Z.of_nat 129 - 1)%Z with 128%Z. rewrite HL.
  cbn [to_number num_mul JSNumber].
  exact (mapUtoT_monotone A u1 u2 L HA HL H0 H12 H1).
Qed.

Lemma getCurveUtoTMapping_monotone_witness :
  is_finite (to_number (fst (fst (getCurveLength scenario 0%nat)))) = true /\
  (fst (fst (getCurveUtoTMapping scenario 0.25 None 0%nat))
   <=? fst (fst (getCurveUtoTMapping scenario 0.75 None 0%nat))) = true.
Proof.
  split; [vm_compute; reflexivity|].
  apply (getCurveUtoTMapping_monotone scenario 0.25 0.75 0%nat 0%nat 0%nat).
  - intros a E. discriminate.
  - vm_compute. reflexivity.
  - reflexivity.
  - reflexivity.
  - reflexivity.
Defined.

(** A curve with finite control points whose segment lengths overflow:
    the square of a difference of about [1e198] is beyond the largest
    double. *)
Definition overflowing : BezierCurve :=
  newCurve (0, 0, 0) (0x1.4e718d7d7625ap+664, 0, 0) (0x1.4e718d7d7625ap+665, 0, 0).

(** C6 as stated fails: the control points are finite, the length is
    [Infinity], [u = 0] gives the target [0 * Infinity = NaN] and the
    result [NaN], [u = 0.5] gives 0.5, and [NaN <= 0.5] is false. *)
Lemma getCurveUtoTMapping_overflow_not_monotone :
  finiteVec (0, 0, 0) && finiteVec (0x1.4e718d7d7625ap+664, 0, 0)
  && finiteVec (0x1.4e718d7d7625ap+665, 0, 0) = true /\
  (0 <=? 0) && (0 <=? 0.5) && (0.5 <=? 1) = true /\
  fst (fst (getCurveLength overflowing 0%nat)) = Some infinity /\
  fst (fst (getCurveUtoTMapping overflowing 0 None 0%nat)) = nan /\
  fst (fst (getCurveUtoTMapping overflowing 0.5 None 0%nat)) = 0.5 /\
  (fst (fst (getCurveUtoTMapping overflowing 0 None 0%nat))
   <=? fst (fst (getCurveUtoTMapping overflowing 0.5 None 0%nat))) = false.
Proof. repeat split; vm_compute; reflexivity. Qed.

End Doubles.

(** * More of [geometry.ts]: constellations *)

Section Constellations.

Context {num : Type} `{Number num}.

(** One list is another with some elements left out. *)
Inductive Subsequence {A : Type} : list A -> list A -> Prop :=
  | sub_nil : Subsequence [] []
  | sub_skip (x : A) (l l' : list A) : Subsequence l l' -> Subsequence l (x :: l')
  | sub_keep (x : A) (l l' : list A) : Subsequence l l' -> Subsequence (x :: l) (x :: l').

(** The points [arcToConstellation] samples, curve after curve. *)
Definition allSamples (curvePath : Arc) (divisions : nat) : list Vec3 :=
  flat_map (fun curve => getPointsOnCurve curve divisions) (curves curvePath).

Lemma Subsequence_refl {A : Type} (l : list A) : Subsequence l l.
Proof. induction l; constructor; assumption. Qed.

Lemma Subsequence_app {A : Type} (l1 l1' l2 l2' : list A) :
  Subsequence l1 l1' -> Subsequence l2 l2' -> Subsequence (l1 ++ l2) (l1' ++ l2').
Proof.
  intros H1 H2. induction H1; cbn [app]; try constructor; assumption.
Qed.

Lemma Subsequence_length {A : Type} (l l' : list A) :
  Subsequence l l' -> length l <= length l'.
Proof. induction 1; cbn [length]; lia. Qed.

(** The inner loop appends to the output a subsequence of the points it
    is given. *)
Lemma fold_pushPoint_appends (pts : list Vec3) :
  forall st : list Vec3 * option Vec3,
  exists kept,
    fst (fold_left pushPoint pts st) = fst st ++ kept /\ Subsequence kept pts.
Proof.
  induction pts as [|p pts IH]; intros st; cbn [fold_left].
  - exists []. split; [now rewrite app_nil_r | constructor].
  - destruct (IH (pushPoint st p)) as (kept & E & Hs). rewrite E.
    destruct st as [points last]. unfold pushPoint.
    destruct last as [l|]; [destruct (equals l p)|]; cbn [fst].
    + exists kept. split; [reflexivity | now constructor].
    + exists (p :: kept). split; [now rewrite <- app_assoc | now constructor].
    + exists (p :: kept). split; [now rewrite <- app_assoc | now constructor].
Qed.

Lemma fold_curves_appends (divisions : nat) (cs : list BezierCurve) :
  forall st : list Vec3 * option Vec3,
  exists kept,
    fst (fold_left
           (fun st curve => fold_left pushPoint (getPointsOnCurve curve divisions) st)
           cs st) = fst st ++ kept /\
    Subsequence kept (flat_map (fun curve => getPointsOnCurve curve divisions) cs).
Proof.
  induction cs as [|c cs IH]; intros st; cbn [fold_left flat_map].
  - exists []. split; [now rewrite app_nil_r | constructor].
  - destruct (fold_pushPoint_appends (getPointsOnCurve c divisions) st)
      as (k1 & E1 & H1).
    destruct (IH (fold_left pushPoint (getPointsOnCurve c divisions) st))
      as (k2 & E2 & H2).
    exists (k1 ++ k2). rewrite E2, E1, app_assoc. split; [reflexivity|].
    now apply Subsequence_app.
Qed.

Lemma length_allSamples (curvePath : Arc) (divisions : nat) :
  length (allSamples curvePath divisions)
  = length (curves curvePath) * (divisions + 1).
Proof.
  unfold allSamples. induction (curves curvePath) as [|c cs IH]; cbn [flat_map].
  - reflexivity.
  - rewrite length_app, IH. unfold getPointsOnCurve.
    rewrite length_map, length_seq. cbn [length]. lia.
Qed.

(** X1: [arcToConstellation] returns sampled points only, in the order
    they were sampled: its output is the sequence of all samples with some
    left out, so it holds at most [divisions + 1] points per curve. *)
Theorem arcToConstellation_subsequence (curvePath : Arc) (divisions : nat) :
  Subsequence (arcToConstellation curvePath divisions)
              (allSamples curvePath divisions) /\
  length (arcToConstellation curvePath divisions)
  <= length (curves curvePath) * (divisions + 1).
Proof.
  assert (Hs : Subsequence (arcToConstellation curvePath divisions)
                 (allSamples curvePath divisions)).
  { unfold arcToConstellation, allSamples.
    destruct (fold_curves_appends divisions (curves curvePath) ([], None))
      as (kept & E & Hk).
    rewrite E. exact Hk. }
  split; [exact Hs|].
  rewrite <- length_allSamples. now apply Subsequence_length.
Qed.

End Constellations.

Module Constellation.

Import DoubleFacts Doubles.
Local Open Scope float_scope.

(** ** [===] on doubles *)

Lemma eqb_num (a b : float) :
  (a =? b) = true -> SFnum (Prim2SF a) /\ SFnum (Prim2SF b) /\ fval a = fval b.
Proof.
  rewrite eqb_spec. intros H.
  assert (Ha : Prim2SF a <> S754_nan)
    by (intros E; rewrite E in H; cbv in H; discriminate).
  assert (Hb : Prim2SF b <> S754_nan)
    by (intros E; rewrite E in H; destruct (Prim2SF a); cbv in H; discriminate).
  pose proof (num_float a Ha) as Na. pose proof (num_float b Hb) as Nb.
  rewrite (SFeqb_val _ _ Na Nb) in H. apply Z.eqb_eq in H.
  split; [exact Na | split; [exact Nb | exact H]].
Qed.

Lemma eqb_nan_r (a c : float) : Prim2SF c = S754_nan -> (a =? c) = false.
Proof.
  intros E. rewrite eqb_spec, E. unfold SFeqb, SFcompare.
  now destruct (Prim2SF a).
Qed.

(** Doubles that are [===] compare alike with any third. *)
Lemma eqb_congr (a b c : float) : (a =? b) = true -> (a =? c) = (b =? c).
Proof.
  intros H. destruct (eqb_num a b H) as (Na & Nb & E).
  destruct (Prim2SF c) as [s|s| |s m e] eqn:Ec;
    try (assert (Nc : SFnum (Prim2SF c))
           by (apply num_float; rewrite Ec; discriminate);
         rewrite !eqb_spec, (SFeqb_val _ _ Na Nc), (SFeqb_val _ _ Nb Nc);
         unfold fval in E; now rewrite E).
  now rewrite !eqb_nan_r.
Qed.

Lemma equals_congr (q s p : Vec3) :
  equals q s = true -> equals q p = equals s p.
Proof.
  unfold equals. cbn [num_eqb JSNumber]. intros H.
  apply andb_true_iff in H as [H Hz]. apply andb_true_iff in H as [Hx Hy].
  now rewrite (eqb_congr _ _ _ Hx), (eqb_congr _ _ _ Hy), (eqb_congr _ _ _ Hz).
Qed.

(** ** Dropping repeats *)

(** The sequence without the points that are coordinate-equal to the
    point just before them in the sequence; [prev] is the point before
    the first. *)
Fixpoint dropRepeats (prev : option (@Vec3 float)) (l : list (@Vec3 float))
  : list (@Vec3 float) :=
  match l with
  | [] => []
  | p :: l' =>
      match prev with
      | Some q => if equals q p then dropRepeats (Some p) l'
                  else p :: dropRepeats (Some p) l'
      | None => p :: dropRepeats (Some p) l'
      end
  end.

(** The variable [last] of the loop and the point sampled last compare
    alike with every point. *)
Definition sameAs (last prev : option (@Vec3 float)) : Prop :=
  match last, prev with
  | None, None => True
  | Some q, Some s => forall p, equals q p = equals s p
  | _, _ => False
  end.

Definition lastOf (prev : option (@Vec3 float)) (l : list (@Vec3 float))
  : option (@Vec3 float) :=
  match l with
  | [] => prev
  | p :: l' => Some (List.last l' p)
  end.

Lemma lastOf_cons (prev : option Vec3) (p : Vec3) (l : list Vec3) :
  lastOf prev (p :: l) = lastOf (Some p) l.
Proof. destruct l as [|a l]; [reflexivity|]. cbn [lastOf]. now rewrite last_cons. Qed.

Lemma fold_pushPoint_dropRepeats (pts : list Vec3) :
  forall (points : list Vec3) (last prev : option Vec3),
    sameAs last prev ->
    exists last',
      fold_left pushPoint pts (points, last)
      = (points ++ dropRepeats prev pts, last') /\
      sameAs last' (lastOf prev pts).
Proof.
  induction pts as [|p pts IH]; intros points last prev Hs.
  - exists last. cbn [fold_left dropRepeats lastOf]. now rewrite app_nil_r.
  - cbn [fold_left]. rewrite lastOf_cons. unfold pushPoint at 2.
    destruct last as [q|], prev as [s|]; cbn [sameAs] in Hs; try contradiction;
      cbn [dropRepeats].
    + rewrite <- (Hs p). destruct (equals q p) eqn:E.
      * apply IH. cbn [sameAs]. intros p'. now apply equals_congr.
      * destruct (IH (points ++ [p]) (Some p) (Some p)) as (last' & E' & Hs');
          [now cbn|].
        exists last'. rewrite E', <- app_assoc. now split.
    + destruct (IH (points ++ [p]) (Some p) (Some p)) as (last' & E' & Hs');
        [now cbn|].
      exists last'. rewrite E', <- app_assoc. now split.
Qed.

Lemma dropRepeats_app (l1 l2 : list Vec3) :
  forall prev,
    dropRepeats prev (l1 ++ l2)
    = dropRepeats prev l1 ++ dropRepeats (lastOf prev l1) l2.
Proof.
  induction l1 as [|p l1 IH]; intros prev; [reflexivity|].
  rewrite lastOf_cons. cbn [app dropRepeats].
  destruct prev as [q|]; [destruct (equals q p)|]; now rewrite IH.
Qed.

Lemma lastOf_app (l1 l2 : list Vec3) :
  forall prev, lastOf prev (l1 ++ l2) = lastOf (lastOf prev l1) l2.
Proof.
  induction l1 as [|p l1 IH]; intros prev; [reflexivity|].
  change ((p :: l1) ++ l2) with (p :: (l1 ++ l2)). now rewrite !lastOf_cons, IH.
Qed.

Lemma fold_curves_dropRepeats (divisions : nat) (cs : list BezierCurve) :
  forall (points : list Vec3) (last prev : option Vec3),
    sameAs last prev ->
    exists last',
      fold_left
        (fun st curve => fold_left pushPoint (getPointsOnCurve curve divisions) st)
        cs (points, last)
      = (points ++ dropRepeats prev
                     (flat_map (fun curve => getPointsOnCurve curve divisions) cs),
         last') /\
      sameAs last'
        (lastOf prev (flat_map (fun curve => getPointsOnCurve curve divisions) cs)).
Proof.
  induction cs as [|c cs IH]; intros points last prev Hs; cbn [fold_left flat_map].
  - exists last. cbn [dropRepeats lastOf]. now rewrite app_nil_r.
  - destruct (fold_pushPoint_dropRepeats (getPointsOnCurve c divisions)
                points last prev Hs) as (last1 & E & Hs1).
    rewrite E.
    destruct (IH (points ++ dropRepeats prev (getPointsOnCurve c divisions))
                last1 _ Hs1) as (last2 & E2 & Hs2).
    exists last2. rewrite E2, dropRepeats_app, lastOf_app, app_assoc. now split.
Qed.

Lemma arcToConstellation_filtered (curvePath : Arc) (divisions : nat) :
  arcToConstellation curvePath divisions
  = dropRepeats None (allSamples curvePath divisions).
Proof.
  unfold arcToConstellation, allSamples.
  destruct (fold_curves_dropRepeats divisions (curves curvePath) [] None None I)
    as (last' & E & _).
  now rewrite E.
Qed.

(** X2: on doubles, [arcToConstellation] returns all the samples of the
    path, in order, without those that are coordinate-equal to the sample
    just before them: comparing each sample with the last point kept comes
    to the same as comparing it with the sample before it. *)
Theorem arcToConstellation_dropRepeats (curvePath : Arc) (divisions : nat) :
  arcToConstellation curvePath divisions
  = dropRepeats None (allSamples curvePath divisions).
Proof.
  unfold arcToConstellation, allSamples.
  destruct (fold_curves_dropRepeats divisions (curves curvePath) [] None None I)
    as (last' & E & Hlast).
  rewrite E. cbn [fst app]. reflexivity.
Qed.

(** ** The ends of a constellation and its seams *)

Definition startPoint (curve : @BezierCurve float) : @Vec3 float :=
  fst (fst (points curve)).
Definition endPoint (curve : @BezierCurve float) : @Vec3 float :=
  snd (points curve).

(** A curve whose nine coordinates are finite doubles. *)
Definition finiteCurve (curve : @BezierCurve float) : bool :=
  finiteVec (fst (fst (points curve))) && finiteVec (snd (fst (points curve)))
  && finiteVec (snd (points curve)).

Lemma firstSample (curve : BezierCurve) (d : nat) :
  finiteCurve curve = true -> (1 <= d)%nat -> (Z.of_nat d < 2 ^ 53)%Z ->
  exists x rest,
    getPointsOnCurve curve d = x :: rest /\ length rest = d /\
    equals x (startPoint curve) = true.
Proof.
  intros Hf Hd Hd53. destruct curve as [[[p0 p1] p2] cache].
  unfold finiteCurve in Hf. cbn [points fst snd] in Hf.
  apply andb_true_iff in Hf as [Hf H2]. apply andb_true_iff in Hf as [H0 H1].
  unfold getPointsOnCurve. rewrite <- cons_seq. cbn [map].
  eexists _, _. split; [reflexivity|]. split; [now rewrite length_map, length_seq|].
  unfold num_of_nat. cbn [num_div num_of_Z JSNumber Z.of_nat].
  rewrite zero_div_counter by lia.
  now apply getPointOnCurve_start.
Qed.

Lemma lastSample (curve : BezierCurve) (d : nat) :
  finiteCurve curve = true -> (1 <= d)%nat -> (Z.of_nat d < 2 ^ 53)%Z ->
  exists front z,
    getPointsOnCurve curve d = front ++ [z] /\
    equals z (endPoint curve) = true.
Proof.
  intros Hf Hd Hd53. destruct curve as [[[p0 p1] p2] cache].
  unfold finiteCurve in Hf. cbn [points fst snd] in Hf.
  apply andb_true_iff in Hf as [Hf H2]. apply andb_true_iff in Hf as [H0 H1].
  unfold getPointsOnCurve. rewrite seq_S, map_app. cbn [map Nat.add].
  eexists _, _. split; [reflexivity|].
  unfold num_of_nat. cbn [num_div num_of_Z JSNumber].
  rewrite counter_div_self by lia.
  now apply getPointOnCurve_end.
Qed.

(** X3: on doubles, for a path whose first and last curves have finite
    control points and at least one division, the constellation starts
    with a point coordinate-equal to the start control point of the first
    curve and ends with a point coordinate-equal to the end control point
    of the last curve. *)
Theorem arcToConstellation_ends
    (a b : BezierCurve) (rest front : list BezierCurve)
    (cache : option NumArray) (d : nat) :
  a :: rest = front ++ [b] ->
  finiteCurve a = true -> finiteCurve b = true ->
  (1 <= d)%nat -> (Z.of_nat d < 2 ^ 53)%Z ->
  let out := arcToConstellation (mkArc (a :: rest) cache) d in
  (exists q, nth_error out 0 = Some q /\ equals q (startPoint a) = true) /\
  (exists q, nth_error out (length out - 1) = Some q /\
             equals q (endPoint b) = true).
Proof.
  intros Hcs Ha Hb Hd Hd53 out. split.
  - subst out. rewrite arcToConstellation_filtered. unfold allSamples.
    cbn [curves flat_map].
    destruct (firstSample a d Ha Hd Hd53) as (x & tl & -> & _ & Hx).
    exists x. now split.
  - subst out. unfold arcToConstellation. cbn [curves].
    pose proof (@fold_curves_invariant _ _ d (a :: rest) ([], None)) as Hinv.
    destruct (fold_curves_dropRepeats d (a :: rest) [] None None I)
      as (last' & E & Hs).
    rewrite E in *. cbn [fst].
    destruct Hinv as [Hl _].
    { split; [reflexivity|]. intros [|j] p q Hp; discriminate. }
    cbn [fst snd] in Hl.
    rewrite Hcs, flat_map_app in Hs. cbn [flat_map] in Hs.
    rewrite app_nil_r in Hs.
    destruct (lastSample b d Hb Hd Hd53) as (fr & z & Ez & Hz).
    rewrite Ez, !lastOf_app in Hs. cbn [lastOf List.last] in Hs.
    destruct last' as [q|]; [|contradiction]. cbn [sameAs] in Hs.
    exists q. split.
    + unfold lastPushed in Hl. rewrite Nat.sub_1_r. now symmetry.
    + now rewrite Hs.
Qed.

Lemma arcToConstellation_ends_witness :
  let out := arcToConstellation (newArc [scenario; scenarioBack]) 2 in
  (exists q, nth_error out 0 = Some q /\ equals q (0, 0, 0) = true) /\
  (exists q, nth_error out (length out - 1) = Some q /\ equals q (0, 0, 0) = true).
Proof.
  apply (arcToConstellation_ends scenario scenarioBack [scenarioBack] [scenario]
           None 2); try reflexivity; lia.
Defined.

Lemma eqb_sym (a b : float) : (a =? b) = (b =? a).
Proof.
  destruct (a =? b) eqn:E.
  - destruct (eqb_num a b E) as (Na & Nb & Hv).
    rewrite eqb_spec, (SFeqb_val _ _ Nb Na). symmetry. apply Z.eqb_eq.
    unfold fval in Hv. now rewrite Hv.
  - destruct (b =? a) eqn:E'; [|reflexivity].
    destruct (eqb_num b a E') as (Nb & Na & Hv).
    rewrite eqb_spec, (SFeqb_val _ _ Na Nb) in E. apply Z.eqb_neq in E.
    unfold fval in Hv. congruence.
Qed.

Lemma equals_sym (p q : Vec3) : equals p q = equals q p.
Proof.
  unfold equals. cbn [num_eqb JSNumber].
  now rewrite (eqb_sym (v0 p)), (eqb_sym (v1 p)), (eqb_sym (v2 p)).
Qed.

Lemma length_dropRepeats (l : list Vec3) :
  forall prev, (length (dropRepeats prev l) <= length l)%nat.
Proof.
  induction l as [|p l IH]; intros prev; cbn [dropRepeats length]; [lia|].
  destruct prev as [q|]; [destruct (equals q p)|]; cbn [length];
    specialize (IH (Some p)); lia.
Qed.

(** The last point of a constellation compares with every point as the
    last sample of the path does. *)
Lemma constellation_last
    (cs : list BezierCurve) (cache : option NumArray) (d : nat)
    (front : list Vec3) (z : Vec3) :
  allSamples (mkArc cs cache) d = front ++ [z] ->
  exists q, lastPushed (arcToConstellation (mkArc cs cache) d) = Some q /\
            forall p, equals q p = equals z p.
Proof.
  unfold allSamples, arcToConstellation. cbn [curves]. intros Es.
  pose proof (@fold_curves_invariant _ _ d cs ([], None)) as Hinv.
  destruct (fold_curves_dropRepeats d cs [] None None I) as (last' & E & Hs).
  rewrite E in *. cbn [fst].
  destruct Hinv as [Hl _].
  { split; [reflexivity|]. intros [|j] p q Hp; discriminate. }
  cbn [fst snd] in Hl.
  rewrite Es, lastOf_app in Hs. cbn [lastOf List.last] in Hs.
  destruct last' as [q|]; [|contradiction]. cbn [sameAs] in Hs.
  exists q. split; [now symmetry | exact Hs].
Qed.

(** What is kept right after a point differs from it. *)
Lemma dropRepeats_head (l : list Vec3) :
  forall x p rest, dropRepeats (Some x) l = p :: rest -> equals x p = false.
Proof.
  induction l as [|y l IH]; intros x p rest E; cbn [dropRepeats] in E;
    [discriminate|].
  destruct (equals x y) eqn:Exy.
  - rewrite (equals_congr _ _ p Exy). exact (IH y p rest E).
  - injection E as <- _. exact Exy.
Qed.

(** X4: on doubles, when the end control point of one curve is
    coordinate-equal to the start control point of the next (both with
    finite control points), the seam is sampled twice and kept once: the
    constellation of the two curves is the constellation of the first,
    which ends on a point coordinate-equal to the seam, followed by the
    samples of the second curve after its first one, without repeats; the
    first sample of the second curve is not appended, the point that
    follows the seam differs from it, and there are at most
    [2 * divisions + 1] points. *)
Theorem arcToConstellation_seam
    (a b : BezierCurve) (cache : option NumArray) (d : nat) :
  finiteCurve a = true -> finiteCurve b = true ->
  equals (endPoint a) (startPoint b) = true ->
  (1 <= d)%nat -> (Z.of_nat d < 2 ^ 53)%Z ->
  exists (q x : Vec3) (rest : list Vec3),
    lastPushed (arcToConstellation (mkArc [a] cache) d) = Some q /\
    equals q (endPoint a) = true /\
    getPointsOnCurve b d = x :: rest /\
    equals q x = true /\
    arcToConstellation (mkArc [a; b] cache) d
    = arcToConstellation (mkArc [a] cache) d ++ dropRepeats (Some x) rest /\
    (forall p tl, dropRepeats (Some x) rest = p :: tl -> equals q p = false) /\
    (length (arcToConstellation (mkArc [a; b] cache) d) <= 2 * d + 1)%nat.
Proof.
  intros Ha Hb Hseam Hd Hd53.
  destruct (lastSample a d Ha Hd Hd53) as (fr & z & Ez & Hz).
  destruct (firstSample b d Hb Hd Hd53) as (x & tl & Ex & Hlen & Hx).
  assert (Hzx : equals z x = true).
  { rewrite (equals_congr _ _ _ Hz), (equals_congr _ _ _ Hseam), equals_sym.
    exact Hx. }
  destruct (constellation_last [a] cache d fr z) as (q & Hq & Hqz).
  { unfold allSamples. cbn [curves flat_map]. now rewrite app_nil_r. }
  assert (Hqx : equals q x = true) by (now rewrite Hqz).
  assert (Eab : arcToConstellation (mkArc [a; b] cache) d
                = arcToConstellation (mkArc [a] cache) d ++ dropRepeats (Some x) tl).
  { rewrite !arcToConstellation_filtered. unfold allSamples.
    cbn [curves flat_map]. rewrite !app_nil_r, dropRepeats_app. f_equal.
    rewrite Ez, lastOf_app. cbn [lastOf List.last].
    rewrite Ex. cbn [dropRepeats]. now rewrite Hzx. }
  exists q, x, tl.
  split; [exact Hq|]. split; [now rewrite Hqz|]. split; [exact Ex|].
  split; [exact Hqx|]. split; [exact Eab|]. split.
  - intros p rest E. rewrite (equals_congr _ _ p Hqx).
    exact (dropRepeats_head tl x p rest E).
  - rewrite Eab, length_app, arcToConstellation_filtered. unfold allSamples.
    cbn [curves flat_map]. rewrite app_nil_r.
    assert (Hla : length (getPointsOnCurve a d) = S d)
      by (unfold getPointsOnCurve; now rewrite length_map, length_seq).
    pose proof (length_dropRepeats (getPointsOnCurve a d) None).
    pose proof (length_dropRepeats tl (Some x)). lia.
Qed.

Lemma arcToConstellation_seam_witness :
  exists (q x : Vec3) (rest : list Vec3),
    lastPushed (arcToConstellation (newArc [scenario]) 2) = Some q /\
    equals q (2, 0, 0) = true /\
    getPointsOnCurve scenarioBack 2 = x :: rest /\
    equals q x = true /\
    arcToConstellation (newArc [scenario; scenarioBack]) 2
    = arcToConstellation (newArc [scenario]) 2 ++ dropRepeats (Some x) rest /\
    (forall p tl, dropRepeats (Some x) rest = p :: tl -> equals q p = false) /\
    (length (arcToConstellation (newArc [scenario; scenarioBack]) 2) <= 2 * 2 + 1)%nat.
Proof.
  apply (arcToConstellation_seam scenario scenarioBack None 2);
    try reflexivity; lia.
Defined.

End Constellation.

(** * More of [geometry.ts]: the lengths of a path *)

Section PathLengths.

Context {num : Type} `{Number num}.

(** The length of a curve: the last entry of its table for the default
    resolution. *)
Definition curveLength (curve : BezierCurve) : num :=
  List.last (computeCurveLengths curve curveResolution) (num_of_Z 0).

(** The running totals of a sequence of numbers, added left to right
    onto [s]. *)
Fixpoint runningSums (s : num) (l : list num) : list num :=
  match l with
  | [] => []
  | x :: l' => num_add s x :: runningSums (num_add s x) l'
  end.

(** A curve whose cache holds a table for the default resolution. *)
Definition cachedAtDefault (curve : @BezierCurve num) : Prop :=
  exists t, cacheArcLengths curve = Some t /\
            length (items t) = (curveResolution + 1)%nat.


Lemma getCurveLengths_cachedAtDefault (curve : BezierCurve) (n : nat) :
  let '(a, curve', n') := getCurveLengths curve curveResolution n in
  cachedAtDefault curve' /\ (n <= n')%nat.
Proof.
  unfold getCurveLengths.
  destruct (cacheArcLengths curve) as [cache|] eqn:Ec.
  - destruct (length (items cache) =? curveResolution + 1)%nat eqn:El.
    + cbv [ret]. split; [|lia]. exists cache. split; [assumption|].
      now apply Nat.eqb_eq.
    + cbv [bind fresh ret]. split; [|lia]. eexists. split; [reflexivity|].
      cbn [items]. apply length_computeCurveLengths.
  - cbv [bind fresh ret]. split; [|lia]. eexists. split; [reflexivity|].
    cbn [items]. apply length_computeCurveLengths.
Qed.

(** What [getCurveLength] returns and leaves behind for a curve with a
    valid cache. *)
Lemma getCurveLength_spec (curve : BezierCurve) (n : nat) :
  cacheValid curve ->
  let '(len, curve', n') := getCurveLength curve n in
  len = Some (curveLength curve) /\ points curve' = points curve /\
  cacheValid curve' /\ cachedAtDefault curve'.
Proof.
  intros Hv. unfold getCurveLength, bind.
  pose proof (getCurveLengths_items curveResolution n Hv) as Hi.
  pose proof (getCurveLengths_cachedAtDefault curve n) as Hc.
  destruct (getCurveLengths curve curveResolution n) as [[a curve'] n'].
  destruct Hi as (Hi & Hp & Hv'). destruct Hc as [Hc _]. cbv [ret].
  repeat split; try assumption.
  rewrite lastItem_last, Hi; [reflexivity|].
  rewrite Hi. unfold computeCurveLengths. discriminate.
Qed.

Lemma pathLoop_spec (cs : list BezierCurve) :
  forall (sums : num) (n : nat),
    Forall cacheValid cs ->
    let '(lengths, cs', n') := pathLoop cs sums n in
    lengths = runningSums sums (map curveLength cs) /\
    map points cs' = map points cs /\
    Forall cacheValid cs' /\ Forall cachedAtDefault cs'.
Proof.
  induction cs as [|c cs IH]; intros sums n Hv; cbn [pathLoop].
  - cbv [ret]. repeat split; constructor.
  - inversion Hv as [|? ? Hc Hcs]; subst. unfold bind at 1.
    pose proof (getCurveLength_spec c n Hc) as Hl.
    destruct (getCurveLength c n) as [[len c'] n1].
    destruct Hl as (-> & Hp & Hv' & Hd). unfold bind at 1.
    specialize (IH (num_add sums (to_number (Some (curveLength c)))) n1 Hcs).
    destruct (pathLoop cs _ n1) as [[lengths cs'] n2].
    destruct IH as (-> & Hps & Hvs & Hds). cbv [ret]. cbn [map runningSums to_number].
    repeat split; try (constructor; assumption).
    now rewrite Hp, Hps.
Qed.

Lemma length_pathLoop (cs : list BezierCurve) :
  forall (sums : num) (n : nat),
    let '(lengths, cs', _) := pathLoop cs sums n in
    length lengths = length cs /\ length cs' = length cs.
Proof.
  induction cs as [|c cs IH]; intros sums n; cbn [pathLoop].
  - now cbv [ret].
  - unfold bind at 1. destruct (getCurveLength c n) as [[len c'] n1].
    unfold bind at 1. specialize (IH (num_add sums (to_number len)) n1).
    destruct (pathLoop cs _ n1) as [[lengths cs'] n2]. cbv [ret].
    cbn [length]. destruct IH. split; congruence.
Qed.

(** X5: once [getCurvePathLengths] has run on a path, a further call
    returns the very array of the first call, allocates nothing and leaves
    the path as it is, and [getCurvePathLength] reads its last entry. *)
Theorem getCurvePathLengths_cache_reused (curvePath : Arc) (n : nat) :
  let '(a, curvePath', n') := getCurvePathLengths curvePath n in
  getCurvePathLengths curvePath' n' = (a, curvePath', n') /\
  getCurvePathLength curvePath' n' = (lastItem a, curvePath', n').
Proof.
  assert (Hre : forall m,
             let '(a, curvePath', n') :=
               (id <- fresh ;;
                '(lengths, cs) <- pathLoop (curves curvePath) (num_of_Z 0) ;;
                let cache := mkArray id lengths in
                ret (cache, mkArc cs (Some cache))) m in
             getCurvePathLengths curvePath' n' = (a, curvePath', n')).
  { intros m. cbv [bind fresh ret].
    pose proof (length_pathLoop (curves curvePath) (num_of_Z 0) (S m)) as Hl.
    destruct (pathLoop (curves curvePath) (num_of_Z 0) (S m)) as [[lengths cs] k].
    destruct Hl as [Hl1 Hl2].
    unfold getCurvePathLengths. cbn [cacheLengths items curves].
    rewrite Hl1, Hl2, Nat.eqb_refl. reflexivity. }
  assert (Hall : let '(a, curvePath', n') := getCurvePathLengths curvePath n in
                 getCurvePathLengths curvePath' n' = (a, curvePath', n')).
  { unfold getCurvePathLengths at 1.
    destruct (cacheLengths curvePath) as [cache|] eqn:Ec; [|apply Hre].
    destruct (length (items cache) =? length (curves curvePath))%nat eqn:El;
      [|apply Hre].
    cbv [ret]. unfold getCurvePathLengths. now rewrite Ec, El. }
  destruct (getCurvePathLengths curvePath n) as [[a curvePath'] n'].
  split; [exact Hall|].
  unfold getCurvePathLength, bind. now rewrite Hall.
Qed.

(** X6: a path that has no cache yet (and whose curves are unmodified)
    comes back from [getCurvePathLengths] with the same control points and
    with every curve holding a table for the default resolution, so that a
    later [getCurveLength] on any of its curves allocates nothing and
    changes nothing. *)
Theorem getCurvePathLengths_fills_curves (cs : list BezierCurve) (n : nat) :
  Forall cacheValid cs ->
  let '(_, curvePath', _) := getCurvePathLengths (newArc cs) n in
  map points (curves curvePath') = map points cs /\
  Forall (fun curve =>
            forall m, getCurveLength curve m = (Some (curveLength curve), curve, m))
         (curves curvePath').
Proof.
  intros Hv. unfold getCurvePathLengths, newArc. cbn [cacheLengths curves].
  cbv [bind fresh ret].
  pose proof (pathLoop_spec cs (num_of_Z 0) (S n) Hv) as Hs.
  destruct (pathLoop cs (num_of_Z 0) (S n)) as [[lengths cs'] k].
  destruct Hs as (_ & Hp & Hvs & Hds). cbn [curves]. split; [exact Hp|].
  rewrite Forall_forall in *. intros c Hc m.
  destruct (Hds c Hc) as (t & Et & Hlen).
  pose proof (getCurveLength_spec c m (Hvs c Hc)) as Hl.
  unfold getCurveLength, bind, getCurveLengths in *.
  rewrite Et in *. apply Nat.eqb_eq in Hlen. rewrite Hlen in *.
  cbv [ret] in *. destruct Hl as (-> & _). reflexivity.
Qed.

(** X7: for a path that has no cache yet and whose curves are unmodified,
    the entries [getCurvePathLengths] returns are the running totals of the
    lengths of its curves, added left to right from 0, and
    [getCurvePathLength] is the last of them: the sum of the lengths, or
    [undefined] for a path without curves. *)
Theorem getCurvePathLength_total (cs : list BezierCurve) (n : nat) :
  Forall cacheValid cs ->
  items (fst (fst (getCurvePathLengths (newArc cs) n)))
  = runningSums (num_of_Z 0) (map curveLength cs) /\
  fst (fst (getCurvePathLength (newArc cs) n))
  = match cs with
    | [] => None
    | _ :: _ => Some (fold_left num_add (map curveLength cs) (num_of_Z 0))
    end.
Proof.
  intros Hv.
  assert (Hlast : forall l s, l <> [] ->
             List.last (runningSums s l) (num_of_Z 0) = fold_left num_add l s).
  { induction l as [|x l IH]; intros s Hne; [congruence|].
    cbn [runningSums fold_left]. destruct l as [|y l]; [reflexivity|].
    rewrite <- IH by discriminate. cbn [runningSums]. reflexivity. }
  unfold getCurvePathLength, getCurvePathLengths, newArc.
  cbn [cacheLengths curves]. cbv [bind fresh ret].
  pose proof (pathLoop_spec cs (num_of_Z 0) (S n) Hv) as Hs.
  destruct (pathLoop cs (num_of_Z 0) (S n)) as [[lengths cs'] k].
  destruct Hs as (-> & _). cbn [fst items]. split; [reflexivity|].
  destruct cs as [|c cs]; [reflexivity|].
  rewrite lastItem_last.
  - cbn [items]. f_equal. apply Hlast. discriminate.
  - cbn [items]. discriminate.
Qed.

(** X8: a path without curves has no length: [getCurvePathLength]
    returns [undefined], not 0, whatever the cache of the path holds. *)
Theorem getCurvePathLength_no_curves (cache : option NumArray) (n : nat) :
  fst (fst (getCurvePathLength (mkArc [] cache) n)) = None /\
  items (fst (fst (getCurvePathLengths (mkArc [] cache) n))) = [].
Proof.
  unfold getCurvePathLength, getCurvePathLengths, bind.
  cbn [cacheLengths curves].
  destruct cache as [[id [|x l]]|]; split; reflexivity.
Qed.

End PathLengths.

Module Lengths.

Import DoubleFacts Doubles.
Local Open Scope float_scope.

(** ** Cumulative lengths, overflow included *)
















End Lengths.

Module Mapping.

Import DoubleFacts Doubles.
Local Open Scope float_scope.

(** ** The table a curve of finite length has *)

Lemma finiteLength_table (curve : BezierCurve) (n0 : nat) :
  cacheValid curve ->
  is_finite (to_number (fst (fst (getCurveLength curve n0)))) = true ->
  tableOk (computeCurveLengths curve curveResolution).
Proof.
  intros Hv Hfin.
  rewrite getCurveLength_last in Hfin by assumption. cbn [to_number] in Hfin.
  apply computeCurveLengths_tableOk. now apply computeCurveLengths_finite.
Qed.

Lemma table_last (A : list float) :
  tableOk A -> exists L, index A 128 = Some L /\ nn L.
Proof.
  intros HA.
  destruct (@index_in_range _ A 128 ltac:(rewrite (table_length A HA); lia)) as [L HL].
  exists L. split; [assumption | exact (table_nn A HA _ _ HL)].
Qed.

Lemma nn_finite (x : float) : nn x -> is_finite x = true.
Proof.
  intros Hx. apply SFfinite_is_finite. unfold nn in Hx.
  destruct (Prim2SF x) as [s|s| |[|] m e]; (contradiction || reflexivity).
Qed.

(** ** The mapping stays in [[0, 1]] *)

Lemma mapUtoT_range (A : list float) (T L : float) :
  tableOk A -> index A 128 = Some L -> nn T -> (fval T <= fval L)%Z ->
  (0 <=? mapUtoT A T) = true /\ (mapUtoT A T <=? 1) = true.
Proof.
  intros HA HL HT HTL.
  destruct (mapUtoT_mapped A T L HA HT HL HTL) as (s & -> & M).
  pose proof (numerator_bounds A T _ s HA HT M) as (Hi & Ns & Hs).
  destruct (counter_val 128 ltac:(lia)) as [NN HN].
  destruct (counter_val 0 ltac:(lia)) as [N0 H0].
  assert (Hpos : (0 < fval (float_of_Z 128))%Z) by (rewrite HN; reflexivity).
  assert (Hup : (fval s <= fval (float_of_Z 128))%Z).
  { rewrite HN. pose proof oneVal_pos.
    set (i := searchLoop 129 A T 0 128) in *.
    destruct M as [x Hx _ E | x y _ Hy _ _ _].
    - subst s. destruct (counter_val i ltac:(lia)) as [_ ->].
      apply Z.mul_le_mono_nonneg_r; lia.
    - pose proof (index_range_129 A _ y (table_length A HA) Hy).
      apply Z.le_trans with ((i + 1) * oneVal)%Z; [lia|].
      apply Z.mul_le_mono_nonneg_r; lia. }
  destruct (quot_mono (float_of_Z 0) s (float_of_Z 128) N0 Ns NN Hpos
              ltac:(rewrite H0; pose proof (proj1 (nn_val s Ns)); lia))
    as (Q0 & Q1 & Hlo).
  destruct (quot_mono s (float_of_Z 128) (float_of_Z 128) Ns NN NN Hpos Hup)
    as (_ & Q2 & Hhi).
  change (float_of_Z 0 / float_of_Z 128) with 0 in Hlo, Q0.
  assert (E1 : float_of_Z 128 / float_of_Z 128 = 1) by (vm_compute; reflexivity).
  rewrite E1 in Hhi, Q2.
  split; apply leb_of_val; assumption.
Qed.

(** X9: for an unmodified curve of finite length and [u] in [[0, 1]],
    [getCurveUtoTMapping] without a distance returns a number in
    [[0, 1]]. *)
Theorem getCurveUtoTMapping_range
    (curve : BezierCurve) (u : float) (n0 n : nat) :
  cacheValid curve ->
  is_finite (to_number (fst (fst (getCurveLength curve n0)))) = true ->
  (0 <=? u) = true -> (u <=? 1) = true ->
  let t := fst (fst (getCurveUtoTMapping curve u None n)) in
  (0 <=? t) = true /\ (t <=? 1) = true.
Proof.
  intros Hv Hfin H0 H1.
  pose proof (finiteLength_table curve n0 Hv Hfin) as HA.
  cbv zeta. rewrite getCurveUtoTMapping_table by assumption.
  generalize dependent (computeCurveLengths curve curveResolution). intros A HA.
  destruct (table_last A HA) as (L & HL & NL).
  unfold targetOf. cbn [truthy]. rewrite (table_length A HA).
  change (Z.of_nat 129 - 1)%Z with 128%Z. rewrite HL.
  cbn [to_number num_mul JSNumber].
  destruct (target_bounds u L NL H0 H1) as [NT HT].
  exact (mapUtoT_range A (u * L) L HA HL NT HT).
Qed.

Lemma getCurveUtoTMapping_range_witness :
  let t := fst (fst (getCurveUtoTMapping scenario 0.375 None 0%nat)) in
  (0 <=? t) = true /\ (t <=? 1) = true.
Proof.
  apply (getCurveUtoTMapping_range scenario 0.375 0%nat 0%nat).
  - intros a E. discriminate.
  - vm_compute. reflexivity.
  - reflexivity.
  - reflexivity.
Defined.

(** ** Tables without repeated entries *)

Fixpoint strictlyIncreasing (l : list float) : bool :=
  match l with
  | a :: (b :: _) as rest => (a <? b) && strictlyIncreasing rest
  | _ => true
  end.

Lemma ltb_val (x y : float) :
  nn x -> nn y -> (x <? y) = true -> (fval x < fval y)%Z.
Proof.
  intros Nx Ny H. rewrite ltb_spec in H.
  rewrite (SFltb_val _ _ (nn_num x Nx) (nn_num y Ny)) in H. now apply Z.ltb_lt.
Qed.

Lemma strictlyIncreasing_step (l : list float) :
  strictlyIncreasing l = true ->
  forall (k : nat) (a b : float),
    nth_error l k = Some a -> nth_error l (S k) = Some b -> (a <? b) = true.
Proof.
  induction l as [|x l IH]; intros Hs k a b Ha Hb; [destruct k; discriminate|].
  destruct l as [|y l]; [destruct k; discriminate|].
  cbn [strictlyIncreasing] in Hs. apply andb_true_iff in Hs as [Hxy Hs].
  destruct k as [|k]; cbn [nth_error] in Ha, Hb.
  - congruence.
  - exact (IH Hs k a b Ha Hb).
Qed.

Lemma strictlyIncreasing_chain (A : list float) :
  tableOk A -> strictlyIncreasing A = true ->
  forall (i j : Z) (x y : float),
    (i < j)%Z -> index A i = Some x -> index A j = Some y -> (fval x < fval y)%Z.
Proof.
  intros HA Hs i j x y Hij Hx Hy.
  pose proof (index_range_129 A i x (table_length A HA) Hx) as Hi.
  pose proof (index_range_129 A j y (table_length A HA) Hy) as Hj.
  destruct (@index_in_range _ A (i + 1) ltac:(rewrite (table_length A HA); lia))
    as [z Hz].
  apply Z.lt_le_trans with (fval z).
  - destruct (index_nth A i x Hx) as [_ Hnx].
    destruct (index_nth A (i + 1) z Hz) as [_ Hnz].
    replace (Z.to_nat (i + 1)) with (S (Z.to_nat i)) in Hnz by lia.
    apply ltb_val.
    + exact (table_nn A HA _ _ Hx).
    + exact (table_nn A HA _ _ Hz).
    + exact (strictlyIncreasing_step A Hs _ x z Hnx Hnz).
  - exact (table_sorted A HA (i + 1) j z y ltac:(lia) Hz Hy).
Qed.

(** A target that is an entry of a table without repeated entries is
    mapped to the index of the entry, divided by 128. *)
Lemma mapUtoT_entry (A : list float) (k : Z) (b T : float) :
  tableOk A -> strictlyIncreasing A = true ->
  index A k = Some b -> nn T -> fval T = fval b ->
  mapUtoT A T = float_of_Z k / float_of_Z 128.
Proof.
  intros HA Hs Hb NT E.
  destruct (table_last A HA) as (L & HL & NL).
  pose proof (index_range_129 A k b (table_length A HA) Hb) as Hk.
  pose proof (table_sorted A HA k 128 b L ltac:(lia) Hb HL) as HbL.
  destruct (mapUtoT_mapped A T L HA NT HL ltac:(lia)) as (s & -> & M).
  set (i := searchLoop 129 A T 0 128) in *.
  f_equal.
  destruct M as [x Hx Hv -> | x y Hx Hy Hlt Hgt _].
  - f_equal. destruct (Z.lt_trichotomy i k) as [H | [H | H]]; [|assumption|].
    + pose proof (strictlyIncreasing_chain A HA Hs i k x b H Hx Hb). lia.
    + pose proof (strictlyIncreasing_chain A HA Hs k i b x H Hb Hx). lia.
  - exfalso. destruct (Z.le_gt_cases k i) as [H | H].
    + pose proof (table_sorted A HA k i b x H Hb Hx). lia.
    + pose proof (table_sorted A HA (i + 1) k y b ltac:(lia) Hy Hb). lia.
Qed.

Lemma nn_eqb_refl (x : float) : nn x -> (x =? x) = true.
Proof.
  intros Nx. rewrite eqb_spec, (SFeqb_val _ _ (nn_num x Nx) (nn_num x Nx)).
  apply Z.eqb_refl.
Qed.

Lemma nn_pos_eqb_zero (x : float) : nn x -> (0 < fval x)%Z -> (x =? 0) = false.
Proof.
  intros Nx Hpos.
  assert (N0 : SFnum (Prim2SF 0)) by (split; [reflexivity | discriminate]).
  rewrite eqb_spec, (SFeqb_val _ _ (nn_num x Nx) N0).
  apply Z.eqb_neq. change (SFval (Prim2SF 0)) with 0%Z. unfold fval in Hpos. lia.
Qed.

(** X10: when no two neighbouring entries of the table of a curve of finite
    length are equal, [getCurveUtoTMapping] maps [u = 0] to [0] and
    [u = 1] to [1]. *)
Theorem getCurveUtoTMapping_endpoints (curve : BezierCurve) (n0 n : nat) :
  cacheValid curve ->
  is_finite (to_number (fst (fst (getCurveLength curve n0)))) = true ->
  strictlyIncreasing (computeCurveLengths curve curveResolution) = true ->
  fst (fst (getCurveUtoTMapping curve 0 None n)) = 0 /\
  fst (fst (getCurveUtoTMapping curve 1 None n)) = 1.
Proof.
  intros Hv Hfin Hs.
  pose proof (finiteLength_table curve n0 Hv Hfin) as HA.
  rewrite !getCurveUtoTMapping_table by assumption.
  generalize dependent (computeCurveLengths curve curveResolution). intros A Hs HA.
  destruct (table_last A HA) as (L & HL & NL).
  destruct (table_first A HA) as (x0 & Hx0 & Hv0).
  unfold targetOf. cbn [truthy]. rewrite (table_length A HA).
  change (Z.of_nat 129 - 1)%Z with 128%Z. rewrite HL.
  cbn [to_number num_mul JSNumber]. split.
  - assert (H0 : (0 <=? 0) = true) by reflexivity.
    assert (H1 : (0 <=? 1) = true) by reflexivity.
    destruct (target_bounds 0 L NL H0 H1) as [NT _].
    rewrite (mapUtoT_entry A 0 x0 (0 * L) HA Hs Hx0 NT); [vm_compute; reflexivity|].
    rewrite Hv0. pose proof (mul_0_l L (nn_finite L NL)) as Hz.
    unfold fval. destruct (Prim2SF (0 * L)); (discriminate || reflexivity).
  - rewrite (mul_1_l L (nn_finite L NL)).
    rewrite (mapUtoT_entry A 128 L L HA Hs HL NL eq_refl). vm_compute. reflexivity.
Qed.

Lemma getCurveUtoTMapping_endpoints_witness :
  fst (fst (getCurveUtoTMapping scenario 0 None 0%nat)) = 0 /\
  fst (fst (getCurveUtoTMapping scenario 1 None 0%nat)) = 1.
Proof.
  apply (getCurveUtoTMapping_endpoints scenario 0%nat 0%nat).
  - intros a E. discriminate.
  - vm_compute. reflexivity.
  - vm_compute. reflexivity.
Defined.

(** X11: when no two neighbouring entries of the table of a curve of finite
    length are equal, a supplied distance that equals entry [k >= 1] of the
    table gives exactly [k / 128], whatever [u] is. *)
Theorem getCurveUtoTMapping_table_entry
    (curve : BezierCurve) (u b : float) (k : Z) (n0 n : nat) :
  cacheValid curve ->
  is_finite (to_number (fst (fst (getCurveLength curve n0)))) = true ->
  strictlyIncreasing (computeCurveLengths curve curveResolution) = true ->
  (1 <= k)%Z ->
  index (computeCurveLengths curve curveResolution) k = Some b ->
  fst (fst (getCurveUtoTMapping curve u (Some b) n)) = float_of_Z k / float_of_Z 128.
Proof.
  intros Hv Hfin Hs Hk Hb.
  pose proof (finiteLength_table curve n0 Hv Hfin) as HA.
  rewrite getCurveUtoTMapping_table by assumption.
  generalize dependent (computeCurveLengths curve curveResolution). intros A Hs Hb HA.
  destruct (table_first A HA) as (x0 & Hx0 & Hv0).
  pose proof (table_nn A HA _ _ Hb) as Nb.
  pose proof (strictlyIncreasing_chain A HA Hs 0 k x0 b ltac:(lia) Hx0 Hb) as Hpos.
  unfold targetOf. cbn [truthy num_eqb num_of_Z JSNumber].
  change (float_of_Z 0) with 0.
  rewrite (nn_eqb_refl b Nb), (nn_pos_eqb_zero b Nb ltac:(lia)).
  cbn [negb andb].
  exact (mapUtoT_entry A k b b HA Hs Hb Nb eq_refl).
Qed.

Lemma getCurveUtoTMapping_table_entry_witness :
  exists b,
    index (computeCurveLengths scenario curveResolution) 32 = Some b /\
    fst (fst (getCurveUtoTMapping scenario 0.875 (Some b) 0%nat)) = 0.25.
Proof.
  eexists. split; [vm_compute; reflexivity|].
  rewrite (getCurveUtoTMapping_table_entry scenario 0.875 _ 32 0%nat 0%nat).
  - vm_compute. reflexivity.
  - intros a E. discriminate.
  - vm_compute. reflexivity.
  - vm_compute. reflexivity.
  - lia.
  - vm_compute. reflexivity.
Defined.

(** ** Curves of length zero *)

Lemma eqb_zero_SF (x : float) : (x =? 0) = true -> SFzero (Prim2SF x) = true.
Proof.
  rewrite eqb_spec. change (Prim2SF 0) with (S754_zero false).
  destruct (Prim2SF x) as [s|[|]| |[|] m e]; cbv; intros E;
    (reflexivity || discriminate).
Qed.

Lemma SFzero_nn (x : float) : SFzero (Prim2SF x) = true -> nn x /\ fval x = 0%Z.
Proof.
  unfold nn, fval. destruct (Prim2SF x); (discriminate || (intros _; now split)).
Qed.

Lemma mul_zero_r (u z : float) :
  is_finite u = true -> SFzero (Prim2SF z) = true -> SFzero (Prim2SF (u * z)) = true.
Proof.
  intros Hu Hz. apply is_finite_SF in Hu. rewrite mul_spec.
  destruct (Prim2SF u) as [su|su| |su mu eu]; try discriminate;
    destruct (Prim2SF z) as [sz|sz| |sz mz ez]; try discriminate; reflexivity.
Qed.

(** On a table whose entries are all zero the search stops on the first
    index it looks at, the middle one. *)
Lemma mapUtoT_flat (A : list float) (T L : float) :
  tableOk A -> index A 128 = Some L -> fval L = 0%Z ->
  nn T -> fval T = 0%Z ->
  mapUtoT A T = 0.5.
Proof.
  intros HA HL HL0 NT HT0.
  destruct (@index_in_range _ A 64 ltac:(rewrite (table_length A HA); lia)) as [x Hx].
  pose proof (table_nn A HA _ _ Hx) as Nx.
  pose proof (table_sorted A HA 64 128 x L ltac:(lia) Hx HL) as HxL.
  pose proof (proj1 (nn_val x Nx)) as Hx0.
  destruct (below_val T x (nn_num x Nx) (nn_num T NT)) as [Eb Ea].
  unfold below, above in Eb, Ea.
  assert (Hi : searchLoop 129 A T 0 128 = 64%Z).
  { change 129%nat with (S 128). generalize 128%nat. intros fuel. cbn [searchLoop].
    change (0 <=? 128)%Z with true. change (0 + (128 - 0) / 2)%Z with 64%Z.
    cbv iota zeta. rewrite Hx, Eb, Ea.
    replace (fval x <? fval T)%Z with false by (symmetry; apply Z.ltb_ge; lia).
    replace (fval T <? fval x)%Z with false by (symmetry; apply Z.ltb_ge; lia).
    reflexivity. }
  unfold mapUtoT. rewrite (table_length A HA).
  change (Z.of_nat 129 - 1)%Z with 128%Z. rewrite Hi, Hx.
  cbn [num_eqb num_div num_of_Z JSNumber].
  rewrite eqb_spec, (SFeqb_val _ _ (nn_num x Nx) (nn_num T NT)).
  replace (SFval (Prim2SF x) =? SFval (Prim2SF T))%Z with true
    by (symmetry; apply Z.eqb_eq; unfold fval in *; lia).
  vm_compute. reflexivity.
Qed.

(** X12: on a curve of length zero [getCurveUtoTMapping] without a
    distance returns [0.5] for every finite [u]. *)
Theorem getCurveUtoTMapping_zero_length
    (curve : BezierCurve) (u : float) (n0 n : nat) :
  cacheValid curve ->
  (to_number (fst (fst (getCurveLength curve n0))) =? 0) = true ->
  is_finite u = true ->
  fst (fst (getCurveUtoTMapping curve u None n)) = 0.5.
Proof.
  intros Hv Hzero Hu.
  apply eqb_zero_SF in Hzero. destruct (SFzero_nn _ Hzero) as [NL0 HL0].
  pose proof (finiteLength_table curve n0 Hv (nn_finite _ NL0)) as HA.
  rewrite getCurveLength_last in Hzero, HL0 by assumption.
  cbn [to_number] in Hzero, HL0.
  rewrite getCurveUtoTMapping_table by assumption.
  generalize dependent (computeCurveLengths curve curveResolution).
  intros A Hzero HL0 HA.
  destruct (table_last A HA) as (L & HL & NL).
  assert (Hne : items (mkArray 0 A) <> []).
  { cbn [items]. intros E. pose proof (table_length A HA) as Hlen.
    rewrite E in Hlen. discriminate. }
  pose proof (@lastItem_last _ _ (mkArray 0 A) Hne) as Hlast.
  unfold lastItem in Hlast. cbn [items] in Hlast.
  rewrite (table_length A HA) in Hlast.
  change (Z.of_nat 129 - 1)%Z with 128%Z in Hlast.
  rewrite HL in Hlast. injection Hlast as EL.
  assert (EL' : List.last A 0 = L) by (symmetry; exact EL).
  rewrite EL' in Hzero, HL0.
  unfold targetOf. cbn [truthy]. rewrite (table_length A HA).
  change (Z.of_nat 129 - 1)%Z with 128%Z. rewrite HL.
  cbn [to_number num_mul JSNumber].
  destruct (SFzero_nn _ (mul_zero_r u L Hu Hzero)) as [NT HT].
  exact (mapUtoT_flat A (u * L) L HA HL HL0 NT HT).
Qed.

Lemma getCurveUtoTMapping_zero_length_witness :
  fst (fst (getCurveUtoTMapping still 0.875 None 0%nat)) = 0.5.
Proof.
  apply (getCurveUtoTMapping_zero_length still 0.875 0%nat 0%nat).
  - intros a E. discriminate.
  - vm_compute. reflexivity.
  - reflexivity.
Defined.

(** ** Targets before the table *)

(** Interpolating with [undefined] for the entry before the bracket gives
    [NaN]. *)
Lemma interpolate_undefined_before (i T y N : float) :
  (i + (T - nan) / (y - nan)) / N = nan.
Proof.
  apply SF_nan.
  rewrite div_spec, add_spec, div_spec, (sub_spec y nan).
  change (Prim2SF nan) with S754_nan.
  assert (H0 : forall a, SF64sub a S754_nan = S754_nan) by (now intros [ | | | ]).
  assert (H1 : forall a, SF64div a S754_nan = S754_nan) by (now intros [ | | | ]).
  assert (H2 : forall a, SF64add a S754_nan = S754_nan) by (now intros [ | | | ]).
  rewrite H0, H1, H2. reflexivity.
Qed.

Lemma ltb_above (T x : float) :
  (T <? x) = true ->
  below T (Some x) = false /\ above T (Some x) = true.
Proof.
  intros H. destruct (ltb_SFnum T x H) as [HT Hx].
  rewrite ltb_spec, (SFltb_val _ _ HT Hx) in H. apply Z.ltb_lt in H.
  destruct (below_val T x Hx HT) as [-> ->].
  split; [apply Z.ltb_ge | apply Z.ltb_lt]; unfold fval; lia.
Qed.

(** When the target is below every entry the search runs out on index
    [-1], where the table has no entry. *)
Lemma mapUtoT_before (A : list float) (T : float) :
  A <> [] ->
  forallb (fun x => T <? x) A = true ->
  searchLoop (length A) A T 0 (Z.of_nat (length A) - 1) = (-1)%Z /\
  mapUtoT A T = nan.
Proof.
  intros Hne Hall.
  assert (Hin : forall i x, index A i = Some x -> (T <? x) = true).
  { intros i x Hx. rewrite forallb_forall in Hall. apply Hall.
    unfold index in Hx. destruct (i <? 0)%Z; [discriminate|].
    now apply nth_error_In in Hx. }
  assert (Hlen : (0 < length A)%nat) by (destruct A; [congruence | cbn; lia]).
  assert (Hi : searchLoop (length A) A T 0 (Z.of_nat (length A) - 1) = (-1)%Z).
  { pose proof (@searchLoop_exit _ _ A T (length A) 0 (Z.of_nat (length A) - 1)
                  ltac:(lia) ltac:(lia)) as Hexit.
    set (i := searchLoop (length A) A T 0 (Z.of_nat (length A) - 1)) in *.
    destruct Hexit as [Hr _ Ha | Hr _ Hdown].
    - destruct (@index_in_range _ A i ltac:(lia)) as [x Hx].
      rewrite Hx in Ha. destruct (ltb_above T x (Hin _ _ Hx)) as (_ & Ha').
      congruence.
    - destruct Hdown as [E | Hb]; [exact E|].
      destruct (Z.eq_dec i (-1)) as [E | E]; [exact E|].
      destruct (@index_in_range _ A i ltac:(lia)) as [x Hx].
      rewrite Hx in Hb. destruct (ltb_above T x (Hin _ _ Hx)) as (Hb' & _).
      congruence. }
  split; [exact Hi|].
  unfold mapUtoT. rewrite Hi. change (index A (-1)) with (@None float).
  cbn [to_number num_nan num_add num_sub num_div JSNumber].
  apply interpolate_undefined_before.
Qed.

(** X13: a supplied distance below zero makes [getCurveUtoTMapping] return
    [NaN] on a curve of finite length: the search ends on index [-1]. *)
Theorem getCurveUtoTMapping_negative_distance
    (curve : BezierCurve) (u d : float) (n0 n : nat) :
  cacheValid curve ->
  is_finite (to_number (fst (fst (getCurveLength curve n0)))) = true ->
  (d <? 0) = true ->
  fst (fst (getCurveUtoTMapping curve u (Some d) n)) = nan.
Proof.
  intros Hv Hfin Hd.
  pose proof (finiteLength_table curve n0 Hv Hfin) as HA.
  rewrite getCurveUtoTMapping_table by assumption.
  assert (Hne : computeCurveLengths curve curveResolution <> [])
    by (unfold computeCurveLengths; discriminate).
  generalize dependent (computeCurveLengths curve curveResolution). intros A HA Hne.
  destruct (ltb_SFnum d 0 Hd) as [Nd N0].
  pose proof Hd as Hlt. rewrite ltb_spec, (SFltb_val _ _ Nd N0) in Hlt.
  apply Z.ltb_lt in Hlt. change (SFval (Prim2SF 0)) with 0%Z in Hlt.
  unfold targetOf. cbn [truthy num_eqb num_of_Z JSNumber].
  change (float_of_Z 0) with 0.
  rewrite !eqb_spec, (SFeqb_val _ _ Nd N0), (SFeqb_val _ _ Nd Nd).
  change (SFval (Prim2SF 0)) with 0%Z.
  replace (SFval (Prim2SF d) =? 0)%Z with false by (symmetry; apply Z.eqb_neq; lia).
  rewrite Z.eqb_refl. cbn [negb andb to_number].
  apply mapUtoT_before; [assumption|].
  apply forallb_forall. intros x Hx.
  apply In_nth_error in Hx as [k Hk].
  assert (Hix : index A (Z.of_nat k) = Some x).
  { unfold index. destruct (Z.ltb_spec (Z.of_nat k) 0); [lia|]. now rewrite Nat2Z.id. }
  pose proof (table_nn A HA _ _ Hix) as Nx.
  rewrite ltb_spec, (SFltb_val _ _ Nd (nn_num x Nx)).
  apply Z.ltb_lt. pose proof (proj1 (nn_val x Nx)). unfold fval in *. lia.
Qed.

Lemma getCurveUtoTMapping_negative_distance_witness :
  fst (fst (getCurveUtoTMapping scenario 0.5 (Some (-1)) 0%nat)) = nan.
Proof.
  apply (getCurveUtoTMapping_negative_distance scenario 0.5 (-1) 0%nat 0%nat).
  - intros a E. discriminate.
  - vm_compute. reflexivity.
  - reflexivity.
Defined.

End Mapping.

Module Points.

Import DoubleFacts Doubles Constellation.
Local Open Scope float_scope.

(** ** No divisions *)

Definition nanPoint : @Vec3 float := (nan, nan, nan).

Lemma mul_nan_l (x : float) : nan * x = nan.
Proof. apply SF_nan. rewrite mul_spec. reflexivity. Qed.

Lemma mul_nan_r (x : float) : x * nan = nan.
Proof.
  apply SF_nan. rewrite mul_spec. change (Prim2SF nan) with S754_nan.
  now destruct (Prim2SF x).
Qed.

Lemma add_nan_l (x : float) : nan + x = nan.
Proof. apply SF_nan. rewrite add_spec. reflexivity. Qed.

Lemma QuadraticBezier_nan (p0 p1 p2 : float) : QuadraticBezier nan p0 p1 p2 = nan.
Proof.
  unfold QuadraticBezier, QuadraticBezierP0, QuadraticBezierP1, QuadraticBezierP2.
  cbn [num_add num_mul num_sub num_of_Z JSNumber].
  change (float_of_Z 1 - nan) with nan.
  now rewrite !mul_nan_l, !add_nan_l.
Qed.

Lemma getPointsOnCurve_no_divisions (curve : BezierCurve) :
  getPointsOnCurve curve 0 = [nanPoint].
Proof.
  unfold getPointsOnCurve. cbn [seq map]. unfold num_of_nat.
  cbn [num_div num_of_Z JSNumber Z.of_nat].
  change (float_of_Z 0 / float_of_Z 0) with nan.
  unfold getPointOnCurve. destruct (points curve) as [[a b] c].
  now rewrite !QuadraticBezier_nan.
Qed.

Lemma equals_nanPoint (p : Vec3) : equals p nanPoint = false.
Proof.
  unfold equals, nanPoint. cbn [num_eqb JSNumber v0 fst].
  now rewrite (eqb_nan_r (v0 p) nan eq_refl).
Qed.

(** X14: with [divisions = 0] the one sample of a curve is at
    [t = 0 / 0]: [getPointsOnCurve] returns the single point
    [(NaN, NaN, NaN)], and [arcToConstellation] returns one such point for
    each curve of the path, none dropped. *)
Theorem arcToConstellation_no_divisions (curvePath : Arc) :
  Forall (fun curve => getPointsOnCurve curve 0 = [nanPoint]) (curves curvePath) /\
  arcToConstellation curvePath 0 = repeat nanPoint (length (curves curvePath)).
Proof.
  split.
  - apply Forall_forall. intros curve _. apply getPointsOnCurve_no_divisions.
  - unfold arcToConstellation.
    assert (Hfold : forall cs points last,
               fst (fold_left
                      (fun st curve => fold_left pushPoint (getPointsOnCurve curve 0) st)
                      cs (points, last))
               = points ++ repeat nanPoint (length cs)).
    { induction cs as [|c cs IH]; intros points last; cbn [fold_left length repeat].
      - now rewrite app_nil_r.
      - rewrite getPointsOnCurve_no_divisions. cbn [fold_left pushPoint].
        destruct last as [l|]; [rewrite equals_nanPoint|];
          rewrite IH, <- app_assoc; reflexivity. }
    exact (Hfold (curves curvePath) [] None).
Qed.

(** ** Distances *)

(** The sign of a rounded number does not reach its magnitude. *)
Lemma SFabs_binary_round_aux (s : bool) (m e : Z) (l : location) :
  SFabs (binary_round_aux prec emax s m e l)
  = SFabs (binary_round_aux prec emax false m e l).
Proof.
  unfold binary_round_aux.
  destruct (shr_fexp prec emax m e l) as [mrs' e'].
  destruct (shr_fexp prec emax _ e' loc_Exact) as [mrs'' e''].
  destruct (shr_m mrs'') as [|p|p]; try reflexivity.
  now destruct (_ <=? _)%Z.
Qed.

Lemma SFabs_binary_round (s : bool) (m : positive) (e : Z) :
  SFabs (binary_round prec emax s m e) = SFabs (binary_round prec emax false m e).
Proof.
  unfold binary_round. destruct (shl_align m e _) as [mz ez].
  apply SFabs_binary_round_aux.
Qed.

Lemma SFabs_binary_normalize_opp (m e : Z) :
  SFabs (binary_normalize prec emax (- m) e false)
  = SFabs (binary_normalize prec emax m e false).
Proof.
  destruct m as [|p|p]; cbn [Z.opp binary_normalize]; try reflexivity.
  - apply SFabs_binary_round.
  - symmetry. apply SFabs_binary_round.
Qed.

(** Swapping the operands of a subtraction changes the sign at most. *)
Lemma SFabs_sub_swap (x y : spec_float) :
  SFabs (SF64sub x y) = SFabs (SF64sub y x).
Proof.
  unfold SF64sub, SFsub.
  destruct x as [sx|sx| |sx mx ex], y as [sy|sy| |sy my ey];
    try reflexivity; try (destruct sx, sy; reflexivity).
  cbv zeta. change IntDef.Z.min with Z.min. change IntDef.Z.sub with Z.sub.
  rewrite (Z.min_comm ey ex).
  set (a := cond_Zopp sx _). set (b := cond_Zopp sy _).
  replace (b - a)%Z with (- (a - b))%Z by lia.
  symmetry. apply SFabs_binary_normalize_opp.
Qed.

(** A square does not see the sign. *)
Lemma SFmul_square_abs (x y : spec_float) :
  SFabs x = SFabs y -> SF64mul x x = SF64mul y y.
Proof.
  unfold SF64mul, SFmul.
  destruct x as [sx|sx| |sx mx ex], y as [sy|sy| |sy my ey]; cbn [SFabs];
    intros E; try discriminate; try reflexivity.
  - now destruct sx, sy.
  - now destruct sx, sy.
  - injection E as -> ->. now destruct sx, sy.
Qed.

Lemma square_sub_swap (a b : float) : (a - b) * (a - b) = (b - a) * (b - a).
Proof.
  apply Prim2SF_inj. rewrite !mul_spec, !sub_spec.
  apply SFmul_square_abs, SFabs_sub_swap.
Qed.

(** X15: on doubles [distanceTo] is symmetric, for all points, the
    infinite and the undefined ones included. *)
Theorem distanceTo_symmetric (a b : Vec3) :
  distanceTo a b = distanceTo b a /\ distanceToSquared a b = distanceToSquared b a.
Proof.
  assert (E : distanceToSquared a b = distanceToSquared b a).
  { unfold distanceToSquared. cbn [num_add num_mul num_sub JSNumber].
    now rewrite (square_sub_swap (v0 a)), (square_sub_swap (v1 a)),
      (square_sub_swap (v2 a)). }
  split; [|exact E]. unfold distanceTo. now rewrite E.
Qed.

(** The difference of two finite doubles that are [===] is a zero. *)
Lemma sub_eqb_zero (a b : float) :
  (a =? b) = true -> is_finite a = true -> SFzero (Prim2SF (a - b)) = true.
Proof.
  intros E Hf. apply is_finite_SF in Hf. rewrite eqb_spec in E.
  rewrite sub_spec. apply SFeqb_eq in E as [E | (s & s' & Ea & Eb)].
  - rewrite <- E. unfold SF64sub, SFsub.
    destruct (Prim2SF a) as [s|s| |s m e]; try discriminate.
    + now destruct s.
    + cbv zeta. change IntDef.Z.sub with Z.sub. rewrite Z.sub_diag. reflexivity.
  - rewrite Ea, Eb. now destruct s, s'.
Qed.

Lemma square_zero (d : float) : SFzero (Prim2SF d) = true -> d * d = 0.
Proof.
  intros H. apply Prim2SF_inj. rewrite mul_spec.
  destruct (Prim2SF d) as [[|]| | |]; try discriminate; reflexivity.
Qed.

(** X16: two points that [equals] accepts, with finite coordinates, are
    at distance zero. *)
Theorem equals_distanceTo_zero (a b : Vec3) :
  equals a b = true -> finiteVec a = true -> distanceTo a b = 0.
Proof.
  unfold equals, finiteVec. cbn [num_eqb JSNumber]. intros He Hf.
  apply andb_true_iff in He as [He Ez]. apply andb_true_iff in He as [Ex Ey].
  apply andb_true_iff in Hf as [Hf Fz]. apply andb_true_iff in Hf as [Fx Fy].
  unfold distanceTo, distanceToSquared. cbn [num_add num_mul num_sub num_sqrt JSNumber].
  rewrite (square_zero _ (sub_eqb_zero _ _ Ex Fx)),
    (square_zero _ (sub_eqb_zero _ _ Ey Fy)),
    (square_zero _ (sub_eqb_zero _ _ Ez Fz)).
  reflexivity.
Qed.

Lemma equals_distanceTo_zero_witness :
  distanceTo (1, 0, -2) (1, -0, -2) = 0.
Proof.
  apply (equals_distanceTo_zero (1, 0, -2) (1, -0, -2)); reflexivity.
Defined.

(** X17: [equals] is symmetric and transitive on doubles; it is not
    reflexive, a point with a [NaN] coordinate differs from itself. *)
Theorem equals_partial_equivalence (p q r : Vec3) :
  equals p q = equals q p /\
  implb (equals p q && equals q r) (equals p r) = true /\
  equals p p = negb (is_nan (v0 p) || is_nan (v1 p) || is_nan (v2 p)).
Proof.
  split; [apply equals_sym | split].
  - destruct (equals p q) eqn:Hpq; [|reflexivity].
    rewrite (equals_congr _ _ r Hpq). now destruct (equals q r).
  - unfold equals, is_nan. cbn [num_eqb JSNumber].
    now destruct (v0 p =? v0 p), (v1 p =? v1 p), (v2 p =? v2 p).
Qed.

(** ** The lengths of a path of two curves *)

Lemma getCurvePathLengths_fills_curves_witness :
  let '(_, curvePath', _) := getCurvePathLengths (newArc [scenario; scenarioBack]) 0%nat in
  map points (curves curvePath') = map points [scenario; scenarioBack] /\
  Forall (fun curve =>
            forall m, getCurveLength curve m = (Some (curveLength curve), curve, m))
         (curves curvePath').
Proof.
  apply (getCurvePathLengths_fills_curves [scenario; scenarioBack] 0%nat).
  repeat constructor; intros a E; discriminate.
Defined.

Lemma getCurvePathLength_total_witness :
  items (fst (fst (getCurvePathLengths (newArc [scenario; scenarioBack]) 0%nat)))
  = [curveLength scenario; curveLength scenario + curveLength scenarioBack] /\
  fst (fst (getCurvePathLength (newArc [scenario; scenarioBack]) 0%nat))
  = Some (curveLength scenario + curveLength scenarioBack).
Proof.
  destruct (getCurvePathLength_total [scenario; scenarioBack] 0%nat) as [H1 H2].
  - repeat constructor; intros a E; discriminate.
  - rewrite H1, H2. split; vm_compute; reflexivity.
Defined.

End Points.
